(** * tap-emarsys: the incremental extraction engine of [tap_emarsys/streams.py]

    A shallow embedding of the stream synchronisation functions and the
    properties of the checkpointing state machine, the job poller, the
    paginated fetchers and the contact field resolver.

    Conventions of the embedding.
    - Every Python function with an effect becomes a computation in the
      monad [M]: it produces the ordered list of observable events (API
      requests, sleeps, sink writes, persisted states) and either a value or
      the exception that aborted it.
    - The API client is an oracle ([client]): requests always return; what
      they return is arbitrary.  Transport failures and the rate limiting
      decorators of [post_metric] concern wall-clock time and are outside
      the embedding.
    - A [DateTime] of pendulum is an instant in UTC: its proleptic
      Gregorian day number (days since 1970-01-01) and its time of day.  A
      configured calendar date is read at midnight; the word [now] is read
      off the clock, with its time of day. *)

From Stdlib Require Import ZArith List String Ascii Lia Bool Arith.
Import ListNotations.
Local Open Scope string_scope.
Local Open Scope Z_scope.
Local Open Scope list_scope.

(** ** Python: exceptions, the effect monad, list operations *)

Module Python.

Inductive exn : Type :=
| NameError (name : string)
| TypeError (msg : string)
| ValueError (msg : string)
| KeyError (key : string)
| OverflowError (msg : string)
| ParserError (text : string)
| RecursionError (msg : string)
| Exception (msg : string).

Section Monad.
Context {E : Type}.

(** Events emitted so far, then the exception raised or the value returned. *)
Definition M (A : Type) : Type := list E * (exn + A).

Definition ret {A} (a : A) : M A := ([], inr a).
Definition raise {A} (e : exn) : M A := ([], inl e).
Definition emit (ev : E) : M unit := ([ev], inr tt).

Definition bind {A B} (c : M A) (k : A -> M B) : M B :=
match snd c with
| inl e => (fst c, inl e)
| inr a => (fst c ++ fst (k a), snd (k a))
end.

Definition trace {A} (c : M A) : list E := fst c.
Definition outcome {A} (c : M A) : exn + A := snd c.
End Monad.

Arguments M : clear implicits.

(** [l.remove(x)]: drops the first occurrence, [ValueError] when there is none. *)
Fixpoint list_remove (x : string) (l : list string) : option (list string) :=
match l with
| [] => None
| y :: l' =>
    if String.eqb y x then Some l'
    else match list_remove x l' with
         | Some r => Some (y :: r)
         | None => None
         end
end.

Definition remove {E} (x : string) (l : list string) : M E (list string) :=
match list_remove x l with
| Some r => ret r
| None => raise (ValueError "list.remove(x): x not in list")
end.

(** [x in l] for a list of strings. *)
Definition mem (x : string) (l : list string) : bool :=
existsb (String.eqb x) l.

(** [sep.join(l)]. *)
Fixpoint join (sep : string) (l : list string) : string :=
match l with
| [] => ""
| [x] => x
| x :: l' => (x ++ sep ++ join sep l')%string
end.

(** A [dict] with string keys, in insertion order: [d[k] = v] keeps the
  place of a key that is there already. *)
Fixpoint dict_set {V} (k : string) (v : V) (d : list (string * V))
: list (string * V) :=
match d with
| [] => [(k, v)]
| (k', v') :: d' =>
    if String.eqb k' k then (k, v) :: d'
    else (k', v') :: dict_set k v d'
end.

Fixpoint dict_get {V} (k : string) (d : list (string * V)) : option V :=
match d with
| [] => None
| (k', v') :: d' => if String.eqb k' k then Some v' else dict_get k d'
end.

Definition keys {V} (d : list (string * V)) : list string := map fst d.

(** [list(map(f, l))] for an [f] that may raise. *)
Fixpoint map_m {E A B} (f : A -> M E B) (l : list A) : M E (list B) :=
match l with
| [] => ret []
| x :: l' =>
    bind (f x) (fun y => bind (map_m f l') (fun ys => ret (y :: ys)))
end.

End Python.

Export Python.

Declare Scope monad_scope.
Delimit Scope monad_scope with monad.
Notation "x <- c ;; k" := (bind c (fun x => k))
  (at level 61, c at next level, right associativity) : monad_scope.
Notation "c ;; k" := (bind c (fun _ => k))
  (at level 61, right associativity) : monad_scope.
Local Open Scope monad_scope.

(** ** pendulum: dates and times

    A [DateTime] is an instant in UTC: the number of its day, counted from
    1970-01-01, and the time of that day in microseconds since midnight.
    [parse] accepts the forms the tap feeds it: an ISO calendar date
    [YYYY-MM-DD], read at midnight, such a date with a time,
    [YYYY-MM-DDTHH:MM:SS] with or without a closing [Z], and the word
    [now], read off the clock with its time of day (the clock is taken to
    run in UTC, as the dates that are parsed do); [to_date_string] prints
    [YYYY-MM-DD].  Day
    numbers are converted with the usual era based civil calendar
    arithmetic (400-year eras of 146097 days, years starting in March). *)

Module Pendulum.

Record DateTime : Type := mkDateTime {
day : Z;
time : N
}.

(** The calendar date [z] at 00:00:00. *)
Definition at_midnight (z : Z) : DateTime := mkDateTime z 0.

(** [a <= b] on instants. *)
Definition le (a b : DateTime) : bool :=
(day a <? day b) || ((day a =? day b) && (time a <=? time b)%N).

Definition yoe_of (doe : Z) : Z :=
(doe - doe / 1460 + doe / 36524 - doe / 146096) / 365.

Definition doy_of (doe : Z) : Z :=
let yoe := yoe_of doe in doe - (365 * yoe + yoe / 4 - yoe / 100).

Definition civil_from_days (z : Z) : Z * Z * Z :=
let z' := z + 719468 in
let era := z' / 146097 in
let doe := z' - era * 146097 in
let yoe := yoe_of doe in
let y := yoe + era * 400 in
let doy := doy_of doe in
let mp := (5 * doy + 2) / 153 in
let d := doy - (153 * mp + 2) / 5 + 1 in
let m := if mp <? 10 then mp + 3 else mp - 9 in
(if m <=? 2 then y + 1 else y, m, d).

Definition days_from_civil (y m d : Z) : Z :=
let y' := if m <=? 2 then y - 1 else y in
let era := y' / 400 in
let yoe := y' - era * 400 in
let doy := (153 * (if 2 <? m then m - 3 else m + 9) + 2) / 5 + d - 1 in
let doe := yoe * 365 + yoe / 4 - yoe / 100 + doy in
era * 146097 + doe - 719468.

(** 0001-01-01 and 9999-12-31, the range of [datetime]. *)
Definition MINORD : Z := -719162.
Definition MAXORD : Z := 2932896.

Definition in_range (z : Z) : bool := (MINORD <=? z) && (z <=? MAXORD).

Definition digit_char (n : Z) : ascii := ascii_of_N (Z.to_N (48 + n)).

Definition char_digit (c : ascii) : option Z :=
let n := Z.of_N (N_of_ascii c) in
if (48 <=? n) && (n <=? 57) then Some (n - 48) else None.

Definition fmt2 (n : Z) : string :=
String (digit_char (n / 10)) (String (digit_char (n mod 10)) EmptyString).

Definition fmt4 (n : Z) : string :=
String (digit_char (n / 1000))
  (String (digit_char (n / 100 mod 10)) (fmt2 (n mod 100))).

(** [YYYY-MM-DD] for the day number [z]. *)
Definition date_string (z : Z) : string :=
let '(y, m, d) := civil_from_days z in
(fmt4 y ++ "-" ++ fmt2 m ++ "-" ++ fmt2 d)%string.

(** [dt.to_date_string()]. *)
Definition to_date_string (dt : DateTime) : string := date_string (day dt).

Definition num2 (a b : ascii) : option Z :=
match char_digit a, char_digit b with
| Some x, Some y => Some (10 * x + y)
| _, _ => None
end.

Definition num4 (a b c d : ascii) : option Z :=
match num2 a b, num2 c d with
| Some x, Some y => Some (100 * x + y)
| _, _ => None
end.

Definition triple_eqb (p q : Z * Z * Z) : bool :=
let '(a, b, c) := p in
let '(a', b', c') := q in
(a =? a') && (b =? b') && (c =? c').

(** A calendar date [YYYY-MM-DD] that exists, as its day number. *)
Definition parse_date (text : string) : option Z :=
match text with
| String y1 (String y2 (String y3 (String y4 (String "-"
    (String m1 (String m2 (String "-"
      (String d1 (String d2 EmptyString))))))))) =>
    match num4 y1 y2 y3 y4, num2 m1 m2, num2 d1 d2 with
    | Some y, Some m, Some d =>
        let z := days_from_civil y m d in
        if triple_eqb (civil_from_days z) (y, m, d) && in_range z
        then Some z else None
    | _, _, _ => None
    end
| _ => None
end.

(** A time of day [HH:MM:SS], in microseconds since midnight. *)
Definition parse_time (text : string) : option N :=
match text with
| String h1 (String h2 (String ":"
    (String m1 (String m2 (String ":"
      (String s1 (String s2 EmptyString))))))) =>
    match num2 h1 h2, num2 m1 m2, num2 s1 s2 with
    | Some h, Some m, Some s =>
        if (h <? 24) && (m <? 60) && (s <? 60)
        then Some (Z.to_N ((h * 3600 + m * 60 + s) * 1000000))
        else None
    | _, _, _ => None
    end
| _ => None
end.

(** [YYYY-MM-DD], alone or followed by [T], a time of day and possibly
  [Z]. *)
Definition parse_iso (text : string) : option DateTime :=
match parse_date (substring 0 10 text) with
| None => None
| Some z =>
    match substring 10 (String.length text - 10) text with
    | EmptyString => Some (at_midnight z)
    | String "T" rest =>
        let clock :=
          if String.eqb (substring 8 (String.length rest - 8) rest) "Z"
          then substring 0 8 rest else rest in
        match parse_time clock with
        | Some t => Some (mkDateTime z t)
        | None => None
        end
    | _ => None
    end
end.

(** [pendulum.parse(text)], reading the clock [now] for the word [now];
  a calendar date is the instant at which that day starts. *)
Definition parse {E} (now : DateTime) (text : string) : M E DateTime :=
if String.eqb text "now" then ret now
else match parse_iso text with
     | Some dt => ret dt
     | None => raise (ParserError text)
     end.

(** [dt.add(days=n)]: the same time of day, [n] days on; past 9999-12-31
  the date is out of range. *)
Definition add_days {E} (dt : DateTime) (n : Z) : M E DateTime :=
if in_range (day dt + n) then ret (mkDateTime (day dt + n) (time dt))
else raise (OverflowError "date value out of range").

Definition fmt6 (n : Z) : string :=
(fmt2 (n / 10000) ++ fmt2 (n / 100 mod 100) ++ fmt2 (n mod 100))%string.

(** [HH:MM:SS], with the microseconds when there are any. *)
Definition time_string (t : N) : string :=
let us := Z.of_N t in
let s := us / 1000000 in
let hh := fmt2 (s / 3600) in
let mm := fmt2 (s / 60 mod 60) in
let ss := fmt2 (s mod 60) in
let fraction :=
  if us mod 1000000 =? 0 then EmptyString
  else String "." (fmt6 (us mod 1000000)) in
(hh ++ ":" ++ mm ++ ":" ++ ss ++ fraction)%string.

(** [dt.isoformat()], in UTC. *)
Definition isoformat (dt : DateTime) : string :=
(to_date_string dt ++ "T" ++ time_string (time dt) ++ "+00:00")%string.

End Pendulum.

(** ** The tap's data *)

(** A record handed to the sink: a JSON object whose values are strings or
    null, in insertion order. *)
Definition record : Type := list (string * option string).

(** The [metrics] entry of [state['bookmarks']]: the resumable checkpoint. *)
Record bookmark : Type := mkBookmark {
  campaigns_to_resume : option (list string);
  metrics_to_resume : option (list string);
  date_to_resume : option string;
  last_metric_date : option string
}.

(** [ctx.state]; [metrics_bookmark = None] when [state['bookmarks']] has no
    [metrics] entry. *)
Record state : Type := mkState {
  metrics_bookmark : option bookmark;
  last_synced_stream : option string
}.

(** What [GET /email/{job}/responses] returns: the empty string while the
    job runs, then the object holding [contact_ids]. *)
Inductive response : Type :=
| EmptyResult
| Result (contact_ids : list string).

(** A contact as [POST /contact/getdata] returns it: field id to value. *)
Definition raw_contact : Type := list (string * string).

(** The page of [GET /contact/query/]. *)
Record query_page : Type := mkQueryPage {
  errors : list string;
  result : list string
}.

(** The API client, as an oracle. *)
Record api : Type := mkApi {
  post_email_responses : string -> string -> string -> string;
  get_email_responses : string -> nat -> response;
  get_contact_query : nat -> nat -> query_page;
  post_contact_getdata : list string -> list string -> list raw_contact;
  get_contactlist : string -> nat -> nat -> list string
}.

Inductive event : Type :=
| PostEmailResponses (metric date campaign_id : string)
| GetEmailResponses (job_id : string)
| Sleep (seconds : Z)
| GetContactQuery (limit offset : nat)
| PostContactGetdata (key_values fields : list string)
| GetContactlist (contact_list_id : string) (limit offset : nat)
| SingerWriteRecords (tap_stream_id : string) (records : list record)
| CounterIncrement (tap_stream_id : string) (n : nat)
| WriteState (s : state).

Record config : Type := mkConfig {
  start_date : option string;
  end_date : option string
}.

(** One entry of a stream's metadata list; [metrics_selected_md] is its
    [tap-emarsys.metrics-selected] value. *)
Record metadata_entry : Type := mkMetadata {
  breadcrumb : list string;
  metrics_selected_md : option (list string)
}.

Record property_schema : Type := mkSchema {
  selected : option bool
}.

Record campaign : Type := mkCampaign {
  id : string;
  deleted : option string
}.

Record raw_field : Type := mkRawField {
  raw_id : string;
  raw_name : string;
  application_type : string
}.

Record field_info : Type := mkFieldInfo {
  field_type : string;
  field_name : string;
  field_id : string
}.

(** The context object without its mutable [state], which is threaded.
    [now] is the reading of the clock, with its time of day, that a run
    gets where a date is the word [now].  A run is taken to read the clock
    at one instant: the readings of lines 205 and 206 are moments apart,
    and the loop of line 232 goes through the same days for any two
    readings less than a day apart. *)
Record ctx : Type := mkCtx {
  client : api;
  cfg : config;
  metrics_metadata : list metadata_entry;
  contacts_properties : list (string * property_schema);
  now : Pendulum.DateTime
}.

(** What [streams.py] imports from [tap_emarsys/schemas.py], a module that
    is not among the sources: taken as a parameter. [get_contacts_raw_fields]
    stands for the field list that call returns. *)
Record schemas : Type := mkSchemas {
  METRICS_AVAILABLE : list string;
  normalize_fieldname : string -> string;
  get_contacts_raw_fields : ctx -> list raw_field
}.

(** ** singer *)

Module Singer.

Definition empty_bookmark : bookmark := mkBookmark None None None None.

(** [state.get('bookmarks', {}).get('metrics', {})]. *)
Definition get_bookmark (st : state) : bookmark :=
match metrics_bookmark st with
| Some b => b
| None => empty_bookmark
end.

(** [write_bookmark(state, 'metrics', key, val)], one function per key. *)
Definition write_campaigns_to_resume (st : state) (v : list string) : state :=
let b := get_bookmark st in
mkState (Some (mkBookmark (Some v) (metrics_to_resume b)
                          (date_to_resume b) (last_metric_date b)))
        (last_synced_stream st).

Definition write_metrics_to_resume (st : state) (v : list string) : state :=
let b := get_bookmark st in
mkState (Some (mkBookmark (campaigns_to_resume b) (Some v)
                          (date_to_resume b) (last_metric_date b)))
        (last_synced_stream st).

Definition write_date_to_resume (st : state) (v : string) : state :=
let b := get_bookmark st in
mkState (Some (mkBookmark (campaigns_to_resume b) (metrics_to_resume b)
                          (Some v) (last_metric_date b)))
        (last_synced_stream st).

Definition write_last_metric_date (st : state) (v : string) : state :=
let b := get_bookmark st in
mkState (Some (mkBookmark (campaigns_to_resume b) (metrics_to_resume b)
                          (date_to_resume b) (Some v)))
        (last_synced_stream st).

(** [reset_stream(state, 'metrics')]: the entry becomes the empty object. *)
Definition reset_stream (st : state) : state :=
mkState (Some empty_bookmark) (last_synced_stream st).

(** [metadata.to_map(raw).get(())]: the last entry with the empty
  breadcrumb, as a dict built in list order keeps it. *)
Fixpoint root_metadata (raw : list metadata_entry) : option metadata_entry :=
match raw with
| [] => None
| e :: raw' =>
    match root_metadata raw' with
    | Some e' => Some e'
    | None => match breadcrumb e with
              | [] => Some e
              | _ :: _ => None
              end
    end
end.

End Singer.

(** ** streams.py *)

(** The names bound at module level: the imports of lines 1-18, [LOGGER]
    and the functions the module defines.  Python's builtins hold none of
    the other names the module uses. *)
Definition module_globals : list string :=
  [ "time"; "partial"; "singer"; "pendulum"; "requests"; "metadata";
    "write_bookmark"; "clear_bookmark";
    "limits"; "sleep_and_retry"; "RateLimitException";
    "on_exception"; "expo";
    "IDS"; "get_contacts_raw_fields"; "get_contact_field_type";
    "normalize_fieldname"; "METRICS_AVAILABLE"; "LOGGER";
    "metrics"; "write_records"; "base_transform"; "sync_campaigns";
    "transform_contact"; "paginate_contacts"; "sync_contacts";
    "sync_contact_lists"; "sync_contact_list_memberships";
    "sync_contact_lists_memberships"; "post_metric"; "sync_metric";
    "write_metrics_state"; "sync_metrics"; "sync_selected_streams" ].

(** Evaluating a global name: the object bound to it, or [NameError]. *)
Definition global {A} (name : string) (bound : A) : M event A :=
  if mem name module_globals then ret bound
  else raise (NameError name).

(** [metrics]: the record counter of the stream. *)
Definition metrics (tap_stream_id : string) (records : list record)
  : M event unit :=
  emit (CounterIncrement tap_stream_id (List.length records)).

Definition write_records (tap_stream_id : string) (records : list record)
  : M event unit :=
  emit (SingerWriteRecords tap_stream_id records) ;;
  metrics tap_stream_id records.

(** Modelled from the spec: [ctx.write_state] lives in the context module,
    which is not among the sources; the state store persists the whole
    checkpoint mapping on each write. *)
Definition write_state (st : state) : M event unit :=
  emit (WriteState st).

Definition post_metric (c : ctx) (metric date campaign_id : string)
  : M event string :=
  emit (PostEmailResponses metric date campaign_id) ;;
  ret (post_email_responses (client c) metric date campaign_id).

(** The polling loop of [sync_metric].  [todo] is [10 - num_attempts], the
    iterations the guard [num_attempts < 10] still allows; when it reaches
    zero the last response was the empty string, which is what [data]
    holds. *)
Fixpoint poll (c : ctx) (job : string) (num_attempts todo : nat)
  : M event response :=
  match todo with
  | O => ret EmptyResult
  | S todo' =>
      emit (GetEmailResponses job) ;;
      match get_email_responses (client c) job num_attempts with
      | EmptyResult =>
          emit (Sleep 5) ;;
          poll c job (S num_attempts) todo'
      | Result ids => ret (Result ids)
      end
  end.

Definition metric_row (date metric contact_id : string) : record :=
  [ ("date", Some date); ("metric", Some metric);
    ("contact_id", Some contact_id) ].

Definition sync_metric (c : ctx) (campaign_id metric date : string)
  : M event unit :=
  job <- post_metric c metric date campaign_id ;;
  data <- poll c job 0 10 ;;
  match data with
  | EmptyResult =>
      (* data['contact_ids'] on a str *)
      raise (TypeError "string indices must be integers")
  | Result contact_ids =>
      if (List.length contact_ids =? 1)%nat && String.eqb (nth 0 contact_ids "") ""
      then ret tt
      else write_records "metrics"
             (map (metric_row date metric) contact_ids)
  end.

Definition write_metrics_state (st : state)
    (campaigns_to_resume metrics_to_resume : list string)
    (date_to_resume : Pendulum.DateTime) : M event state :=
  let st := Singer.write_campaigns_to_resume st campaigns_to_resume in
  let st := Singer.write_metrics_to_resume st metrics_to_resume in
  let st := Singer.write_date_to_resume st
              (Pendulum.to_date_string date_to_resume) in
  write_state st ;;
  ret st.

(** What the variable [start_date] holds after line 208: the bookmark's
    [last_metric_date] string as the state file has it, or else the parsed
    configured date. *)
Inductive date_value : Type :=
| DateStr (s : string)
| Date (d : Pendulum.DateTime).

(** The last day on which the guard [current_date <= end_date] of line 232
    holds as [current_date] advances a day at a time, keeping its time of
    day: the day of [end_date], or the day before when the time of day of
    [current_date] is later than that of [end_date]. *)
Definition last_day (current_date end_date : Pendulum.DateTime) : Z :=
  if (Pendulum.time current_date <=? Pendulum.time end_date)%N
  then Pendulum.day end_date
  else Pendulum.day end_date - 1.

(** The number of times the guard [current_date <= end_date] holds as
    [current_date] advances a day at a time. *)
Definition days_through (current_date end_date : Pendulum.DateTime) : nat :=
  Z.to_nat (last_day current_date end_date + 1 - Pendulum.day current_date).

Section SyncMetrics.
Variable sch : schemas.
Variable c : ctx.

(** Lines 195-203. *)
Definition metrics_selected_of : list string :=
  match metrics_metadata c with
  | [] => METRICS_AVAILABLE sch
  | _ :: _ =>
      match Singer.root_metadata (metrics_metadata c) with
      | Some e =>
          match metrics_selected_md e with
          | Some l => l
          | None => METRICS_AVAILABLE sch
          end
      | None => METRICS_AVAILABLE sch
      end
  end.

Section Loops.
Variable metrics_selected : list string.
Variable start_date : date_value.
Variable end_date : Pendulum.DateTime.

(** Lines 232-236, by recursion on [days_through current_date end_date]:
    the guard [current_date <= end_date] holds as long as a day is
    left. *)
Fixpoint while_dates (days_left : nat) (st : state)
    (campaigns_to_resume metrics_to_resume : list string)
    (campaign_id metric : string) (current_date : Pendulum.DateTime)
  : M event state :=
  match days_left with
  | O => ret st
  | S days_left' =>
      sync_metric c campaign_id metric
        (Pendulum.to_date_string current_date) ;;
      current_date <- Pendulum.add_days current_date 1 ;;
      st <- write_metrics_state st campaigns_to_resume metrics_to_resume
              current_date ;;
      while_dates days_left' st campaigns_to_resume metrics_to_resume
        campaign_id metric current_date
  end.

(** Lines 229-238. *)
Fixpoint for_metrics (campaign_metrics : list string) (st : state)
    (campaigns_to_resume metrics_to_resume : list string)
    (campaign_id : string) (last_date : option Pendulum.DateTime)
  : M event (state * option Pendulum.DateTime) :=
  match campaign_metrics with
  | [] => ret (st, last_date)
  | metric :: campaign_metrics' =>
      let current_date :=
        match last_date with
        | Some d => Date d
        | None => start_date
        end in
      match current_date with
      | DateStr _ =>
          raise (TypeError
            "'<=' not supported between instances of 'str' and 'DateTime'")
      | Date d =>
          st <- while_dates (days_through d end_date) st
                  campaigns_to_resume metrics_to_resume
                  campaign_id metric d ;;
          metrics_to_resume <- remove metric metrics_to_resume ;;
          for_metrics campaign_metrics' st campaigns_to_resume
            metrics_to_resume campaign_id None
      end
  end.

(** Lines 227-240. *)
Fixpoint for_campaigns (campaign_ids : list string) (st : state)
    (campaigns_to_resume : list string)
    (campaign_metrics : option (list string))
    (last_date : option Pendulum.DateTime) : M event state :=
  match campaign_ids with
  | [] => ret st
  | campaign_id :: campaign_ids' =>
      let metrics_to_resume := metrics_selected in
      match campaign_metrics with
      | None => raise (TypeError "'NoneType' object is not iterable")
      | Some ms =>
          r <- for_metrics ms st campaigns_to_resume metrics_to_resume
                 campaign_id last_date ;;
          campaigns_to_resume <- remove campaign_id campaigns_to_resume ;;
          for_campaigns campaign_ids' (fst r) campaigns_to_resume
            (Some metrics_selected) (snd r)
      end
  end.
End Loops.

Definition config_date (o : option string) : string :=
  match o with
  | Some s => s
  | None => "now"
  end.

Definition is_deleted (x : campaign) : bool :=
  match deleted x with
  | Some _ => true
  | None => false
  end.

(** Lines 210-224: the work list, the metrics of its first campaign and
    the date to resume at. *)
Definition starting_point (b : bookmark) (metrics_selected : list string)
    (campaigns : list campaign)
  : M event (list string * option (list string)
             * option Pendulum.DateTime) :=
  match campaigns_to_resume b with
  | Some (x :: l) =>
      last_date <-
        match date_to_resume b with
        | None => ret None
        | Some s =>
            if String.eqb s "" then ret None
            else d <- Pendulum.parse (now c) s ;; ret (Some d)
        end ;;
      ret (x :: l, metrics_to_resume b, last_date)
  | _ =>
      ret (map id (filter (fun x => negb (is_deleted x)) campaigns),
           Some metrics_selected, None)
  end.

Definition sync_metrics (st : state) (campaigns : list campaign)
  : M event state :=
  let bookmark := Singer.get_bookmark st in
  let metrics_selected := metrics_selected_of in
  start_date <- Pendulum.parse (now c) (config_date (start_date (cfg c))) ;;
  end_date <- Pendulum.parse (now c) (config_date (end_date (cfg c))) ;;
  let start_date :=
    match last_metric_date bookmark with
    | Some s => DateStr s
    | None => Date start_date
    end in
  p <- starting_point bookmark metrics_selected campaigns ;;
  let '(campaign_ids, campaign_metrics, last_date) := p in
  let campaigns_to_resume := campaign_ids in
  st <- for_campaigns metrics_selected start_date end_date
          campaign_ids st campaigns_to_resume campaign_metrics last_date ;;
  reset_stream <- global "reset_stream" Singer.reset_stream ;;
  let st := reset_stream st in
  let st := Singer.write_last_metric_date st
              (Pendulum.to_date_string end_date) in
  write_state st ;;
  ret st.

End SyncMetrics.

Section Contacts.
Variable sch : schemas.
Variable c : ctx.

Definition field_id_map_t : Type := list (string * field_info).

(** The body of the loop of [transform_contact], over the items of
    [contact] that are left. *)
Fixpoint transform_items (field_id_map : field_id_map_t)
    (items : raw_contact) (new_obj : record) : M event record :=
  match items with
  | [] => ret new_obj
  | (fid, value) :: items' =>
      if mem fid ["id"; "uid"] then
        transform_items field_id_map items'
          (dict_set fid (Some value) new_obj)
      else
        match dict_get fid field_id_map with
        | None => raise (KeyError fid)
        | Some info =>
            value <-
              (if String.eqb value "" then ret None
               else if String.eqb (field_type info) "date" then
                      d <- Pendulum.parse (now c) value ;;
                      ret (Some (Pendulum.isoformat d))
                    else ret (Some value)) ;;
            transform_items field_id_map items'
              (dict_set (field_name info) value new_obj)
        end
  end.

Definition transform_contact (field_id_map : field_id_map_t)
    (contact : raw_contact) : M event record :=
  transform_items field_id_map contact [].

(** [depth] is the number of nested calls the interpreter still allows;
    each page is one more frame. *)
Fixpoint paginate_contacts (depth : nat) (field_id_map : field_id_map_t)
    (selected_fields : list field_info) (limit offset : nat)
  : M event unit :=
  match depth with
  | O => raise (RecursionError "maximum recursion depth exceeded")
  | S depth' =>
      emit (GetContactQuery limit offset) ;;
      let contact_list_page := get_contact_query (client c) limit offset in
      if (0 <? List.length (errors contact_list_page))%nat then
        raise (Exception
                 ("contacts - " ++ join "," (errors contact_list_page)))
      else
        let key_values := result contact_list_page in
        let fields := map field_id selected_fields in
        emit (PostContactGetdata key_values fields) ;;
        let contact_page :=
          post_contact_getdata (client c) key_values fields in
        contacts <- map_m (transform_contact field_id_map) contact_page ;;
        write_records "contacts" contacts ;;
        if (List.length contact_page =? limit)%nat then
          paginate_contacts depth' field_id_map selected_fields
            limit (offset + limit)%nat
        else ret tt
  end.

(** Lines 92-103: both maps, built over the raw fields in order. *)
Definition field_maps (raw_fields : list raw_field)
  : list (string * field_info) * field_id_map_t :=
  fold_left
    (fun maps raw =>
       let fid := raw_id raw in
       let fname := normalize_fieldname sch (raw_name raw) in
       let info := mkFieldInfo (application_type raw) fname fid in
       (dict_set fname info (fst maps), dict_set fid info (snd maps)))
    raw_fields ([], []).

Definition is_selected (s : property_schema) : bool :=
  match selected s with
  | Some true => true
  | _ => false
  end.

Definition missing_field_message (prop : string) : string :=
  ("Field `" ++ prop ++ "` not currently available from Emarsys")%string.

(** Lines 106-112. *)
Fixpoint select_fields (field_name_map : list (string * field_info))
    (raw_fields_available : list string)
    (properties : list (string * property_schema))
    (selected_fields : list field_info) : M event (list field_info) :=
  match properties with
  | [] => ret selected_fields
  | (prop, schema) :: properties' =>
      if is_selected schema then
        if negb (mem prop raw_fields_available) then
          raise (Exception (missing_field_message prop))
        else
          match dict_get prop field_name_map with
          | None => raise (KeyError prop)
          | Some info =>
              select_fields field_name_map raw_fields_available
                properties' (selected_fields ++ [info])
          end
      else
        select_fields field_name_map raw_fields_available
          properties' selected_fields
  end.

Definition sync_contacts (depth : nat) : M event unit :=
  let raw_fields := get_contacts_raw_fields sch c in
  let maps := field_maps raw_fields in
  let field_name_map := fst maps in
  let field_id_map := snd maps in
  let raw_fields_available := keys field_name_map in
  selected_fields <-
    select_fields field_name_map raw_fields_available
      (contacts_properties c) [] ;;
  paginate_contacts depth field_id_map selected_fields 1000 0.

Definition membership (contact_list_id membership_id : string) : record :=
  [ ("contact_list_id", Some contact_list_id);
    ("contact_id", Some membership_id) ].

Fixpoint sync_contact_list_memberships (depth : nat)
    (contact_list_id : string) (limit offset : nat) : M event unit :=
  match depth with
  | O => raise (RecursionError "maximum recursion depth exceeded")
  | S depth' =>
      emit (GetContactlist contact_list_id limit offset) ;;
      let membership_ids :=
        get_contactlist (client c) contact_list_id limit offset in
      let memberships := map (membership contact_list_id) membership_ids in
      write_records "contact_list_memberships" memberships ;;
      if (List.length membership_ids =? limit)%nat then
        sync_contact_list_memberships depth' contact_list_id
          limit (offset + limit)%nat
      else ret tt
  end.

End Contacts.

(** ** Vocabulary of the properties *)

(** [k] unanswered polls of a job: the request, then the 5 second sleep. *)
Definition polls (job : string) (k : nat) : list event :=
  List.concat (repeat [GetEmailResponses job; Sleep 5] k).

Definition is_poll (ev : event) : bool :=
  match ev with
  | GetEmailResponses _ => true
  | _ => false
  end.

(** The number of polls in a trace. *)
Definition attempts (t : list event) : nat := List.length (filter is_poll t).

(** What [sync_metric] hands to the sink for a ready result. *)
Definition flush (date metric : string) (contact_ids : list string)
  : list event :=
  if list_eq_dec string_dec contact_ids [""] then []
  else [ SingerWriteRecords "metrics"
           (map (metric_row date metric) contact_ids);
         CounterIncrement "metrics" (List.length contact_ids) ].

(** A sync cell, as [sync_metric] receives it: campaign id, metric, date. *)
Definition cell : Type := (string * string * string)%type.

(** The cells a trace starts work on, one per job created. *)
Fixpoint cells_of (t : list event) : list cell :=
  match t with
  | [] => []
  | PostEmailResponses metric date campaign_id :: t' =>
      (campaign_id, metric, date) :: cells_of t'
  | _ :: t' => cells_of t'
  end.

(** The records a trace hands to the sink, over all its batches. *)
Fixpoint records_of (t : list event) : list record :=
  match t with
  | [] => []
  | SingerWriteRecords _ records :: t' => records ++ records_of t'
  | _ :: t' => records_of t'
  end.

(** The batches written to one stream, in order. *)
Fixpoint batches_of (tap_stream_id : string) (t : list event)
  : list (list record) :=
  match t with
  | [] => []
  | SingerWriteRecords s records :: t' =>
      if String.eqb s tap_stream_id
      then records :: batches_of tap_stream_id t'
      else batches_of tap_stream_id t'
  | _ :: t' => batches_of tap_stream_id t'
  end.

Definition is_checkpoint (ev : event) : bool :=
  match ev with
  | WriteState _ => true
  | _ => false
  end.

(** The state [write_metrics_state] leaves and persists: the three resume
    fields set, the rest of [st] as it was. *)
Definition checkpoint (st : state) (campaigns metrics : list string)
    (date : Z) : state :=
  mkState
    (Some (mkBookmark (Some campaigns) (Some metrics)
             (Some (Pendulum.date_string date))
             (last_metric_date (Singer.get_bookmark st))))
    (last_synced_stream st).

(** Two states that differ at most in the three resume fields. *)
Definition same_rest (st st' : state) : Prop :=
  last_metric_date (Singer.get_bookmark st)
  = last_metric_date (Singer.get_bookmark st')
  /\ last_synced_stream st = last_synced_stream st'.

(** One iteration of the date loop: the cell it syncs, by campaign, metric
    and day number, and the two lists it then persists. *)
Record step : Type := mkStep {
  step_campaign : string;
  step_metric : string;
  step_date : Z;
  step_campaigns : list string;
  step_metrics : list string
}.

Definition step_cell (s : step) : cell :=
  (step_campaign s, step_metric s, Pendulum.date_string (step_date s)).

Definition step_sync (c : ctx) (s : step) : M event unit :=
  sync_metric c (step_campaign s) (step_metric s)
    (Pendulum.date_string (step_date s)).

Definition step_checkpoint (st : state) (s : step) : state :=
  checkpoint st (step_campaigns s) (step_metrics s) (step_date s + 1).

(** The events of an iteration that goes through: the cell, then the
    checkpoint. *)
Definition step_events (c : ctx) (st : state) (s : step) : list event :=
  trace (step_sync c s) ++ [WriteState (step_checkpoint st s)].

(** An iteration goes through when its cell is synced without error and the
    next day is still a date. *)
Definition step_ok (c : ctx) (s : step) : Prop :=
  outcome (step_sync c s) = inr tt
  /\ Pendulum.in_range (step_date s + 1) = true.

(** [n] consecutive days from [d]. *)
Definition days_from (d : Z) (n : nat) : list Z :=
  map (fun i => d + Z.of_nat i) (seq 0 n).

(** The days the loop of line 232 goes through from [from]: the day of
    [from], the next, ..., up to [last_day from to]. *)
Definition date_range (from to : Pendulum.DateTime) : list Z :=
  days_from (Pendulum.day from) (days_through from to).

(** [l] once [x] was removed from it, where [remove] succeeds. *)
Definition removed (x : string) (l : list string) : list string :=
  match list_remove x l with
  | Some r => r
  | None => l
  end.

Section Plan.
Variable metrics_selected : list string.
Variable start_date end_date : Pendulum.DateTime.

Definition first_date (last_date : option Pendulum.DateTime)
  : Pendulum.DateTime :=
  match last_date with
  | Some d => d
  | None => start_date
  end.

Definition plan_dates (campaign_id metric : string)
    (campaigns_to_resume metrics_to_resume : list string)
    (from : Pendulum.DateTime) : list step :=
  map (fun d => mkStep campaign_id metric d
                  campaigns_to_resume metrics_to_resume)
      (date_range from end_date).

(** The iterations of lines 229-238 when nothing fails. *)
Fixpoint plan_metrics (campaign_id : string)
    (campaigns_to_resume : list string)
    (campaign_metrics metrics_to_resume : list string)
    (last_date : option Pendulum.DateTime) : list step :=
  match campaign_metrics with
  | [] => []
  | metric :: campaign_metrics' =>
      plan_dates campaign_id metric campaigns_to_resume metrics_to_resume
        (first_date last_date)
      ++ plan_metrics campaign_id campaigns_to_resume campaign_metrics'
           (removed metric metrics_to_resume) None
  end.

Definition last_date_after (campaign_metrics : list string)
    (last_date : option Pendulum.DateTime) : option Pendulum.DateTime :=
  match campaign_metrics with
  | [] => last_date
  | _ :: _ => None
  end.

(** The iterations of lines 227-240 when nothing fails. *)
Fixpoint plan_campaigns (campaign_ids campaigns_to_resume : list string)
    (campaign_metrics : list string)
    (last_date : option Pendulum.DateTime) : list step :=
  match campaign_ids with
  | [] => []
  | campaign_id :: campaign_ids' =>
      plan_metrics campaign_id campaigns_to_resume campaign_metrics
        metrics_selected last_date
      ++ plan_campaigns campaign_ids'
           (removed campaign_id campaigns_to_resume)
           metrics_selected
           (last_date_after campaign_metrics last_date)
  end.
End Plan.

(** A date to resume at, if there is one, lies in the run from
    [start_date] to [end_date]: the date the loop starts from is not
    before the day of [start_date], and the loop from it runs at least as
    far as the loop from [start_date] does. *)
Definition in_run (start_date end_date : Pendulum.DateTime)
    (last_date : option Pendulum.DateTime) : Prop :=
  Pendulum.day start_date <= Pendulum.day (first_date start_date last_date)
  /\ last_day start_date end_date
     <= last_day (first_date start_date last_date) end_date.

(** A computation follows a plan: it goes through all its steps and
    returns a value satisfying [Q], or it goes through some first steps and
    then raises, at most inside the cell of the next step. *)
Definition executes {A} (c : ctx) (st : state) (Q : A -> Prop)
    (r : M event A) (plan : list step) : Prop :=
  (exists a, r = (flat_map (step_events c st) plan, inr a)
             /\ Q a /\ Forall (step_ok c) plan)
  \/ (exists done rest tail e,
        r = (flat_map (step_events c st) done ++ tail, inl e)
        /\ plan = done ++ rest
        /\ Forall (step_ok c) done
        /\ (tail = []
            \/ exists s rest', rest = s :: rest'
                               /\ tail = trace (step_sync c s))).

(** The value of [start_date] once line 208 has run. *)
Definition start_value (st : state) (configured : Pendulum.DateTime)
  : date_value :=
  match last_metric_date (Singer.get_bookmark st) with
  | Some s => DateStr s
  | None => Date configured
  end.

(** The campaigns a fresh run works through. *)
Definition live_campaigns (campaigns : list campaign) : list string :=
  map id (filter (fun x => negb (is_deleted x)) campaigns).

(** A state holds a checkpoint to resume from. *)
Definition resumes (st : state) : bool :=
  match campaigns_to_resume (Singer.get_bookmark st) with
  | Some (_ :: _) => true
  | _ => false
  end.

Definition str_vs_datetime : exn :=
  TypeError "'<=' not supported between instances of 'str' and 'DateTime'".

(** [l] once the metrics [done] were removed from it, one after the
    other. *)
Definition removed_all (done l : list string) : list string :=
  fold_left (fun r m => removed m r) done l.

(** [l1] is [l2] with some elements left out, order kept. *)
Inductive subseq : list string -> list string -> Prop :=
| subseq_nil : subseq [] []
| subseq_cons x l1 l2 : subseq l1 l2 -> subseq (x :: l1) (x :: l2)
| subseq_skip x l1 l2 : subseq l1 l2 -> subseq l1 (x :: l2).

(** The API answers the job of a cell within the ten polls. *)
Definition answered (c : ctx) (campaign_id metric date : string) : Prop :=
  let job := post_email_responses (client c) metric date campaign_id in
  exists k ids,
    (k < 10)%nat
    /\ (forall i, (i < k)%nat ->
                  get_email_responses (client c) job i = EmptyResult)
    /\ get_email_responses (client c) job k = Result ids.

(** The first answer of the API to the polls [n], [n + 1], ... of a job
    that is not empty, within [todo] polls, with the number of its
    poll. *)
Fixpoint first_answer (c : ctx) (job : string) (n todo : nat)
  : option (nat * list string) :=
  match todo with
  | O => None
  | S todo' =>
      match get_email_responses (client c) job n with
      | EmptyResult => first_answer c job (S n) todo'
      | Result ids => Some (n, ids)
      end
  end.

(** The records of a cell, as the API reports them within ten polls: one
    per contact id of the result, with the date and the metric of the
    cell; none for the result [[""]]. *)
Definition expected_records (c : ctx) (x : cell) : list record :=
  let '(campaign_id, metric, date) := x in
  let job := post_email_responses (client c) metric date campaign_id in
  match first_answer c job 0 10 with
  | Some (_, ids) =>
      if list_eq_dec string_dec ids [""] then []
      else map (fun contact_id =>
                  [ ("date", Some date); ("metric", Some metric);
                    ("contact_id", Some contact_id) ]) ids
  | None => []
  end.

(** The events of a cell that the API answers within ten polls: the job,
    the polls that found it running, the poll that found the result, then
    the sink write of the cell's records with its counter. *)
Definition expected_events (c : ctx) (x : cell) : list event :=
  let '(campaign_id, metric, date) := x in
  let job := post_email_responses (client c) metric date campaign_id in
  match first_answer c job 0 10 with
  | Some (k, ids) =>
      PostEmailResponses metric date campaign_id
        :: polls job k ++ GetEmailResponses job
        :: (if list_eq_dec string_dec ids [""] then []
            else [ SingerWriteRecords "metrics" (expected_records c x);
                   CounterIncrement "metrics" (List.length ids) ])
  | None => []
  end.

(** A plan has a step for the cell [(campaign_id, metric, d)]. *)
Definition covers (plan : list step) (campaign_id metric : string)
    (d : Z) : Prop :=
  exists s, In s plan /\ step_campaign s = campaign_id
            /\ step_metric s = metric /\ step_date s = d.

(** The checkpoints a crash can leave behind.  A first run starts without
    a checkpoint and is interrupted right after it persisted [ck]; each
    further run restarts from the checkpoint of the one before (whatever
    campaigns it is handed) and is interrupted the same way.  [emitted]
    collects the events of all these runs up to the last checkpoint. *)
Inductive interrupted (sch : schemas) (c : ctx) (st0 : state)
    (campaigns : list campaign) : list event -> state -> Prop :=
| interrupted_first pre ck post :
    resumes st0 = false ->
    trace (sync_metrics sch c st0 campaigns) = pre ++ WriteState ck :: post ->
    interrupted sch c st0 campaigns pre ck
| interrupted_again emitted st campaigns' pre ck post :
    interrupted sch c st0 campaigns emitted st ->
    trace (sync_metrics sch c st campaigns') = pre ++ WriteState ck :: post ->
    interrupted sch c st0 campaigns (emitted ++ pre) ck.

(** The provider's raw fields hold a field descriptor named [prop]. *)
Definition has_descriptor (sch : schemas) (c : ctx) (prop : string) : Prop :=
  exists raw, In raw (get_contacts_raw_fields sch c)
              /\ normalize_fieldname sch (raw_name raw) = prop.

(** The exception is the one line 110 raises for some property. *)
Definition names_missing_field (e : exn) : Prop :=
  exists prop, e = Exception (missing_field_message prop).

(** The contact list endpoint serves the members [members] of a list. *)
Definition serves_memberships (c : ctx) (contact_list_id : string)
    (members : list string) : Prop :=
  forall limit offset,
    get_contactlist (client c) contact_list_id limit offset
    = firstn limit (skipn offset members).

(** The contact endpoints serve the contacts with ids [ids]: the query
    pages through the ids without errors and [getdata] returns one contact
    per key, each of which [transform_contact] accepts. *)
Definition serves_contacts (c : ctx) (field_id_map : field_id_map_t)
    (ids : list string) : Prop :=
  (forall limit offset,
      get_contact_query (client c) limit offset
      = mkQueryPage [] (firstn limit (skipn offset ids)))
  /\ (forall keys fields,
        List.length (post_contact_getdata (client c) keys fields)
        = List.length keys)
  /\ (forall keys fields contact,
        In contact (post_contact_getdata (client c) keys fields) ->
        exists r, transform_contact c field_id_map contact = ret r).

(** Batches of a collection of [n] records fetched [limit] at a time:
    full pages, then one short page that ends the walk. *)
Definition paged (limit n : nat) (batches : list (list record)) : Prop :=
  List.length batches = (n / limit + 1)%nat
  /\ List.length (List.concat batches) = n
  /\ exists full last,
       batches = full ++ [last]
       /\ Forall (fun b => List.length b = limit) full
       /\ (List.length last < limit)%nat.

(** What a restart from the checkpoint [ck] has ahead of it, with the
    dates [sd] and [ed]: the plan over the campaigns, the metrics and the
    date the checkpoint records, the date read as a restart reads it, at
    midnight. *)
Definition plan_ahead (sch : schemas) (c : ctx) (sd ed : Pendulum.DateTime)
    (ck : state) : list step :=
  let b := Singer.get_bookmark ck in
  match campaigns_to_resume b, metrics_to_resume b, date_to_resume b with
  | Some cs, Some ms, Some ds =>
      match Pendulum.parse_iso ds with
      | Some D =>
          plan_campaigns (metrics_selected_of sch c) sd ed cs cs ms (Some D)
      | None => []
      end
  | _, _, _ => []
  end.

(** The invariant of the checkpoints of a run from [sd] to [ed] over the
    live campaigns and the selected metrics: the checkpoint names
    campaigns, metrics and a day of that run; every cell of the run is
    either emitted already or ahead of the checkpoint; and the sink holds
    the records of the cells emitted, as the API reported them. *)
Definition covered (sch : schemas) (c : ctx) (campaigns : list campaign)
    (sd ed : Pendulum.DateTime) (emitted : list event) (ck : state) : Prop :=
  let selected := metrics_selected_of sch c in
  let live := live_campaigns campaigns in
  (exists cs ms D,
      Singer.get_bookmark ck
      = mkBookmark (Some cs) (Some ms) (Some (Pendulum.date_string D)) None
      /\ cs <> [] /\ incl cs live
      /\ ms <> [] /\ subseq ms selected
      /\ Pendulum.day sd <= D <= Pendulum.day ed + 1
      /\ Pendulum.in_range D = true)
  /\ (forall x m d,
        In x live -> In m selected ->
        Pendulum.day sd <= d <= last_day sd ed ->
        In (x, m, Pendulum.date_string d) (cells_of emitted)
        \/ covers (plan_ahead sch c sd ed ck) x m d)
  /\ (forall x, In x (cells_of emitted) ->
                exists s, x = step_cell s /\ In (step_campaign s) live
                          /\ In (step_metric s) selected
                          /\ Pendulum.day sd <= step_date s
                             <= Pendulum.day ed)
  /\ records_of emitted = flat_map (expected_records c) (cells_of emitted).

(** ** A small account, for concrete runs *)

Module Scenario.

(** Each job is empty at the first poll and ready at the second, with two
    contacts; list "L1" has two members; three contacts exist, each with
    one plain field. *)
Definition the_api : api :=
  mkApi
    (fun metric date campaign_id =>
       (campaign_id ++ "/" ++ metric ++ "/" ++ date)%string)
    (fun job n => match n with
                  | O => EmptyResult
                  | S _ => Result ["c1"; "c2"]
                  end)
    (fun limit offset =>
       mkQueryPage [] (firstn limit (skipn offset ["1"; "2"; "3"])))
    (fun keys fields => map (fun k => [("id", k); ("7", "x")]) keys)
    (fun contact_list_id limit offset =>
       firstn limit (skipn offset ["a"; "b"])).

(** Both dates are configured; the clock reads 2021-03-14 14:00. *)
Definition the_ctx : ctx :=
  mkCtx the_api
    (mkConfig (Some "2021-03-01") (Some "2021-03-02"))
    []
    [("email", mkSchema (Some true)); ("age", mkSchema None)]
    (Pendulum.mkDateTime 18700 50400000000).

Definition the_schemas : schemas :=
  mkSchemas ["open"; "click"; "bounce"]
    (fun name => name)
    (fun _ => [mkRawField "7" "email" "plain"]).

Definition campaigns : list campaign :=
  [mkCampaign "5" None; mkCampaign "6" (Some "2020-01-01T00:00:00+00:00")].

Definition empty_state : state := mkState None None.

(** A state file that carries a [last_metric_date] and no checkpoint. *)
Definition recorded_state : state :=
  mkState (Some (mkBookmark None None None (Some "2021-03-01"))) None.

(** The checkpoint of the restart scenario. *)
Definition checkpoint_state : state :=
  mkState (Some (mkBookmark (Some ["5"]) (Some ["click"])
                   (Some "2021-03-02") None)) None.

(** A checkpoint taken while the second of the three metrics was being
    synced. *)
Definition midway_state : state :=
  mkState (Some (mkBookmark (Some ["5"]) (Some ["click"; "bounce"])
                   (Some "2021-03-02") None)) None.

Definition field_map : field_id_map_t :=
  [("7", mkFieldInfo "plain" "email" "7")].

(** An uninterrupted run, and the same run cut right after its second
    checkpoint was persisted. *)
Definition first_run : M event state :=
  sync_metrics the_schemas the_ctx empty_state campaigns.

Definition emitted_before_crash : list event := firstn 13 (trace first_run).

Definition crash_checkpoint : state :=
  mkState (Some (mkBookmark (Some ["5"]) (Some ["open"; "click"; "bounce"])
                   (Some "2021-03-03") None)) None.

Definition lost_in_crash : list event := skipn 14 (trace first_run).

(** The same account with no start date configured: the run starts at
    the clock's reading, 2021-03-14 14:00, and ends at 2021-03-16. *)
Definition clock_ctx : ctx :=
  mkCtx the_api
    (mkConfig None (Some "2021-03-16"))
    []
    [("email", mkSchema (Some true)); ("age", mkSchema None)]
    (Pendulum.mkDateTime 18700 50400000000).

Definition clock_run : M event state :=
  sync_metrics the_schemas clock_ctx empty_state campaigns.


(** The run restarted from [midway_state]. *)
Definition second_run : M event state :=
  sync_metrics the_schemas the_ctx midway_state [].

End Scenario.

(** ** streams.py, the list streams and the orchestrator *)

(** The events of a whole run: those of the streams above, and the
    requests of the two list endpoints. *)
Inductive run_event : Type :=
| Stream (ev : event)
| GetEmail
| GetContactlists.

Definition lift {A} (r : M event A) : M run_event A :=
  (map Stream (fst r), snd r).

(** What [GET /email/] (with deleted campaigns) and [GET /contactlist]
    return: JSON objects whose values are strings or null. *)
Record lists_api : Type := mkListsApi {
  get_email : list record;
  get_contactlist_all : list record
}.

Section ListStreams.
(** [pendulum.parse(value).isoformat()], for any reading of dates. *)
Variable iso : string -> exn + string.
Variable api' : lists_api.

(** The loop of [base_transform] over the items of [obj] that are
    left. *)
Fixpoint base_transform_items {E} (date_fields : list string)
    (items : record) (new_obj : record) : M E record :=
  match items with
  | [] => ret new_obj
  | (field, value) :: items' =>
      value <-
        match value with
        | None => ret None
        | Some v =>
            if String.eqb v "" then ret None
            else if mem field date_fields then
                   match iso v with
                   | inl e => raise e
                   | inr s => ret (Some s)
                   end
                 else ret (Some v)
        end ;;
      base_transform_items date_fields items'
        (dict_set field value new_obj)
  end.

Definition base_transform {E} (obj : record) (date_fields : list string)
  : M E record :=
  base_transform_items date_fields obj [].

Definition sync_campaigns (sync : bool) : M run_event (list record) :=
  emit GetEmail ;;
  let data := get_email api' in
  data_transformed <-
    map_m (fun campaign => base_transform campaign ["created"; "deleted"])
          data ;;
  (if sync then lift (write_records "campaigns" data_transformed)
   else ret tt) ;;
  ret data_transformed.

Definition sync_contact_lists (sync : bool) : M run_event (list record) :=
  emit GetContactlists ;;
  let data := get_contactlist_all api' in
  data_transformed <-
    map_m (fun contact_list => base_transform contact_list ["created"])
          data ;;
  (if sync then lift (write_records "contact_lists" data_transformed)
   else ret tt) ;;
  ret data_transformed.
End ListStreams.

(** Modelled from the spec: the stream ids [IDS] come from
    [tap_emarsys/schemas.py], which is not among the sources; the
    completion marker is one of these five names or none. *)
Module IDS.
Definition CONTACTS : string := "contacts".
Definition CONTACT_LISTS : string := "contact_lists".
Definition CONTACT_LIST_MEMBERSHIPS : string := "contact_list_memberships".
Definition CAMPAIGNS : string := "campaigns".
Definition METRICS : string := "metrics".
End IDS.

Section Orchestrator.
(** The events and the data of the streams are left open, and the five
    stream functions are taken as they are called: [sync_contacts(ctx)],
    [sync_contact_lists(ctx, sync)],
    [sync_contact_lists_memberships(ctx, contact_lists)],
    [sync_campaigns(ctx, sync)] and [sync_metrics(ctx, campaigns)], the
    last one working on [ctx.state]. *)
Context {E Lists Campaigns : Type}.
Variable inj : event -> E.
Variable selected_stream_ids : list string.
Variable do_sync_contacts : M E unit.
Variable do_sync_contact_lists : bool -> M E Lists.
Variable do_sync_contact_lists_memberships : Lists -> M E unit.
Variable do_sync_campaigns : bool -> M E Campaigns.
Variable do_sync_metrics : state -> Campaigns -> M E state.

(** [ctx.state['last_synced_stream'] = v; ctx.write_state()]. *)
Definition mark (st : state) (v : option string) : M E state :=
  let st := mkState (metrics_bookmark st) v in
  emit (inj (WriteState st)) ;;
  ret st.

(** [last_synced_stream != stream_id]. *)
Definition differs (last : option string) (stream_id : string) : bool :=
  match last with
  | Some s => negb (String.eqb s stream_id)
  | None => true
  end.

(** A local variable that is bound only in a branch; reading it unbound
    raises [UnboundLocalError], a [NameError]. *)
Definition local {A} (name : string) (v : option A) : M E A :=
  match v with
  | Some a => ret a
  | None => raise (NameError name)
  end.

Definition sync_selected_streams (st : state) : M E state :=
  let selected_streams := selected_stream_ids in
  let last := last_synced_stream st in
  st <- (if mem IDS.CONTACTS selected_streams
            && differs last IDS.CONTACTS
         then do_sync_contacts ;; mark st (Some IDS.CONTACTS)
         else ret st) ;;
  r <- (if (mem IDS.CONTACT_LISTS selected_streams
            && differs last IDS.CONTACT_LISTS)
           || (mem IDS.CONTACT_LIST_MEMBERSHIPS selected_streams
               && differs last IDS.CONTACT_LIST_MEMBERSHIPS)
        then
          contact_lists <-
            do_sync_contact_lists (mem IDS.CONTACT_LISTS selected_streams) ;;
          st <- mark st (Some IDS.CONTACT_LISTS) ;;
          ret (st, Some contact_lists)
        else ret (st, None)) ;;
  let contact_lists := snd r in
  st <- (if mem IDS.CONTACT_LIST_MEMBERSHIPS selected_streams
            && differs last IDS.CONTACT_LIST_MEMBERSHIPS
         then
           contact_lists <- local "contact_lists" contact_lists ;;
           do_sync_contact_lists_memberships contact_lists ;;
           mark (fst r) (Some IDS.CONTACT_LIST_MEMBERSHIPS)
         else ret (fst r)) ;;
  r <- (if (mem IDS.CAMPAIGNS selected_streams
            && differs last IDS.CAMPAIGNS)
           || (mem IDS.METRICS selected_streams
               && differs last IDS.METRICS)
        then
          campaigns <-
            do_sync_campaigns (mem IDS.CAMPAIGNS selected_streams) ;;
          st <- mark st (Some IDS.CAMPAIGNS) ;;
          ret (st, Some campaigns)
        else ret (st, None)) ;;
  let campaigns := snd r in
  st <- (if mem IDS.METRICS selected_streams
            && differs last IDS.METRICS
         then
           campaigns <- local "campaigns" campaigns ;;
           st <- do_sync_metrics (fst r) campaigns ;;
           mark st (Some IDS.METRICS)
         else ret (fst r)) ;;
  mark st None.
End Orchestrator.

(** ** Further vocabulary *)

(** The cells of campaigns, metrics and dates, campaigns outermost and
    dates innermost. *)
Definition cross_product (campaign_ids metrics : list string)
    (from to : Pendulum.DateTime) : list cell :=
  flat_map
    (fun campaign_id =>
       flat_map
         (fun metric =>
            map (fun d => (campaign_id, metric, Pendulum.date_string d))
                (date_range from to))
         metrics)
    campaign_ids.

(** The number of states a trace persists. *)
Definition checkpoints_written (t : list event) : nat :=
  List.length (filter is_checkpoint t).

(** The field descriptor lines 97-101 build for a raw field. *)
Definition info_of (sch : schemas) (raw : raw_field) : field_info :=
  mkFieldInfo (application_type raw)
    (normalize_fieldname sch (raw_name raw)) (raw_id raw).

(** The raw field that ends up under the name [prop] in [field_name_map]:
    the last one of that normalized name. *)
Definition last_descriptor (sch : schemas) (raw_fields : list raw_field)
    (prop : string) : option raw_field :=
  find (fun raw => String.eqb (normalize_fieldname sch (raw_name raw)) prop)
       (rev raw_fields).

(** The field ids of the selected properties, in schema order. *)
Definition requested_fields (sch : schemas) (c : ctx) : list string :=
  flat_map
    (fun p : string * property_schema =>
       if is_selected (snd p) then
         match last_descriptor sch (get_contacts_raw_fields sch c) (fst p) with
         | Some raw => [raw_id raw]
         | None => []
         end
       else [])
    (contacts_properties c).

(** The exceptions of an unbound [contact_lists] or [campaigns]. *)
Definition unbound_local (e : exn) : Prop :=
  e = NameError "contact_lists" \/ e = NameError "campaigns".

(** A computation that does not read an unbound local, and whose value
    satisfies [Q]. *)
Definition bound_and {E A} (Q : A -> Prop) (r : M E A) : Prop :=
  (forall e, outcome r = inl e -> ~ unbound_local e)
  /\ (forall a, outcome r = inr a -> Q a).

(** A computation that, when it returns, returns a state whose marker is
    cleared, right after persisting that state. *)
Definition ends_cleared {E} (inj : event -> E) (r : M E state) : Prop :=
  forall t st, r = (t, inr st) ->
    last_synced_stream st = None
    /\ exists t0, t = t0 ++ [inj (WriteState st)].

Definition fails {E A} (r : M E A) : Prop := exists e, outcome r = inl e.

(** ** The same account, for whole runs *)

Module MoreScenario.
Import Scenario.

(** [pendulum.parse(v).isoformat()] with the reading of [Pendulum]. *)
Definition the_iso (v : string) : exn + string :=
  match Pendulum.parse_iso v with
  | Some d => inr (Pendulum.isoformat d)
  | None => inl (ParserError v)
  end.

(** One live and one deleted campaign, and one contact list. *)
Definition the_lists : lists_api :=
  mkListsApi
    [ [ ("id", Some "5"); ("name", Some "spring"); ("created", Some "2021-02-01");
        ("deleted", Some "") ];
      [ ("id", Some "6"); ("name", Some ""); ("created", Some "2019-12-01");
        ("deleted", Some "2020-01-01") ] ]
    [ [ ("id", Some "L1"); ("name", Some "all"); ("created", Some "2021-01-15") ] ].

(** The same, with a second list whose [created] does not parse. *)
Definition bad_lists : lists_api :=
  mkListsApi (get_email the_lists)
    (get_contactlist_all the_lists
       ++ [ [ ("id", Some "L2"); ("created", Some "yesterday") ] ]).

(** An account whose end date lies before its start date. *)
Definition reversed_ctx : ctx :=
  mkCtx the_api
    (mkConfig (Some "2021-03-02") (Some "2021-03-01"))
    []
    [("email", mkSchema (Some true)); ("age", mkSchema None)]
    (Pendulum.mkDateTime 18700 50400000000).

(** The same account while the contact query is refused. *)
Definition refused_ctx : ctx :=
  mkCtx
    (mkApi (post_email_responses the_api) (get_email_responses the_api)
       (fun limit offset => mkQueryPage ["quota"; "retry later"] [])
       (post_contact_getdata the_api) (get_contactlist the_api))
    (mkConfig (Some "2021-03-01") (Some "2021-03-02"))
    []
    [("email", mkSchema (Some true)); ("age", mkSchema None)]
    (Pendulum.mkDateTime 18700 50400000000).

(** A checkpoint that names a metric the catalog no longer selects. *)
Definition stale_state : state :=
  mkState (Some (mkBookmark (Some ["5"]) (Some ["unsub"; "click"])
                   (Some "2021-03-02") None)) None.

(** A state whose marker says the contact lists were completed. *)
Definition after_contact_lists : state :=
  mkState None (Some IDS.CONTACT_LISTS).

(** The two fields [sync_metrics] reads of a transformed campaign. *)
Definition as_campaign (r : record) : campaign :=
  mkCampaign
    (match dict_get "id" r with Some (Some s) => s | _ => "" end)
    (match dict_get "deleted" r with Some v => v | None => None end).

(** The memberships of the one list of the account. *)
Definition memberships_of_L1 (contact_lists : list record)
  : M run_event unit :=
  lift (sync_contact_list_memberships the_ctx 5 "L1" (1000 * 1000) 0).

(** A run over the contact streams and the campaigns. *)
Definition run_without_metrics (selected : list string) (st : state)
  : M run_event state :=
  sync_selected_streams Stream selected
    (lift (sync_contacts the_schemas the_ctx 5))
    (sync_contact_lists the_iso the_lists)
    memberships_of_L1
    (sync_campaigns the_iso the_lists)
    (fun st (_ : list record) => ret st)
    st.

End MoreScenario.

(** * Properties *)

(** ** The effect monad *)

Section MonadFacts.
Context {E A B : Type}.

Lemma bind_ok (c : M E A) (k : A -> M E B) t a :
  c = (t, inr a) -> bind c k = (t ++ fst (k a), snd (k a)).
Proof. intros ->. reflexivity. Qed.

Lemma bind_raise (c : M E A) (k : A -> M E B) t e :
  c = (t, inl e) -> bind c k = (t, inl e).
Proof. intros ->. reflexivity. Qed.

Lemma bind_ret (a : A) (k : A -> M E B) : bind (ret a) k = k a.
Proof. unfold bind, ret. simpl. destruct (k a); reflexivity. Qed.

Lemma trace_bind (c : M E A) (k : A -> M E B) :
  exists t, trace (bind c k) = trace c ++ t.
Proof.
  unfold trace, bind. destruct c as [t [e|a]]; simpl.
  - exists []. now rewrite app_nil_r.
  - now exists (fst (k a)).
Qed.
End MonadFacts.

Lemma bind_assoc {E A B C} (r : M E A) (f : A -> M E B) (g : B -> M E C) :
  bind (bind r f) g = bind r (fun a => bind (f a) g).
Proof.
  destruct r as [t [e|a]]; unfold bind; cbn [fst snd]; [reflexivity|].
  destruct (f a) as [t' [e|b]]; cbn [fst snd]; [reflexivity|].
  now rewrite app_assoc.
Qed.

Lemma bind_emit {E B} (ev : E) (k : unit -> M E B) :
  bind (emit ev) k = (ev :: fst (k tt), snd (k tt)).
Proof. reflexivity. Qed.

(** ** The calendar *)

Module PendulumFacts.
Import Pendulum.

Lemma yoe_bounds doe :
0 <= doe < 146097 -> 0 <= yoe_of doe <= 399 /\ 0 <= doy_of doe <= 365.
Proof.
intros H. unfold doy_of, yoe_of.
assert (Hq : doe / 36524 = 0 \/ doe / 36524 = 1 \/ doe / 36524 = 2 \/
             doe / 36524 = 3 \/ doe / 36524 = 4)
  by (Z.div_mod_to_equations; lia).
assert (Hr : doe / 146096 = 0 \/ doe / 146096 = 1)
  by (Z.div_mod_to_equations; lia).
destruct Hr as [Hr|Hr]; rewrite Hr;
  destruct Hq as [Hq|[Hq|[Hq|[Hq|Hq]]]]; rewrite Hq;
  Z.div_mod_to_equations; lia.
Qed.

(** The shape of [civil_from_days], with the facts the conversions need. *)
Lemma civil_from_days_inv z :
exists era yoe doy mp,
  0 <= yoe <= 399 /\ 0 <= doy <= 365 /\ 0 <= mp <= 11 /\
  153 * mp <= 5 * doy + 2 < 153 * mp + 153 /\
  0 <= yoe * 365 + yoe / 4 - yoe / 100 + doy < 146097 /\
  z = era * 146097 + (yoe * 365 + yoe / 4 - yoe / 100 + doy) - 719468 /\
  civil_from_days z =
    (if (if mp <? 10 then mp + 3 else mp - 9) <=? 2
     then yoe + era * 400 + 1 else yoe + era * 400,
     if mp <? 10 then mp + 3 else mp - 9,
     doy - (153 * mp + 2) / 5 + 1).
Proof.
unfold civil_from_days.
set (z' := z + 719468). set (era := z' / 146097).
set (doe := z' - era * 146097).
assert (Hdoe : 0 <= doe < 146097)
  by (subst doe era; Z.div_mod_to_equations; lia).
destruct (yoe_bounds doe Hdoe) as [Hy Hd].
exists era, (yoe_of doe), (doy_of doe), ((5 * doy_of doe + 2) / 153).
set (yoe := yoe_of doe) in *.
assert (Hdoy : doy_of doe = doe - (365 * yoe + yoe / 4 - yoe / 100))
  by reflexivity.
set (doy := doy_of doe) in *. clearbody yoe doy.
repeat split; try lia; try (Z.div_mod_to_equations; lia).
Qed.

Lemma civil_from_days_spec z :
let '(y, m, d) := civil_from_days z in
days_from_civil y m d = z /\ 1 <= m <= 12 /\ 1 <= d <= 31 /\
(in_range z = true -> 1 <= y <= 9999).
Proof.
destruct (civil_from_days_inv z)
  as (era & yoe & doy & mp & Hy & Hd & Hmp & Hmp' & Hdoe & Hz & ->).
unfold days_from_civil, in_range, MINORD, MAXORD.
destruct (Z.ltb_spec0 mp 10).
- replace (mp + 3 <=? 2) with false by (symmetry; apply Z.leb_gt; lia).
  replace (2 <? mp + 3) with true by (symmetry; apply Z.ltb_lt; lia).
  replace (mp + 3 - 3) with mp by lia.
  replace ((yoe + era * 400) / 400) with era
    by (Z.div_mod_to_equations; lia).
  replace (yoe + era * 400 - era * 400) with yoe by lia.
  repeat split; try lia; try (Z.div_mod_to_equations; lia);
    rewrite andb_true_iff, !Z.leb_le in *;
    Z.div_mod_to_equations; lia.
- replace (mp - 9 <=? 2) with true by (symmetry; apply Z.leb_le; lia).
  replace (2 <? mp - 9) with false by (symmetry; apply Z.ltb_ge; lia).
  replace (mp - 9 + 9) with mp by lia.
  replace (yoe + era * 400 + 1 - 1) with (yoe + era * 400) by lia.
  replace ((yoe + era * 400) / 400) with era
    by (Z.div_mod_to_equations; lia).
  replace (yoe + era * 400 - era * 400) with yoe by lia.
  repeat split; try lia; try (Z.div_mod_to_equations; lia);
    rewrite andb_true_iff, !Z.leb_le in *;
    Z.div_mod_to_equations; lia.
Qed.

Lemma char_digit_digit_char n :
0 <= n <= 9 -> char_digit (digit_char n) = Some n.
Proof.
intros H.
assert (Hall : forallb
          (fun k => match char_digit (digit_char (Z.of_nat k)) with
                    | Some m => m =? Z.of_nat k
                    | None => false
                    end) (seq 0 10) = true) by reflexivity.
rewrite forallb_forall in Hall.
specialize (Hall (Z.to_nat n)). rewrite in_seq, Z2Nat.id in Hall by lia.
specialize (Hall ltac:(lia)).
destruct (char_digit (digit_char n)) as [m|]; [|discriminate].
apply Z.eqb_eq in Hall. now subst.
Qed.

Lemma num2_fmt n :
0 <= n <= 99 ->
num2 (digit_char (n / 10)) (digit_char (n mod 10)) = Some n.
Proof.
intros H. unfold num2.
rewrite !char_digit_digit_char by (Z.div_mod_to_equations; lia).
f_equal. Z.div_mod_to_equations; lia.
Qed.

Lemma num4_fmt n :
0 <= n <= 9999 ->
num4 (digit_char (n / 1000)) (digit_char (n / 100 mod 10))
     (digit_char (n mod 100 / 10)) (digit_char (n mod 100 mod 10))
= Some n.
Proof.
intros H. unfold num4, num2.
rewrite !char_digit_digit_char by (Z.div_mod_to_equations; lia).
f_equal. Z.div_mod_to_equations; lia.
Qed.

(** A date printed by [date_string] parses back to itself. *)
Lemma parse_date_to_date_string z :
in_range z = true -> parse_date (date_string z) = Some z.
Proof.
intros Hz. unfold date_string.
pose proof (civil_from_days_spec z) as H.
destruct (civil_from_days z) as [[y m] d] eqn:Hc.
destruct H as (Hd & Hm & Hday & Hy). specialize (Hy Hz).
unfold fmt4, fmt2. cbn [append parse_date].
rewrite num4_fmt, !num2_fmt by lia.
rewrite Hd, Hc, Hz. unfold triple_eqb. rewrite !Z.eqb_refl. reflexivity.
Qed.

Lemma date_string_shape z :
exists a b c d e f g h,
  date_string z
  = String a (String b (String c (String d (String "-"
      (String e (String f (String "-"
        (String g (String h EmptyString))))))))).
Proof.
unfold date_string. destruct (civil_from_days z) as [[y m] dd].
unfold fmt4, fmt2. cbn [append]. repeat eexists.
Qed.

Lemma parse_iso_date_string z :
in_range z = true -> parse_iso (date_string z) = Some (at_midnight z).
Proof.
intros Hz. pose proof (parse_date_to_date_string z Hz) as Hp.
destruct (date_string_shape z) as (a & b & c & d & e & f & g & h & Hs).
assert (H1 : substring 0 10 (date_string z) = date_string z)
  by (rewrite Hs; reflexivity).
assert (H2 : substring 10 (String.length (date_string z) - 10)
               (date_string z) = EmptyString)
  by (rewrite Hs; reflexivity).
unfold parse_iso. now rewrite H1, H2, Hp.
Qed.

(** Read back, it is the instant at which that day starts. *)
Lemma parse_to_date_string {E} now z :
in_range z = true -> @parse E now (date_string z) = ret (at_midnight z).
Proof.
intros Hz. unfold parse.
rewrite parse_iso_date_string by assumption.
destruct (String.eqb_spec (date_string z) "now") as [Heq|]; [|reflexivity].
exfalso. destruct (date_string_shape z)
  as (a & b & c & d & e & f & g & h & Hs).
rewrite Hs in Heq. discriminate.
Qed.

(** The order of instants, by day and then by time of day. *)
Lemma le_spec a b :
le a b = true <-> day a < day b \/ (day a = day b /\ (time a <= time b)%N).
Proof.
unfold le. rewrite orb_true_iff, andb_true_iff, Z.ltb_lt, Z.eqb_eq,
  N.leb_le. reflexivity.
Qed.

(** Whatever [parse_date] accepts lies in the range of [datetime]. *)
Lemma parse_date_in_range s z : parse_date s = Some z -> in_range z = true.
Proof.
unfold parse_date.
repeat match goal with
       | |- context [match ?x with _ => _ end] =>
           destruct x eqn:?; try discriminate
       end.
intros [= <-].
match goal with
| H : (_ && in_range _) = true |- _ => apply andb_true_iff in H; tauto
end.
Qed.

End PendulumFacts.

(** ** The job poller *)

Section Poller.
Variable c : ctx.

Lemma poll_ready job todo : forall n k ids,
  (k < todo)%nat ->
  (forall i, (i < k)%nat ->
             get_email_responses (client c) job (n + i) = EmptyResult) ->
  get_email_responses (client c) job (n + k) = Result ids ->
  poll c job n todo
  = (polls job k ++ [GetEmailResponses job], inr (Result ids)).
Proof.
  induction todo as [|todo IH]; intros n k ids Hk Hempty Hready; [lia|].
  cbn [poll]. rewrite bind_emit. destruct k as [|k].
  - rewrite Nat.add_0_r in Hready. rewrite Hready. reflexivity.
  - pose proof (Hempty 0%nat ltac:(lia)) as H0.
    rewrite Nat.add_0_r in H0. rewrite H0, bind_emit.
    rewrite (IH (S n) k ids); try lia.
    + reflexivity.
    + intros i Hi. replace (S n + i)%nat with (n + S i)%nat by lia.
      apply Hempty. lia.
    + now replace (S n + k)%nat with (n + S k)%nat by lia.
Qed.

Lemma poll_timeout job todo : forall n,
  (forall i, (i < todo)%nat ->
             get_email_responses (client c) job (n + i) = EmptyResult) ->
  poll c job n todo = (polls job todo, inr EmptyResult).
Proof.
  induction todo as [|todo IH]; intros n Hempty; [reflexivity|].
  cbn [poll]. rewrite bind_emit.
  pose proof (Hempty 0%nat ltac:(lia)) as H0.
  rewrite Nat.add_0_r in H0. rewrite H0, bind_emit.
  rewrite (IH (S n)).
  - reflexivity.
  - intros i Hi. replace (S n + i)%nat with (n + S i)%nat by lia.
    apply Hempty. lia.
Qed.

Lemma poll_attempts job todo : forall n,
  (attempts (trace (poll c job n todo)) <= todo)%nat.
Proof.
  induction todo as [|todo IH]; intros n; [apply Nat.le_refl|].
  cbn [poll]. rewrite bind_emit.
  destruct (get_email_responses (client c) job n).
  - rewrite bind_emit. specialize (IH (S n)).
    unfold trace, attempts in *. cbn. lia.
  - unfold trace, attempts. cbn. lia.
Qed.

Lemma poll_outcome job todo : forall n,
  exists r, outcome (poll c job n todo) = inr r.
Proof.
  induction todo as [|todo IH]; intros n; [now exists EmptyResult|].
  cbn [poll]. rewrite bind_emit.
  destruct (get_email_responses (client c) job n).
  - rewrite bind_emit. apply (IH (S n)).
  - now eexists.
Qed.

Lemma attempts_app t1 t2 :
  attempts (t1 ++ t2) = (attempts t1 + attempts t2)%nat.
Proof. unfold attempts. now rewrite filter_app, length_app. Qed.

Lemma sync_metric_unfold campaign_id metric date :
  let job := post_email_responses (client c) metric date campaign_id in
  sync_metric c campaign_id metric date
  = (PostEmailResponses metric date campaign_id
       :: trace (poll c job 0 10) ++
          match outcome (poll c job 0 10) with
          | inr (Result ids) => flush date metric ids
          | _ => []
          end,
     match outcome (poll c job 0 10) with
     | inr (Result ids) => inr tt
     | inr EmptyResult =>
         inl (TypeError "string indices must be integers")
     | inl e => inl e
     end).
Proof.
  intros job.
  assert (Hpost : post_metric c metric date campaign_id
                  = ([PostEmailResponses metric date campaign_id],
                     inr job)) by reflexivity.
  unfold sync_metric. rewrite (bind_ok _ _ _ _ Hpost).
  unfold trace, outcome.
  destruct (poll c job 0 10) as [t [e|[|ids]]]; unfold bind; cbn [fst snd].
  - now rewrite app_nil_r.
  - reflexivity.
  - unfold flush.
    destruct (list_eq_dec string_dec ids [""]) as [->|Hne].
    + reflexivity.
    + assert (Hc : ((List.length ids =? 1)%nat
                    && String.eqb (nth 0 ids "") "") = false).
      { destruct ids as [|x [|y ids]]; try reflexivity.
        cbn. destruct (String.eqb_spec x ""); congruence. }
      rewrite Hc. unfold write_records, metrics. cbn.
      now rewrite length_map.
Qed.

(** C5: the polling discipline of [sync_metric].  After the job is
    created the result is requested at most ten times; each request that
    comes back empty is followed by a sleep of 5 seconds; the first
    response that is not empty ends the polling and the cell succeeds; and
    when all ten responses are empty the cell raises [TypeError], with
    nothing written to the sink. *)
Theorem sync_metric_polling campaign_id metric date :
  let job := post_email_responses (client c) metric date campaign_id in
  let run := sync_metric c campaign_id metric date in
  (attempts (trace run) <= 10)%nat
  /\ (forall k ids,
        (k < 10)%nat ->
        (forall i, (i < k)%nat ->
                   get_email_responses (client c) job i = EmptyResult) ->
        get_email_responses (client c) job k = Result ids ->
        run = (PostEmailResponses metric date campaign_id
                 :: polls job k ++ GetEmailResponses job
                 :: flush date metric ids,
               inr tt))
  /\ ((forall i, (i < 10)%nat ->
                 get_email_responses (client c) job i = EmptyResult) ->
      run = (PostEmailResponses metric date campaign_id :: polls job 10,
             inl (TypeError "string indices must be integers"))).
Proof.
  intros job run. subst run.
  rewrite (sync_metric_unfold campaign_id metric date). fold job.
  split; [|split].
  - pose proof (poll_attempts job 10 0) as Hle.
    unfold trace at 1. cbn [fst].
    change (PostEmailResponses metric date campaign_id :: ?t)
      with ([PostEmailResponses metric date campaign_id] ++ t).
    rewrite !attempts_app.
    assert (Hflush : attempts
              match outcome (poll c job 0 10) with
              | inr (Result ids) => flush date metric ids
              | _ => []
              end = 0%nat).
    { destruct (outcome (poll c job 0 10)) as [e|[|ids]]; try reflexivity.
      unfold flush. now destruct (list_eq_dec string_dec ids [""]). }
    rewrite Hflush.
    change (attempts [PostEmailResponses metric date campaign_id])
      with 0%nat.
    lia.
  - intros k ids Hk Hempty Hready.
    rewrite (poll_ready job 10 0 k ids Hk Hempty Hready).
    unfold trace, outcome. cbn [fst snd].
    now rewrite <- app_assoc.
  - intros Hempty. rewrite (poll_timeout job 10 0 Hempty).
    unfold trace, outcome. cbn [fst snd]. now rewrite app_nil_r.
Qed.

(** C8: what a ready result writes.  When the result holds the single
    contact id [""] nothing is written and the call returns; any other
    ready result is written as one batch with one record
    [{date, metric, contact_id}] per contact id, in order. *)
Theorem sync_metric_ready_result campaign_id metric date k ids :
  let job := post_email_responses (client c) metric date campaign_id in
  (k < 10)%nat ->
  (forall i, (i < k)%nat ->
             get_email_responses (client c) job i = EmptyResult) ->
  get_email_responses (client c) job k = Result ids ->
  sync_metric c campaign_id metric date
  = (PostEmailResponses metric date campaign_id
       :: polls job k ++ GetEmailResponses job
       :: (if list_eq_dec string_dec ids [""] then []
           else [ SingerWriteRecords "metrics"
                    (map (fun contact_id =>
                            [ ("date", Some date); ("metric", Some metric);
                              ("contact_id", Some contact_id) ]) ids);
                  CounterIncrement "metrics" (List.length ids) ]),
     inr tt).
Proof.
  intros job Hk Hempty Hready.
  rewrite (sync_metric_unfold campaign_id metric date). fold job.
  rewrite (poll_ready job 10 0 k ids Hk Hempty Hready).
  unfold trace, outcome. cbn [fst snd].
  now rewrite <- app_assoc.
Qed.

End Poller.

(** ** Lists *)

Lemma list_remove_head x l : list_remove x (x :: l) = Some l.
Proof. cbn. now rewrite String.eqb_refl. Qed.

Lemma list_remove_incl x l r : list_remove x l = Some r -> incl r l.
Proof.
  revert r. induction l as [|y l IH]; cbn; intros r H; [discriminate|].
  destruct (String.eqb y x).
  - injection H as <-. apply incl_tl, incl_refl.
  - destruct (list_remove x l) as [r'|]; [|discriminate].
    injection H as <-. intros z [->|Hz]; [now left|].
    right. now apply (IH r' eq_refl).
Qed.

Lemma removed_incl x l : incl (removed x l) l.
Proof.
  unfold removed. destruct (list_remove x l) eqn:H.
  - eapply list_remove_incl; eassumption.
  - apply incl_refl.
Qed.

Lemma days_from_S d n : days_from d (S n) = d :: days_from (d + 1) n.
Proof.
  unfold days_from. cbn [seq map]. f_equal.
  - lia.
  - rewrite <- seq_shift, map_map. apply map_ext. intros i. lia.
Qed.

Lemma in_days_from d n x :
  In x (days_from d n) <-> d <= x < d + Z.of_nat n.
Proof.
  unfold days_from. rewrite in_map_iff. split.
  - intros (i & <- & Hi). apply in_seq in Hi. lia.
  - intros H. exists (Z.to_nat (x - d)). split; [lia|]. apply in_seq. lia.
Qed.

Lemma in_date_range from to x :
  In x (date_range from to)
  <-> Pendulum.day from <= x <= last_day from to.
Proof. unfold date_range, days_through. rewrite in_days_from. lia. Qed.

(** When the time of day of [current_date] is not later than that of
    [end_date], the loop runs through the day of [end_date]. *)
Lemma last_day_on_time current_date end_date :
  (Pendulum.time current_date <= Pendulum.time end_date)%N ->
  last_day current_date end_date = Pendulum.day end_date.
Proof.
  intros H. unfold last_day. now rewrite (proj2 (N.leb_le _ _) H).
Qed.

Lemma last_day_midnight z end_date :
  last_day (Pendulum.at_midnight z) end_date = Pendulum.day end_date.
Proof. apply last_day_on_time. cbn. lia. Qed.

Lemma last_day_bounds current_date end_date :
  Pendulum.day end_date - 1 <= last_day current_date end_date
  <= Pendulum.day end_date.
Proof. unfold last_day. destruct (_ <=? _)%N; lia. Qed.

(** The loop guard: there is a day left exactly when
    [current_date <= end_date]. *)
Lemma days_through_guard current_date end_date :
  (0 < days_through current_date end_date)%nat
  <-> Pendulum.le current_date end_date = true.
Proof.
  rewrite PendulumFacts.le_spec. unfold days_through, last_day.
  destruct (N.leb_spec (Pendulum.time current_date)
              (Pendulum.time end_date)); lia.
Qed.

(** A day is not after the last day of the loop exactly when
    [current_date], moved to that day, passes the guard. *)
Lemma last_day_guard current_date end_date d :
  d <= last_day current_date end_date
  <-> Pendulum.le (Pendulum.mkDateTime d (Pendulum.time current_date))
        end_date = true.
Proof.
  rewrite PendulumFacts.le_spec. unfold last_day.
  cbn [Pendulum.day Pendulum.time].
  destruct (N.leb_spec (Pendulum.time current_date)
              (Pendulum.time end_date)); lia.
Qed.

(** The days of the loop are those, from the day of [from] on, on which
    [from] moved to that day passes the guard. *)
Lemma date_range_guard from to d :
  In d (date_range from to)
  <-> Pendulum.day from <= d
      /\ Pendulum.le (Pendulum.mkDateTime d (Pendulum.time from)) to = true.
Proof.
  rewrite in_date_range, PendulumFacts.le_spec. unfold last_day.
  cbn [Pendulum.day Pendulum.time].
  destruct (N.leb_spec (Pendulum.time from) (Pendulum.time to)); lia.
Qed.

(** A day on, at the same time of day, there is one day less to go. *)
Lemma days_through_next current_date end_date n :
  days_through current_date end_date = S n ->
  days_through
    (Pendulum.mkDateTime (Pendulum.day current_date + 1)
       (Pendulum.time current_date)) end_date = n.
Proof. unfold days_through, last_day. cbn. lia. Qed.

(** ** Traces *)

Lemma cells_of_app t1 t2 : cells_of (t1 ++ t2) = cells_of t1 ++ cells_of t2.
Proof.
  induction t1 as [|ev t1 IH]; [reflexivity|].
  destruct ev; cbn; now rewrite ?IH.
Qed.

Lemma records_of_app t1 t2 :
  records_of (t1 ++ t2) = records_of t1 ++ records_of t2.
Proof.
  induction t1 as [|ev t1 IH]; [reflexivity|].
  destruct ev; cbn; rewrite ?IH, ?app_assoc; reflexivity.
Qed.

(** Where an element sits in a concatenation. *)
Lemma app_eq_middle {A} (l1 l2 pre post : list A) x :
  l1 ++ l2 = pre ++ x :: post ->
  (exists post1, l1 = pre ++ x :: post1 /\ post = post1 ++ l2)
  \/ (exists pre2, pre = l1 ++ pre2 /\ l2 = pre2 ++ x :: post).
Proof.
  revert pre. induction l1 as [|y l1 IH]; intros pre H.
  - right. now exists pre.
  - destruct pre as [|y' pre]; cbn in H; injection H as -> H.
    + left. now exists l1.
    + destruct (IH pre H) as [(post1 & -> & ->)|(pre2 & -> & ->)].
      * left. now exists post1.
      * right. now exists pre2.
Qed.

Lemma checkpoint_in_app (t1 t2 pre post : list event) s :
  t1 ++ t2 = pre ++ WriteState s :: post ->
  (exists post1, t1 = pre ++ WriteState s :: post1 /\ post = post1 ++ t2)
  \/ (exists pre2, pre = t1 ++ pre2 /\ t2 = pre2 ++ WriteState s :: post).
Proof. apply app_eq_middle. Qed.

Lemma no_checkpoint_decompose (t pre post : list event) s :
  forallb (fun ev => negb (is_checkpoint ev)) t = true ->
  t <> pre ++ WriteState s :: post.
Proof.
  intros H ->. rewrite forallb_app in H. apply andb_true_iff in H.
  destruct H as [_ H]. discriminate.
Qed.

Section CellTraces.
Variable c : ctx.

Lemma poll_no_checkpoint job todo : forall n,
  forallb (fun ev => negb (is_checkpoint ev)) (trace (poll c job n todo))
  = true.
Proof.
  induction todo as [|todo IH]; intros n; [reflexivity|].
  cbn [poll]. rewrite bind_emit.
  destruct (get_email_responses (client c) job n); [|reflexivity].
  rewrite bind_emit. apply (IH (S n)).
Qed.

Lemma poll_cells job todo : forall n,
  cells_of (trace (poll c job n todo)) = [].
Proof.
  induction todo as [|todo IH]; intros n; [reflexivity|].
  cbn [poll]. rewrite bind_emit.
  destruct (get_email_responses (client c) job n); [|reflexivity].
  rewrite bind_emit. apply (IH (S n)).
Qed.

Lemma flush_no_checkpoint date metric ids :
  forallb (fun ev => negb (is_checkpoint ev)) (flush date metric ids)
  = true.
Proof.
  unfold flush. now destruct (list_eq_dec string_dec ids [""]).
Qed.

Lemma sync_metric_no_checkpoint campaign_id metric date :
  forallb (fun ev => negb (is_checkpoint ev))
          (trace (sync_metric c campaign_id metric date)) = true.
Proof.
  rewrite sync_metric_unfold. unfold trace at 1. cbn [fst forallb negb
    is_checkpoint andb].
  rewrite forallb_app, poll_no_checkpoint.
  cbn [andb].
  destruct (outcome (poll c _ 0 10)) as [e|[|ids]];
    try reflexivity. apply flush_no_checkpoint.
Qed.

Lemma sync_metric_cells campaign_id metric date :
  cells_of (trace (sync_metric c campaign_id metric date))
  = [(campaign_id, metric, date)].
Proof.
  rewrite sync_metric_unfold. unfold trace at 1. cbn [fst cells_of].
  rewrite cells_of_app, poll_cells. f_equal.
  destruct (outcome (poll c _ 0 10)) as [e|[|ids]]; try reflexivity.
  unfold flush. now destruct (list_eq_dec string_dec ids [""]).
Qed.

(** The poller finds what [first_answer] finds. *)
Lemma poll_first_answer job todo : forall n,
  poll c job n todo
  = match first_answer c job n todo with
    | Some (k, ids) =>
        (polls job (k - n) ++ [GetEmailResponses job], inr (Result ids))
    | None => (polls job todo, inr EmptyResult)
    end.
Proof.
  induction todo as [|todo IH]; intros n; [reflexivity|].
  cbn [poll first_answer]. rewrite bind_emit.
  destruct (get_email_responses (client c) job n) as [|ids].
  - rewrite bind_emit, (IH (S n)).
    destruct (first_answer c job (S n) todo) as [[k ids]|] eqn:Hf.
    + assert (Hk : (S n <= k)%nat).
      { clear -Hf. revert n Hf. induction todo as [|todo IH]; intros n Hf;
          [discriminate|].
        cbn [first_answer] in Hf.
        destruct (get_email_responses (client c) job (S n)).
        - apply IH in Hf. lia.
        - injection Hf as <- _. lia. }
      replace (k - n)%nat with (S (k - S n)) by lia. reflexivity.
    + reflexivity.
  - now rewrite Nat.sub_diag.
Qed.

(** A cell that is synced without error leaves the events and the
    records the API's answer calls for. *)
Lemma sync_metric_expected campaign_id metric date :
  outcome (sync_metric c campaign_id metric date) = inr tt ->
  trace (sync_metric c campaign_id metric date)
  = expected_events c (campaign_id, metric, date)
  /\ expected_events c (campaign_id, metric, date) <> []
  /\ records_of (trace (sync_metric c campaign_id metric date))
     = expected_records c (campaign_id, metric, date).
Proof.
  rewrite sync_metric_unfold. unfold outcome at 1, trace at 1 3.
  cbn [fst snd]. unfold expected_events, expected_records.
  rewrite poll_first_answer.
  destruct (first_answer c _ 0 10) as [[k ids]|];
    unfold outcome, trace; cbn [fst snd]; [|discriminate].
  intros _. rewrite Nat.sub_0_r, <- app_assoc. cbn [app].
  split; [|split; [discriminate|]].
  - unfold flush, metric_row.
    now destruct (list_eq_dec string_dec ids [""]).
  - cbn [records_of]. rewrite records_of_app.
    assert (Hp : forall n, records_of (polls (post_email_responses
                   (client c) metric date campaign_id) n) = []).
    { induction n as [|n IHn]; [reflexivity|]. unfold polls in *.
      cbn [repeat List.concat app records_of]. exact IHn. }
    rewrite Hp. cbn [app records_of]. unfold flush, metric_row.
    destruct (list_eq_dec string_dec ids [""]); [reflexivity|].
    cbn [records_of]. now rewrite app_nil_r.
Qed.

Lemma sync_metric_starts campaign_id metric date :
  exists t, trace (sync_metric c campaign_id metric date)
            = PostEmailResponses metric date campaign_id :: t.
Proof. rewrite sync_metric_unfold. now eexists. Qed.
End CellTraces.

(** From here on a cell is used through the lemmas above. *)
Arguments sync_metric : simpl never.
Arguments step_sync : simpl never.
Arguments poll : simpl never.

(** ** Following a plan *)

Section Executes.
Variable c : ctx.
Variable st0 : state.

Lemma executes_ret {A} (Q : A -> Prop) a :
  Q a -> executes c st0 Q (ret a) [].
Proof. intros H. left. exists a. repeat split; auto. Qed.

Lemma executes_raise {A} (Q : A -> Prop) e plan :
  executes c st0 Q (raise e) plan.
Proof.
  right. exists [], plan, [], e. repeat split; auto.
Qed.

Lemma executes_bind {A B} (Q1 : A -> Prop) (Q2 : B -> Prop)
    (r : M event A) (k : A -> M event B) p1 p2 :
  executes c st0 Q1 r p1 ->
  (forall a, Q1 a -> executes c st0 Q2 (k a) p2) ->
  executes c st0 Q2 (bind r k) (p1 ++ p2).
Proof.
  intros [(a & -> & Ha & Hok)|(done & rest & tail & e & -> & -> & Hok & Ht)]
         Hk.
  - unfold bind. cbn [fst snd].
    destruct (Hk a Ha)
      as [(b & -> & Hb & Hok2)
         |(done & rest & tail & e & -> & -> & Hok2 & Ht)].
    + left. exists b. cbn [fst snd]. rewrite flat_map_app.
      repeat split; auto. apply Forall_app. now split.
    + right. exists (p1 ++ done), rest, tail, e. cbn [fst snd].
      rewrite flat_map_app, !app_assoc.
      repeat split; auto. apply Forall_app. now split.
  - right. exists done, (rest ++ p2), tail, e. unfold bind. cbn [fst snd].
    rewrite app_assoc. repeat split; auto.
    destruct Ht as [->|(s & rest' & -> & ->)]; [now left|].
    right. now exists s, (rest' ++ p2).
Qed.

Lemma executes_weaken {A} (Q Q' : A -> Prop) r plan :
  (forall a, Q a -> Q' a) ->
  executes c st0 Q r plan -> executes c st0 Q' r plan.
Proof.
  intros HQ [(a & -> & Ha & Hok)|H]; [|now right].
  left. exists a. auto.
Qed.

Lemma write_metrics_state_checkpoint st campaigns metrics date :
  same_rest st st0 ->
  write_metrics_state st campaigns metrics date
  = ([WriteState (checkpoint st0 campaigns metrics (Pendulum.day date))],
     inr (checkpoint st0 campaigns metrics (Pendulum.day date))).
Proof.
  intros [H1 H2].
  assert (Hw : Singer.write_date_to_resume
                 (Singer.write_metrics_to_resume
                    (Singer.write_campaigns_to_resume st campaigns)
                    metrics)
                 (Pendulum.to_date_string date)
               = checkpoint st0 campaigns metrics (Pendulum.day date)).
  { unfold checkpoint. rewrite <- H1, <- H2. reflexivity. }
  unfold write_metrics_state, write_state. rewrite Hw. reflexivity.
Qed.

Lemma same_rest_checkpoint campaigns metrics date :
  same_rest (checkpoint st0 campaigns metrics date) st0.
Proof. split; reflexivity. Qed.

(** One iteration of the date loop, at any time of day. *)
Lemma executes_step st s time :
  same_rest st st0 ->
  executes c st0 (fun st' => st' = step_checkpoint st0 s)
    (step_sync c s ;;
     d <- Pendulum.add_days (Pendulum.mkDateTime (step_date s) time) 1 ;;
     write_metrics_state st (step_campaigns s) (step_metrics s) d)
    [s].
Proof.
  intros Hst. unfold Pendulum.add_days. cbn [Pendulum.day Pendulum.time].
  destruct (step_sync c s) as [t [e|[]]] eqn:Hsync.
  - right. exists [], [s], t, e. unfold bind. cbn [fst snd flat_map app].
    repeat split; auto. right. exists s, []. rewrite Hsync. now split.
  - destruct (Pendulum.in_range (step_date s + 1)) eqn:Hr.
    + left. exists (step_checkpoint st0 s).
      rewrite bind_ret, write_metrics_state_checkpoint by assumption.
      unfold bind. cbn [fst snd flat_map]. unfold step_events.
      rewrite Hsync, app_nil_r. unfold trace. cbn [fst].
      repeat split; auto. constructor; [|constructor].
      split; [now rewrite Hsync|assumption].
    + right. exists [], [s], t, (OverflowError "date value out of range").
      unfold bind, raise. cbn [fst snd flat_map app].
      rewrite app_nil_r.
      repeat split; auto. right. exists s, []. rewrite Hsync. now split.
Qed.
End Executes.

Section Loops.
Variable c : ctx.
Variable st0 : state.
Variable metrics_selected : list string.
Variable start_date : date_value.
Variable end_date : Pendulum.DateTime.

(** The date standing in for [start_date] in a plan: the plan is only
    consulted past a point where [start_date] was a date. *)
Variable sd : Pendulum.DateTime.
Hypothesis start_date_sd : forall d, start_date = Date d -> d = sd.

Lemma while_dates_S n st campaigns metrics campaign_id metric d :
  while_dates c (S n) st campaigns metrics campaign_id metric d
  = bind (step_sync c (mkStep campaign_id metric (Pendulum.day d)
                         campaigns metrics) ;;
          d' <- Pendulum.add_days d 1 ;;
          write_metrics_state st campaigns metrics d')
         (fun st' =>
            while_dates c n st' campaigns metrics campaign_id metric
              (Pendulum.mkDateTime (Pendulum.day d + 1) (Pendulum.time d))).
Proof.
  cbn [while_dates]. unfold step_sync, Pendulum.to_date_string.
  cbn [step_campaign step_metric step_date]. rewrite bind_assoc. f_equal.
  unfold Pendulum.add_days. destruct (Pendulum.in_range (Pendulum.day d + 1)).
  - rewrite !bind_ret. reflexivity.
  - reflexivity.
Qed.

Lemma while_dates_executes campaigns metrics campaign_id metric n :
  forall st d,
    same_rest st st0 ->
    executes c st0 (fun st' => same_rest st' st0)
      (while_dates c n st campaigns metrics campaign_id metric d)
      (map (fun d => mkStep campaign_id metric d campaigns metrics)
           (days_from (Pendulum.day d) n)).
Proof.
  induction n as [|n IH]; intros st [z t] Hst.
  - now apply executes_ret.
  - rewrite while_dates_S, days_from_S.
    cbn [map Pendulum.day Pendulum.time].
    change (?s :: ?l) with ([s] ++ l).
    eapply executes_bind.
    + apply (executes_step c st0 st
               (mkStep campaign_id metric z campaigns metrics) t Hst).
    + intros st' ->.
      apply (IH _ (Pendulum.mkDateTime (z + 1) t)).
      apply same_rest_checkpoint.
Qed.

Lemma last_date_after_None ms : last_date_after ms None = None.
Proof. now destruct ms. Qed.

Lemma for_metrics_executes campaigns campaign_id ms :
  forall st metrics ld,
    same_rest st st0 ->
    executes c st0
      (fun r => same_rest (fst r) st0 /\ snd r = last_date_after ms ld)
      (for_metrics c start_date end_date ms st campaigns metrics
         campaign_id ld)
      (plan_metrics sd end_date campaign_id campaigns ms metrics ld).
Proof.
  induction ms as [|m ms IH]; intros st metrics ld Hst.
  - apply executes_ret. now split.
  - cbn [for_metrics plan_metrics last_date_after].
    assert (Hfirst :
      forall d, match ld with Some d' => Date d' | None => start_date end
                = Date d -> first_date sd ld = d).
    { intros d. destruct ld as [d'|]; cbn.
      - now intros [= ->].
      - intros H. symmetry. now apply start_date_sd. }
    destruct (match ld with Some d' => Date d' | None => start_date end)
      as [str|d]; [apply executes_raise|].
    rewrite (Hfirst d eq_refl).
    eapply executes_bind.
    + apply (while_dates_executes campaigns metrics campaign_id m
               (days_through d end_date) st d Hst).
    + intros st' Hst'. unfold remove, removed.
      destruct (list_remove m metrics) as [r|].
      * rewrite bind_ret.
        eapply executes_weaken; [|apply (IH st' r None Hst')].
        intros a [Ha1 Ha2]. split; [assumption|].
        now rewrite Ha2, last_date_after_None.
      * apply executes_raise.
Qed.

Lemma for_campaigns_executes cs :
  forall st campaigns ms ld,
    same_rest st st0 ->
    executes c st0 (fun st' => same_rest st' st0)
      (for_campaigns c metrics_selected start_date end_date cs st
         campaigns (Some ms) ld)
      (plan_campaigns metrics_selected sd end_date cs campaigns ms ld).
Proof.
  induction cs as [|cid cs IH]; intros st campaigns ms ld Hst.
  - now apply executes_ret.
  - cbn [for_campaigns plan_campaigns].
    eapply executes_bind.
    + apply (for_metrics_executes campaigns cid ms st metrics_selected
               ld Hst).
    + intros [st' ld'] [Hst' Hld]. cbn [fst snd] in *. subst ld'.
      unfold remove, removed.
      destruct (list_remove cid campaigns) as [r|].
      * rewrite bind_ret. now apply IH.
      * apply executes_raise.
Qed.

Lemma for_campaigns_nothing_to_iterate cs st campaigns ld :
  trace (for_campaigns c metrics_selected start_date end_date cs st
           campaigns None ld) = [].
Proof. now destruct cs. Qed.
End Loops.

(** ** What following a plan implies *)

Section ExecutesFacts.
Variable c : ctx.
Variable st0 : state.

Lemma step_events_cells s : cells_of (step_events c st0 s) = [step_cell s].
Proof.
  unfold step_events, step_sync. rewrite cells_of_app, sync_metric_cells.
  reflexivity.
Qed.

Lemma plan_events_cells plan :
  cells_of (flat_map (step_events c st0) plan) = map step_cell plan.
Proof.
  induction plan as [|s plan IH]; [reflexivity|].
  cbn [flat_map map]. now rewrite cells_of_app, step_events_cells, IH.
Qed.

(** A checkpoint among the events of a plan is the one of a step, right
    after the events of its cell. *)
Lemma plan_events_checkpoint plan : forall pre ck post,
  flat_map (step_events c st0) plan = pre ++ WriteState ck :: post ->
  exists before s after,
    plan = before ++ s :: after
    /\ pre = flat_map (step_events c st0) before ++ trace (step_sync c s)
    /\ ck = step_checkpoint st0 s
    /\ post = flat_map (step_events c st0) after.
Proof.
  induction plan as [|s plan IH]; intros pre ck post H.
  - destruct pre; discriminate.
  - cbn [flat_map] in H.
    apply checkpoint_in_app in H
      as [(post1 & H1 & ->)|(pre2 & -> & H2)].
    + unfold step_events in H1.
      apply checkpoint_in_app in H1
        as [(post2 & H1 & _)|(pre2 & -> & H2)].
      * exfalso. revert H1. apply no_checkpoint_decompose.
        apply sync_metric_no_checkpoint.
      * destruct pre2 as [|ev pre2].
        -- injection H2 as <- <-. exists [], s, plan.
           cbn [app flat_map]. rewrite app_nil_r. auto.
        -- destruct pre2; discriminate.
    + destruct (IH _ _ _ H2) as (before & s' & after & -> & -> & -> & ->).
      exists (s :: before), s', after. cbn [flat_map app].
      now rewrite app_assoc.
Qed.

Lemma executes_checkpoint {A} (Q : A -> Prop) r plan pre ck post :
  executes c st0 Q r plan ->
  trace r = pre ++ WriteState ck :: post ->
  exists before s after,
    plan = before ++ s :: after
    /\ pre = flat_map (step_events c st0) before ++ trace (step_sync c s)
    /\ ck = step_checkpoint st0 s
    /\ Forall (step_ok c) (before ++ [s]).
Proof.
  intros [(a & -> & _ & Hok)
         |(done & rest & tail & e & -> & -> & Hok & Ht)] H;
    unfold trace in H; cbn [fst] in H.
  - destruct (plan_events_checkpoint _ _ _ _ H)
      as (before & s & after & -> & -> & -> & _).
    exists before, s, after. repeat split; auto.
    change (s :: after) with ([s] ++ after) in Hok.
    rewrite app_assoc in Hok. now apply Forall_app in Hok.
  - apply checkpoint_in_app in H as [(post1 & H1 & _)|(pre2 & _ & H2)].
    + destruct (plan_events_checkpoint _ _ _ _ H1)
        as (before & s & after & -> & -> & -> & _).
      exists before, s, (after ++ rest). rewrite <- app_assoc.
      repeat split; auto.
      change (s :: after) with ([s] ++ after) in Hok.
      rewrite app_assoc in Hok. now apply Forall_app in Hok.
    + exfalso. revert H2. apply no_checkpoint_decompose.
      destruct Ht as [->|(s & rest' & _ & ->)]; [reflexivity|].
      apply sync_metric_no_checkpoint.
Qed.

(** Every cell a computation starts belongs to its plan. *)
Lemma executes_cells {A} (Q : A -> Prop) r plan :
  executes c st0 Q r plan ->
  incl (cells_of (trace r)) (map step_cell plan).
Proof.
  intros [(a & -> & _ & _)
         |(done & rest & tail & e & -> & -> & _ & Ht)];
    unfold trace; cbn [fst].
  - rewrite plan_events_cells. apply incl_refl.
  - rewrite cells_of_app, plan_events_cells, map_app.
    apply incl_app; [apply incl_appl, incl_refl|].
    destruct Ht as [->|(s & rest' & -> & ->)]; [intros x []|].
    unfold step_sync. rewrite sync_metric_cells.
    apply incl_appr. intros x [<-|[]]. now left.
Qed.
End ExecutesFacts.

(** ** [sync_metrics] *)

Section SyncMetricsFacts.
Variable sch : schemas.
Variable c : ctx.

Let selected := metrics_selected_of sch c.

Lemma parse_pure now s :
  (exists z, @Pendulum.parse event now s = ret z)
  \/ (exists e, @Pendulum.parse event now s = raise e).
Proof.
  unfold Pendulum.parse. destruct (String.eqb s "now"); [now left; eexists|].
  destruct (Pendulum.parse_iso s); [left|right]; now eexists.
Qed.

Lemma starting_point_pure b campaigns :
  (exists p, starting_point c b selected campaigns = ret p)
  \/ (exists e, starting_point c b selected campaigns = raise e).
Proof.
  unfold starting_point.
  destruct (campaigns_to_resume b) as [[|x l]|]; try (left; now eexists).
  destruct (date_to_resume b) as [s|]; [|left; now eexists].
  destruct (String.eqb s ""); [left; now eexists|].
  destruct (parse_pure (now c) s) as [[z ->]|[e ->]];
    [left|right]; now eexists.
Qed.

Lemma starting_point_fresh st campaigns :
  resumes st = false ->
  starting_point c (Singer.get_bookmark st) selected campaigns
  = ret (live_campaigns campaigns, Some selected, None).
Proof.
  unfold resumes, starting_point.
  now destruct (campaigns_to_resume (Singer.get_bookmark st)) as [[|x l]|].
Qed.

Lemma starting_point_resume st campaigns x l s d :
  campaigns_to_resume (Singer.get_bookmark st) = Some (x :: l) ->
  date_to_resume (Singer.get_bookmark st) = Some s ->
  s <> "" ->
  @Pendulum.parse event (now c) s = ret d ->
  starting_point c (Singer.get_bookmark st) selected campaigns
  = ret (x :: l, metrics_to_resume (Singer.get_bookmark st), Some d).
Proof.
  intros Hc Hd Hs Hp. unfold starting_point. rewrite Hc, Hd.
  destruct (String.eqb_spec s ""); [contradiction|].
  now rewrite Hp, !bind_ret.
Qed.

(** The run is the campaign loop, then the unbound name. *)
Lemma sync_metrics_unfold st campaigns sd0 ed cs ms ld :
  @Pendulum.parse event (now c) (config_date (start_date (cfg c))) = ret sd0 ->
  @Pendulum.parse event (now c) (config_date (end_date (cfg c))) = ret ed ->
  starting_point c (Singer.get_bookmark st) selected campaigns
  = ret (cs, ms, ld) ->
  let loop := for_campaigns c selected (start_value st sd0) ed
                cs st cs ms ld in
  sync_metrics sch c st campaigns
  = (trace loop,
     match outcome loop with
     | inl e => inl e
     | inr _ => inl (NameError "reset_stream")
     end).
Proof.
  intros H1 H2 H3 loop. unfold sync_metrics. fold selected.
  rewrite H1, bind_ret, H2, bind_ret, H3, bind_ret.
  fold (start_value st sd0). fold loop.
  destruct loop as [t [e|st']]; unfold bind, trace, outcome;
    cbn [fst snd]; [reflexivity|].
  now rewrite app_nil_r.
Qed.

(** Before the campaign loop nothing is emitted and nothing returned. *)
Lemma sync_metrics_cases st campaigns :
  (trace (sync_metrics sch c st campaigns) = []
   /\ exists e, outcome (sync_metrics sch c st campaigns) = inl e)
  \/ exists sd0 ed cs ms ld,
       @Pendulum.parse event (now c) (config_date (start_date (cfg c))) = ret sd0
       /\ @Pendulum.parse event (now c) (config_date (end_date (cfg c))) = ret ed
       /\ starting_point c (Singer.get_bookmark st) selected campaigns
          = ret (cs, ms, ld).
Proof.
  destruct (parse_pure (now c) (config_date (start_date (cfg c))))
    as [[sd0 H1]|[e H1]].
  2:{ left. unfold sync_metrics. rewrite H1. split; [reflexivity|].
      now exists e. }
  destruct (parse_pure (now c) (config_date (end_date (cfg c))))
    as [[ed H2]|[e H2]].
  2:{ left. unfold sync_metrics. rewrite H1, bind_ret, H2.
      split; [reflexivity|]. now exists e. }
  destruct (starting_point_pure (Singer.get_bookmark st) campaigns)
    as [[[[cs ms] ld] H3]|[e H3]].
  2:{ left. unfold sync_metrics. fold selected.
      rewrite H1, bind_ret, H2, bind_ret, H3.
      split; [reflexivity|]. now exists e. }
  right. now exists sd0, ed, cs, ms, ld.
Qed.

Lemma in_plan_metrics sd ed cid camps ms mets ld s :
  In s (plan_metrics sd ed cid camps ms mets ld) ->
  step_campaign s = cid /\ step_campaigns s = camps /\ In (step_metric s) ms.
Proof.
  revert mets ld. induction ms as [|m ms IH]; intros mets ld; [intros []|].
  cbn [plan_metrics]. rewrite in_app_iff. intros [H|H].
  - unfold plan_dates in H. apply in_map_iff in H as (d & <- & _).
    cbn. auto.
  - destruct (IH _ _ H) as (? & ? & ?). cbn. auto.
Qed.

(** In the plan of a run the campaign of a step heads the campaigns its
    checkpoint records. *)
Lemma in_plan_campaigns_head sd ed cs : forall ms ld s,
  In s (plan_campaigns selected sd ed cs cs ms ld) ->
  exists rest, step_campaigns s = step_campaign s :: rest
               /\ In (step_campaign s) cs.
Proof.
  induction cs as [|cid cs IH]; intros ms ld s; [intros []|].
  cbn [plan_campaigns]. rewrite in_app_iff. intros [H|H].
  - apply in_plan_metrics in H as (-> & -> & _). exists cs.
    split; [reflexivity|now left].
  - unfold removed in H. rewrite list_remove_head in H.
    destruct (IH _ _ _ H) as (rest & Hr & Hin). exists rest.
    split; [assumption|now right].
Qed.

(** What a persisted checkpoint of a run says, and what precedes it. *)
Lemma sync_metrics_checkpoint st campaigns pre ck post :
  trace (sync_metrics sch c st campaigns) = pre ++ WriteState ck :: post ->
  exists sd0 ed cs ms ld before s after,
    @Pendulum.parse event (now c) (config_date (start_date (cfg c))) = ret sd0
    /\ @Pendulum.parse event (now c) (config_date (end_date (cfg c))) = ret ed
    /\ starting_point c (Singer.get_bookmark st) selected campaigns
       = ret (cs, Some ms, ld)
    /\ (forall d, start_value st sd0 = Date d -> d = sd0)
    /\ plan_campaigns selected sd0 ed cs cs ms ld = before ++ s :: after
    /\ pre = flat_map (step_events c st) before ++ trace (step_sync c s)
    /\ ck = step_checkpoint st s
    /\ Forall (step_ok c) (before ++ [s]).
Proof.
  intros H.
  destruct (sync_metrics_cases st campaigns)
    as [[Ht _]|(sd0 & ed & cs & ms & ld & H1 & H2 & H3)].
  { rewrite Ht in H. destruct pre; discriminate. }
  rewrite (sync_metrics_unfold st campaigns sd0 ed cs ms ld H1 H2 H3) in H.
  unfold trace at 1 in H. cbn [fst] in H.
  assert (Hsd : forall d, start_value st sd0 = Date d -> d = sd0).
  { unfold start_value. intros d.
    destruct (last_metric_date (Singer.get_bookmark st)); [discriminate|].
    now intros [= ->]. }
  destruct ms as [ms|].
  2:{ rewrite for_campaigns_nothing_to_iterate in H.
      destruct pre; discriminate. }
  pose proof (for_campaigns_executes c st selected (start_value st sd0) ed
                sd0 Hsd cs st cs ms ld (conj eq_refl eq_refl)) as Hex.
  destruct (executes_checkpoint c st _ _ _ _ _ _ Hex H)
    as (before & s & after & Hp & Hpre & Hck & Hok).
  exists sd0, ed, cs, ms, ld, before, s, after. repeat split; auto.
Qed.

(** C1: the end of the run.  Whatever the inputs, [sync_metrics] ends in
    an exception: when the loop over the campaigns completes, the name
    [reset_stream] of line 242 is not bound in the module (line 8 imports
    only [write_bookmark] and [clear_bookmark]) and [NameError] is raised
    before anything is cleared, recorded or persisted.  Every state the
    run persists still names a campaign to resume at and the
    [last_metric_date] it started with. *)
Theorem sync_metrics_never_completes st campaigns :
  (exists e, outcome (sync_metrics sch c st campaigns) = inl e)
  /\ (forall sd0 ed cs ms ld st',
        @Pendulum.parse event (now c) (config_date (start_date (cfg c)))
        = ret sd0 ->
        @Pendulum.parse event (now c) (config_date (end_date (cfg c))) = ret ed ->
        starting_point c (Singer.get_bookmark st) selected campaigns
        = ret (cs, ms, ld) ->
        outcome (for_campaigns c selected (start_value st sd0) ed
                   cs st cs ms ld) = inr st' ->
        outcome (sync_metrics sch c st campaigns)
        = inl (NameError "reset_stream")
        /\ trace (sync_metrics sch c st campaigns)
           = trace (for_campaigns c selected (start_value st sd0) ed
                      cs st cs ms ld))
  /\ (forall pre ck post,
        trace (sync_metrics sch c st campaigns)
        = pre ++ WriteState ck :: post ->
        (exists x l,
            campaigns_to_resume (Singer.get_bookmark ck) = Some (x :: l))
        /\ last_metric_date (Singer.get_bookmark ck)
           = last_metric_date (Singer.get_bookmark st)).
Proof.
  split; [|split].
  - destruct (sync_metrics_cases st campaigns)
      as [[_ He]|(sd0 & ed & cs & ms & ld & H1 & H2 & H3)]; [assumption|].
    rewrite (sync_metrics_unfold st campaigns sd0 ed cs ms ld H1 H2 H3).
    unfold outcome at 1. cbn [snd].
    destruct (outcome (for_campaigns _ _ _ _ _ _ _ _ _)); now eexists.
  - intros sd0 ed cs ms ld st' H1 H2 H3 Hloop.
    rewrite (sync_metrics_unfold st campaigns sd0 ed cs ms ld H1 H2 H3).
    unfold outcome at 1, trace at 1. cbn [fst snd].
    now rewrite Hloop.
  - intros pre ck post H.
    destruct (sync_metrics_checkpoint st campaigns pre ck post H)
      as (sd0 & ed & cs & ms & ld & before & s & after
          & _ & _ & _ & _ & Hplan & _ & -> & _).
    assert (Hin : In s (plan_campaigns selected sd0 ed cs cs ms ld))
      by (rewrite Hplan; apply in_elt).
    destruct (in_plan_campaigns_head _ _ _ _ _ _ Hin) as (rest & Hr & _).
    split; [|reflexivity].
    exists (step_campaign s), rest. cbn. now rewrite Hr.
Qed.

(** C4: a fresh start with a recorded [last_metric_date].  Line 208 puts
    the bookmark's string in [start_date] as it is: it is neither parsed
    nor compared with the configured date.  With a campaign and a metric
    to work on, the first test [current_date <= end_date] then compares a
    [str] with a [DateTime] and the run ends in [TypeError] before any
    cell is started. *)
Theorem fresh_start_with_recorded_date st campaigns s sd0 ed x :
  resumes st = false ->
  last_metric_date (Singer.get_bookmark st) = Some s ->
  @Pendulum.parse event (now c) (config_date (start_date (cfg c))) = ret sd0 ->
  @Pendulum.parse event (now c) (config_date (end_date (cfg c))) = ret ed ->
  In x campaigns -> deleted x = None ->
  selected <> [] ->
  sync_metrics sch c st campaigns = ([], inl str_vs_datetime).
Proof.
  intros Hfresh Hlast H1 H2 Hx Hdel Hsel.
  rewrite (sync_metrics_unfold st campaigns sd0 ed _ _ _ H1 H2
             (starting_point_fresh st campaigns Hfresh)).
  assert (Hlive : In (id x) (live_campaigns campaigns)).
  { unfold live_campaigns. apply in_map, filter_In. split; [assumption|].
    unfold is_deleted. now rewrite Hdel. }
  destruct (live_campaigns campaigns) as [|cid cs]; [destruct Hlive|].
  destruct selected as [|m ms] eqn:Hs; [congruence|].
  unfold start_value. rewrite Hlast. reflexivity.
Qed.

(** C6: the restart scenario.  From a state whose checkpoint is
    campaigns ["5"], metrics ["click"], date "2021-03-02", and an end date
    not before that day, the first thing the run does is create the job of
    the cell (5, click, 2021-03-02), whatever the configured start date,
    the campaigns passed in and the selected metrics are; and every cell
    it starts is a day of campaign 5 and metric click from that date
    on. *)
Theorem restart_scenario st campaigns sd0 ed :
  campaigns_to_resume (Singer.get_bookmark st) = Some ["5"] ->
  metrics_to_resume (Singer.get_bookmark st) = Some ["click"] ->
  date_to_resume (Singer.get_bookmark st) = Some "2021-03-02" ->
  @Pendulum.parse event (now c) (config_date (start_date (cfg c))) = ret sd0 ->
  @Pendulum.parse event (now c) (config_date (end_date (cfg c))) = ret ed ->
  Pendulum.days_from_civil 2021 3 2 <= Pendulum.day ed ->
  (exists rest,
      trace (sync_metrics sch c st campaigns)
      = PostEmailResponses "click" "2021-03-02" "5" :: rest)
  /\ (forall x,
        In x (cells_of (trace (sync_metrics sch c st campaigns))) ->
        exists d, x = ("5", "click", Pendulum.date_string d)
                  /\ Pendulum.days_from_civil 2021 3 2 <= d
                     <= Pendulum.day ed).
Proof.
  intros Hc Hm Hd H1 H2 Hed.
  set (D := Pendulum.at_midnight 18688).
  assert (Hparse : @Pendulum.parse event (now c) "2021-03-02" = ret D)
    by reflexivity.
  pose proof (starting_point_resume st campaigns "5" [] "2021-03-02" D
                Hc Hd ltac:(discriminate) Hparse) as H3.
  rewrite Hm in H3.
  rewrite (sync_metrics_unfold st campaigns sd0 ed _ _ _ H1 H2 H3).
  unfold trace at 1 3. cbn [fst].
  change (Pendulum.days_from_civil 2021 3 2) with 18688 in *.
  split.
  - cbn [for_campaigns for_metrics].
    destruct (days_through D ed) as [|n] eqn:Hn.
    { unfold days_through, D in Hn. rewrite last_day_midnight in Hn.
      cbn in Hn. lia. }
    rewrite while_dates_S. unfold step_sync.
    cbn [step_campaign step_metric step_date].
    change (Pendulum.date_string (Pendulum.day D)) with "2021-03-02".
    destruct (sync_metric_starts c "5" "click" "2021-03-02") as [t Ht].
    repeat match goal with
           | |- context [trace (bind ?r ?k)] =>
               let t' := fresh "t" in
               let H := fresh "H" in
               destruct (trace_bind r k) as [t' H]; rewrite H; clear H
           end.
    rewrite Ht. cbn. now eexists.
  - set (start := start_value st sd0).
    assert (Hex : executes c st (fun st' => same_rest st' st)
              (for_campaigns c selected start ed ["5"] st ["5"]
                 (Some ["click"]) (Some D))
              (plan_campaigns selected D ed ["5"] ["5"] ["click"]
                 (Some D))).
    { destruct start as [str|d] eqn:Hstart.
      - apply for_campaigns_executes; [discriminate|now split].
      - pose proof (for_campaigns_executes c st selected (Date d) ed d
                      ltac:(now intros ? [= ->]) ["5"] st ["5"] ["click"]
                      (Some D) (conj eq_refl eq_refl)) as Hex.
        exact Hex. }
    intros x Hx. apply (executes_cells c st _ _ _ Hex) in Hx.
    cbn [plan_campaigns plan_metrics first_date] in Hx.
    rewrite !app_nil_r in Hx. unfold plan_dates in Hx.
    rewrite map_map in Hx. apply in_map_iff in Hx as (d & <- & Hin).
    apply in_date_range in Hin. unfold D in Hin.
    rewrite last_day_midnight in Hin. exists d. now split.
Qed.

Lemma in_plan_metrics_progress sd ed cid camps ms s : forall mets ld,
  In s (plan_metrics sd ed cid camps ms mets ld) ->
  exists j,
    nth_error ms j = Some (step_metric s)
    /\ step_metrics s = removed_all (firstn j ms) mets.
Proof.
  induction ms as [|m ms IH]; intros mets ld; [intros []|].
  cbn [plan_metrics]. rewrite in_app_iff. intros [H|H].
  - unfold plan_dates in H. apply in_map_iff in H as (d & <- & _).
    now exists 0%nat.
  - destruct (IH _ _ H) as (j & Hj & Hm). now exists (S j).
Qed.

Lemma in_plan_campaigns_length sd ed cs : forall ms ld s,
  In s (plan_campaigns selected sd ed cs cs ms ld) ->
  (List.length (step_campaigns s) <= List.length cs)%nat.
Proof.
  induction cs as [|cid cs IH]; intros ms ld s; [intros []|].
  cbn [plan_campaigns]. rewrite in_app_iff. intros [H|H].
  - apply in_plan_metrics in H as (_ & -> & _). apply Nat.le_refl.
  - unfold removed in H. rewrite list_remove_head in H.
    apply IH in H. cbn. lia.
Qed.

(** The metrics a step records: the selected ones less those its
    campaign has completed in this run. *)
Lemma in_plan_campaigns_progress sd ed cs : forall camps ms ld s,
  In s (plan_campaigns selected sd ed cs camps ms ld) ->
  exists ms' j,
    (ms' = ms \/ ms' = selected)
    /\ nth_error ms' j = Some (step_metric s)
    /\ step_metrics s = removed_all (firstn j ms') selected.
Proof.
  induction cs as [|cid cs IH]; intros camps ms ld s; [intros []|].
  cbn [plan_campaigns]. rewrite in_app_iff. intros [H|H].
  - destruct (in_plan_metrics_progress _ _ _ _ _ _ _ _ H) as (j & Hj & Hm).
    exists ms, j. auto.
  - destruct (IH _ _ _ _ H) as (ms' & j & Hms & Hj & Hm).
    exists ms', j. split; [right; now destruct Hms|auto].
Qed.

Lemma starting_point_metrics st campaigns cs ms ld :
  starting_point c (Singer.get_bookmark st) selected campaigns
  = ret (cs, Some ms, ld) ->
  ms = selected \/ metrics_to_resume (Singer.get_bookmark st) = Some ms.
Proof.
  unfold starting_point.
  destruct (campaigns_to_resume (Singer.get_bookmark st)) as [[|x l]|];
    try (intros [= _ <- _]; now left).
  destruct (date_to_resume (Singer.get_bookmark st)) as [ds|].
  - destruct (String.eqb ds "").
    + rewrite bind_ret. intros [= _ -> _]. now right.
    + destruct (parse_pure (now c) ds) as [[z ->]|[e ->]]; [|discriminate].
      rewrite !bind_ret. intros [= _ -> _]. now right.
  - rewrite bind_ret. intros [= _ -> _]. now right.
Qed.

Lemma removed_all_keeps done : forall l y,
  In y l -> ~ In y done -> In y (removed_all done l).
Proof.
  induction done as [|m done IH]; intros l y Hy Hn; [assumption|].
  cbn. apply IH.
  - unfold removed. destruct (list_remove m l) as [r|] eqn:Hr; [|assumption].
    clear IH. revert r Hr. induction l as [|z l IHl]; intros r Hr.
    + discriminate.
    + cbn in Hr. destruct (String.eqb_spec z m) as [->|Hz].
      * injection Hr as <-. destruct Hy as [->|Hy]; [|assumption].
        exfalso. apply Hn. now left.
      * destruct (list_remove m l) as [r'|]; [|discriminate].
        injection Hr as <-. destruct Hy as [->|Hy]; [now left|].
        right. now apply IHl.
  - intros Hin. apply Hn. now right.
Qed.

(** C10, as the code has it: checkpoints of the campaign resumed at.
    A checkpoint written while the first campaign of a restarted run is
    processed records, as [metrics_to_resume], the selected metrics less
    those the restarted run has completed so far: all of them during the
    first resumed metric, and in any case every selected metric that was
    absent from the bookmark's remaining list. *)
Theorem resumed_campaign_checkpoints st campaigns x l remaining
    pre ck post :
  campaigns_to_resume (Singer.get_bookmark st) = Some (x :: l) ->
  metrics_to_resume (Singer.get_bookmark st) = Some remaining ->
  trace (sync_metrics sch c st campaigns) = pre ++ WriteState ck :: post ->
  campaigns_to_resume (Singer.get_bookmark ck) = Some (x :: l) ->
  exists j metric,
    nth_error remaining j = Some metric
    /\ (exists pre0 date,
          pre = pre0 ++ trace (sync_metric c x metric date))
    /\ metrics_to_resume (Singer.get_bookmark ck)
       = Some (removed_all (firstn j remaining) selected)
    /\ (j = 0%nat ->
        metrics_to_resume (Singer.get_bookmark ck) = Some selected)
    /\ (forall y, In y selected -> ~ In y remaining ->
                  exists now_remaining,
                    metrics_to_resume (Singer.get_bookmark ck)
                    = Some now_remaining /\ In y now_remaining).
Proof.
  intros Hc Hm H Hck.
  destruct (sync_metrics_checkpoint st campaigns pre ck post H)
    as (sd0 & ed & cs & ms & ld & before & s & after
        & _ & _ & Hsp & _ & Hplan & -> & -> & _).
  assert (Hparams : cs = x :: l /\ ms = remaining).
  { unfold starting_point in Hsp. rewrite Hc, Hm in Hsp.
    destruct (date_to_resume (Singer.get_bookmark st)) as [ds|].
    - destruct (String.eqb ds "").
      + rewrite bind_ret in Hsp. now injection Hsp as <- <- _.
      + destruct (parse_pure (now c) ds) as [[z Hz]|[e Hz]];
          rewrite Hz in Hsp; [|discriminate].
        rewrite !bind_ret in Hsp. now injection Hsp as <- <- _.
    - rewrite bind_ret in Hsp. now injection Hsp as <- <- _. }
  destruct Hparams as [-> ->].
  assert (Hin : In s (plan_campaigns selected sd0 ed (x :: l) (x :: l)
                        remaining ld))
    by (rewrite Hplan; apply in_elt).
  cbn [plan_campaigns] in Hin. apply in_app_iff in Hin as [Hin|Hin].
  2:{ exfalso. unfold removed in Hin. rewrite list_remove_head in Hin.
      apply in_plan_campaigns_length in Hin.
      cbn in Hck. injection Hck as Hck. rewrite Hck in Hin.
      cbn in Hin. lia. }
  destruct (in_plan_metrics _ _ _ _ _ _ _ _ Hin) as (Hcid & _ & _).
  destruct (in_plan_metrics_progress _ _ _ _ _ _ _ _ Hin) as (j & Hj & Hmets).
  exists j, (step_metric s). split; [assumption|]. split; [|split; [|split]].
  - exists (flat_map (step_events c st) before),
      (Pendulum.date_string (step_date s)).
    unfold step_sync. now rewrite Hcid.
  - cbn. now rewrite Hmets.
  - intros ->. cbn. now rewrite Hmets.
  - intros y Hy Hn. eexists. split; [cbn; rewrite Hmets; reflexivity|].
    apply removed_all_keeps; [assumption|].
    intros Hf. apply Hn. rewrite <- (firstn_skipn j remaining).
    apply in_or_app. now left.
Qed.

End SyncMetricsFacts.

(** ** Runs that go through *)

Lemma subseq_refl l : subseq l l.
Proof. induction l; constructor; assumption. Qed.

Lemma subseq_incl l1 l2 : subseq l1 l2 -> incl l1 l2.
Proof.
  induction 1 as [|x l1 l2 _ IH|x l1 l2 _ IH].
  - apply incl_refl.
  - intros y [->|Hy]; [now left|right; now apply IH].
  - now apply incl_tl.
Qed.

Lemma subseq_tail x l1 l2 : subseq (x :: l1) l2 -> subseq l1 l2.
Proof.
  intros H. remember (x :: l1) as l eqn:Hl. revert x l1 Hl.
  induction H as [|y l1' l2 H IH|y l1' l2 H IH]; intros x l1 Hl.
  - discriminate.
  - injection Hl as -> ->. now constructor.
  - constructor. now apply (IH x).
Qed.

(** Removing the head of a subsequence from the list leaves the rest of
    the subsequence in it. *)
Lemma subseq_remove m l1 l2 :
  subseq (m :: l1) l2 ->
  exists r, list_remove m l2 = Some r /\ subseq l1 r.
Proof.
  intros H. remember (m :: l1) as l eqn:Hl. revert m l1 Hl.
  induction H as [|y l1' l2 H IH|y l1' l2 H IH]; intros m l1 Hl.
  - discriminate.
  - injection Hl as -> ->. exists l2. now rewrite list_remove_head.
  - subst l1'. cbn. destruct (String.eqb_spec y m) as [->|Hy].
    + exists l2. split; [reflexivity|]. now apply subseq_tail in H.
    + destruct (IH m l1 eq_refl) as (r & -> & Hr).
      exists (y :: r). split; [reflexivity|]. now constructor.
Qed.

Lemma list_remove_subseq x l r : list_remove x l = Some r -> subseq r l.
Proof.
  revert r. induction l as [|y l IH]; cbn; intros r H; [discriminate|].
  destruct (String.eqb y x).
  - injection H as <-. constructor. apply subseq_refl.
  - destruct (list_remove x l) as [r'|]; [|discriminate].
    injection H as <-. constructor. now apply IH.
Qed.

Lemma subseq_trans l1 l2 l3 : subseq l1 l2 -> subseq l2 l3 -> subseq l1 l3.
Proof.
  intros H12 H23. revert l1 H12.
  induction H23 as [|x l2 l3 H IH|x l2 l3 H IH]; intros l1 H12.
  - assumption.
  - inversion H12; subst; constructor; auto.
  - constructor. auto.
Qed.

Lemma removed_subseq x l : subseq (removed x l) l.
Proof.
  unfold removed. destruct (list_remove x l) eqn:H.
  - eapply list_remove_subseq; eassumption.
  - apply subseq_refl.
Qed.

(** Where the head of a subsequence sits in the list. *)
Lemma subseq_split m l1 l2 :
  subseq (m :: l1) l2 ->
  exists a b, l2 = a ++ m :: b /\ subseq l1 b.
Proof.
  intros H. remember (m :: l1) as l eqn:Hl. revert m l1 Hl.
  induction H as [|y l1' l2 H IH|y l1' l2 H IH]; intros m l1 Hl.
  - discriminate.
  - injection Hl as -> ->. now exists [], l2.
  - destruct (IH m l1 Hl) as (a & b & -> & Hb). now exists (y :: a), b.
Qed.

Section Complete.
Variable c : ctx.
Variable st0 : state.
Variable metrics_selected : list string.
Variable sd end_date : Pendulum.DateTime.

Lemma step_complete st s time :
  same_rest st st0 -> step_ok c s ->
  (step_sync c s ;;
   d <- Pendulum.add_days (Pendulum.mkDateTime (step_date s) time) 1 ;;
   write_metrics_state st (step_campaigns s) (step_metrics s) d)
  = (step_events c st0 s, inr (step_checkpoint st0 s)).
Proof.
  intros Hst [Hsync Hr]. unfold Pendulum.add_days.
  cbn [Pendulum.day Pendulum.time]. rewrite Hr.
  rewrite bind_ret, (write_metrics_state_checkpoint st0) by assumption.
  unfold outcome in Hsync. unfold step_events, trace.
  destruct (step_sync c s) as [t o]. cbn [snd] in Hsync. subst o.
  reflexivity.
Qed.

Lemma while_dates_complete campaigns metrics campaign_id metric n :
  forall st d,
    same_rest st st0 ->
    Forall (step_ok c)
      (map (fun d => mkStep campaign_id metric d campaigns metrics)
           (days_from (Pendulum.day d) n)) ->
    exists st',
      same_rest st' st0
      /\ while_dates c n st campaigns metrics campaign_id metric d
         = (flat_map (step_events c st0)
              (map (fun d => mkStep campaign_id metric d campaigns metrics)
                   (days_from (Pendulum.day d) n)),
            inr st').
Proof.
  induction n as [|n IH]; intros st [z t] Hst Hok.
  - now exists st.
  - rewrite while_dates_S, days_from_S in *.
    cbn [map Pendulum.day Pendulum.time] in *.
    inversion_clear Hok as [|? ? Hs Hok'].
    pose proof (step_complete st _ t Hst Hs) as Hstep.
    cbn [step_date step_campaigns step_metrics] in Hstep.
    rewrite Hstep.
    destruct (IH (step_checkpoint st0
                    (mkStep campaign_id metric z campaigns metrics))
                 (Pendulum.mkDateTime (z + 1) t)
                 (same_rest_checkpoint _ _ _ _) Hok')
      as (st' & Hst' & Hrun).
    exists st'. split; [assumption|].
    unfold bind. cbn [fst snd flat_map]. now rewrite Hrun.
Qed.

Lemma for_metrics_complete campaigns campaign_id ms :
  forall st metrics ld,
    same_rest st st0 ->
    subseq ms metrics ->
    Forall (step_ok c)
      (plan_metrics sd end_date campaign_id campaigns ms metrics ld) ->
    exists st',
      same_rest st' st0
      /\ for_metrics c (Date sd) end_date ms st campaigns metrics
           campaign_id ld
         = (flat_map (step_events c st0)
              (plan_metrics sd end_date campaign_id campaigns ms metrics ld),
            inr (st', last_date_after ms ld)).
Proof.
  induction ms as [|m ms IH]; intros st metrics ld Hst Hsub Hok.
  - now exists st.
  - cbn [for_metrics plan_metrics last_date_after] in *.
    apply Forall_app in Hok as [Hok1 Hok2].
    assert (Hdate : match ld with Some d => Date d | None => Date sd end
                    = Date (first_date sd ld)) by now destruct ld.
    rewrite Hdate.
    destruct (while_dates_complete campaigns metrics campaign_id m
                (days_through (first_date sd ld) end_date) st
                (first_date sd ld) Hst Hok1) as (st1 & Hst1 & Hrun1).
    destruct (subseq_remove _ _ _ Hsub) as (r & Hr & Hsub').
    unfold removed in *. unfold remove. rewrite Hr in *.
    destruct (IH st1 r None Hst1 Hsub' Hok2) as (st2 & Hst2 & Hrun2).
    exists st2. split; [assumption|].
    unfold plan_dates, date_range.
    rewrite (bind_ok _ _ _ _ Hrun1), bind_ret, Hrun2.
    cbn [fst snd]. now rewrite flat_map_app, last_date_after_None.
Qed.

Lemma for_campaigns_complete cs :
  forall st ms ld,
    same_rest st st0 ->
    subseq ms metrics_selected ->
    Forall (step_ok c)
      (plan_campaigns metrics_selected sd end_date cs cs ms ld) ->
    exists st',
      for_campaigns c metrics_selected (Date sd) end_date cs st cs
        (Some ms) ld
      = (flat_map (step_events c st0)
           (plan_campaigns metrics_selected sd end_date cs cs ms ld),
         inr st').
Proof.
  induction cs as [|cid cs IH]; intros st ms ld Hst Hsub Hok.
  - now exists st.
  - cbn [for_campaigns plan_campaigns] in *.
    unfold removed in *. unfold remove. rewrite list_remove_head in *.
    apply Forall_app in Hok as [Hok1 Hok2].
    destruct (for_metrics_complete (cid :: cs) cid ms st metrics_selected
                ld Hst Hsub Hok1) as (st1 & Hst1 & Hrun1).
    destruct (IH st1 metrics_selected (last_date_after ms ld) Hst1
                (subseq_refl _) Hok2) as (st2 & Hrun2).
    exists st2.
    rewrite (bind_ok _ _ _ _ Hrun1), bind_ret. cbn [fst snd].
    (* the loop over the other campaigns is the one of [cs] alone *)
    now rewrite Hrun2, flat_map_app.
Qed.
End Complete.

(** ** What a plan covers *)

Lemma days_from_split n : forall a l1 d l2,
  days_from a n = l1 ++ d :: l2 ->
  a <= d /\ forall d', In d' l2 -> d < d' < a + Z.of_nat n.
Proof.
  induction n as [|n IH]; intros a l1 d l2 H.
  - destruct l1; discriminate.
  - rewrite days_from_S in H. destruct l1 as [|x l1]; injection H as -> H.
    + subst l2. split; [lia|]. intros d' Hd'. apply in_days_from in Hd'. lia.
    + destruct (IH _ _ _ _ H) as [Ha Hl]. split; [lia|].
      intros d' Hd'. specialize (Hl d' Hd'). lia.
Qed.

Lemma covers_app_l p1 p2 x m d : covers p1 x m d -> covers (p1 ++ p2) x m d.
Proof.
  intros (s & Hs & H). exists s. split; [|assumption].
  apply in_or_app. now left.
Qed.

Lemma covers_app_r p1 p2 x m d : covers p2 x m d -> covers (p1 ++ p2) x m d.
Proof.
  intros (s & Hs & H). exists s. split; [|assumption].
  apply in_or_app. now right.
Qed.

Lemma covers_in plan s :
  In s plan ->
  covers plan (step_campaign s) (step_metric s) (step_date s).
Proof. intros H. now exists s. Qed.


Lemma in_plan_dates end_date cid m camps mets from s :
  In s (plan_dates end_date cid m camps mets from) <->
  exists d, Pendulum.day from <= d <= last_day from end_date
            /\ s = mkStep cid m d camps mets.
Proof.
  unfold plan_dates. rewrite in_map_iff. split.
  - intros (d & <- & Hd). apply in_date_range in Hd. now exists d.
  - intros (d & Hd & ->). exists d. split; [reflexivity|].
    now apply in_date_range.
Qed.

Section PlanFacts.
Variable metrics_selected : list string.
Variable sd end_date : Pendulum.DateTime.

(** The last day of the loops that start from the start date. *)
Let L := last_day sd end_date.

Lemma in_run_None : in_run sd end_date None.
Proof. split; cbn; lia. Qed.

Lemma in_run_midnight D :
  Pendulum.day sd <= D -> in_run sd end_date (Some (Pendulum.at_midnight D)).
Proof.
  intros H. split; [assumption|]. cbn [first_date].
  rewrite last_day_midnight. apply last_day_bounds.
Qed.

Lemma plan_metrics_dates cid camps ms : forall mets ld s,
  in_run sd end_date ld ->
  In s (plan_metrics sd end_date cid camps ms mets ld) ->
  Pendulum.day sd <= step_date s <= Pendulum.day end_date.
Proof.
  induction ms as [|m ms IH]; intros mets ld s Hld; [intros []|].
  cbn [plan_metrics]. rewrite in_app_iff. intros [H|H].
  - apply in_plan_dates in H as (d & Hd & ->).
    pose proof (last_day_bounds (first_date sd ld) end_date).
    destruct Hld as [Hld _]. cbn. lia.
  - apply (IH (removed m mets) None); [apply in_run_None|assumption].
Qed.

(** The loops that start from the start date stay within its days. *)
Lemma plan_metrics_dates_start cid camps ms : forall mets s,
  In s (plan_metrics sd end_date cid camps ms mets None) ->
  Pendulum.day sd <= step_date s <= L.
Proof.
  induction ms as [|m ms IH]; intros mets s; [intros []|].
  cbn [plan_metrics]. rewrite in_app_iff. intros [H|H].
  - apply in_plan_dates in H as (d & Hd & ->). exact Hd.
  - now apply (IH (removed m mets)).
Qed.

Lemma covers_plan_metrics_head cid camps m tl mets ld d :
  Pendulum.day (first_date sd ld) <= d
  <= last_day (first_date sd ld) end_date ->
  covers (plan_metrics sd end_date cid camps (m :: tl) mets ld) cid m d.
Proof.
  intros Hd. cbn [plan_metrics]. apply covers_app_l.
  exists (mkStep cid m d camps mets). split; [|now cbn].
  apply in_plan_dates. now exists d.
Qed.

Lemma covers_plan_metrics_any cid camps ms : forall mets ld m d,
  In m ms -> in_run sd end_date ld ->
  Pendulum.day sd <= d <= L ->
  Pendulum.day (first_date sd ld) <= d ->
  covers (plan_metrics sd end_date cid camps ms mets ld) cid m d.
Proof.
  induction ms as [|m0 ms IH]; intros mets ld m d Hm Hr Hd Hld;
    [destruct Hm|].
  destruct Hm as [->|Hm].
  - apply covers_plan_metrics_head. destruct Hr as [_ Hr].
    unfold L in Hd. lia.
  - cbn [plan_metrics]. apply covers_app_r.
    apply IH; [assumption|apply in_run_None|assumption|cbn; lia].
Qed.

Lemma covers_plan_metrics_tail cid camps m0 tl mets ld m d :
  In m tl -> Pendulum.day sd <= d <= L ->
  covers (plan_metrics sd end_date cid camps (m0 :: tl) mets ld) cid m d.
Proof.
  intros Hm Hd. cbn [plan_metrics]. apply covers_app_r.
  apply covers_plan_metrics_any;
    [assumption|apply in_run_None|assumption|cbn; lia].
Qed.

Lemma in_run_after ms ld :
  in_run sd end_date ld -> in_run sd end_date (last_date_after ms ld).
Proof. destruct ms; cbn; [auto|intros _; apply in_run_None]. Qed.

Lemma in_plan_campaigns cs : forall camps ms ld s,
  in_run sd end_date ld ->
  In s (plan_campaigns metrics_selected sd end_date cs camps ms ld) ->
  In (step_campaign s) cs
  /\ (In (step_metric s) ms \/ In (step_metric s) metrics_selected)
  /\ Pendulum.day sd <= step_date s <= Pendulum.day end_date.
Proof.
  induction cs as [|cid cs IH]; intros camps ms ld s Hld; [intros []|].
  cbn [plan_campaigns]. rewrite in_app_iff. intros [H|H].
  - pose proof (plan_metrics_dates _ _ _ _ _ _ Hld H) as Hd.
    apply in_plan_metrics in H as (-> & _ & Hm).
    split; [now left|]. split; [now left|assumption].
  - apply IH in H as (Hc & Hm & Hd); [|now apply in_run_after].
    split; [now right|]. split; [|assumption].
    right. now destruct Hm.
Qed.

Lemma plan_campaigns_dates_start cs : forall camps ms s,
  In s (plan_campaigns metrics_selected sd end_date cs camps ms None) ->
  Pendulum.day sd <= step_date s <= L.
Proof.
  induction cs as [|cid cs IH]; intros camps ms s; [intros []|].
  cbn [plan_campaigns]. rewrite in_app_iff, last_date_after_None.
  intros [H|H].
  - now apply plan_metrics_dates_start in H.
  - now apply IH in H.
Qed.

Lemma covers_plan_campaigns cs : forall camps x m d,
  In x cs -> In m metrics_selected ->
  Pendulum.day sd <= d <= L ->
  covers (plan_campaigns metrics_selected sd end_date cs camps
            metrics_selected None) x m d.
Proof.
  induction cs as [|cid cs IH]; intros camps x m d Hx Hm Hd; [destruct Hx|].
  cbn [plan_campaigns]. destruct Hx as [->|Hx].
  - apply covers_app_l.
    apply covers_plan_metrics_any; auto using in_run_None. cbn. lia.
  - apply covers_app_r. rewrite last_date_after_None. now apply IH.
Qed.

(** What is left of a campaign after one of its checkpoints, as far as
    the days of the start date's loops go, is covered by the metrics and
    the date that checkpoint records, read at midnight. *)
Lemma plan_metrics_resume cid camps ms :
  forall mets ld before s after,
    plan_metrics sd end_date cid camps ms mets ld = before ++ s :: after ->
    subseq ms mets ->
    in_run sd end_date ld ->
    step_metrics s <> []
    /\ subseq (step_metrics s) mets
    /\ forall camps' mets' s',
         In s' after -> step_date s' <= L ->
         covers (plan_metrics sd end_date cid camps' (step_metrics s) mets'
                   (Some (Pendulum.at_midnight (step_date s + 1))))
                (step_campaign s') (step_metric s') (step_date s').
Proof.
  induction ms as [|m ms IH]; intros mets ld before s after H Hsub Hld.
  - destruct before; discriminate.
  - cbn [plan_metrics] in H.
    destruct (subseq_remove _ _ _ Hsub) as (r & Hr & Hsub').
    assert (Hremoved : removed m mets = r) by (unfold removed; now rewrite Hr).
    rewrite Hremoved in H.
    apply app_eq_middle in H as [(after1 & H1 & ->)|(before2 & -> & H2)].
    + unfold plan_dates in H1.
      apply map_eq_app in H1 as (l1 & l2' & Hrange & <- & Hmap).
      destruct l2' as [|d l2]; [discriminate|].
      cbn [map] in Hmap. injection Hmap as <- <-.
      unfold date_range in Hrange.
      apply days_from_split in Hrange as [Hfrom Hlater].
      cbn [step_metrics step_date].
      destruct (subseq_split _ _ _ Hsub) as (a & b & -> & Hb).
      split; [now destruct a|]. split; [apply subseq_refl|].
      intros camps' mets' s' Hs' HL. apply in_app_iff in Hs' as [Hs'|Hs'].
      * apply in_map_iff in Hs' as (d' & <- & Hd').
        cbn [step_campaign step_metric step_date] in *.
        specialize (Hlater d' Hd'). destruct Hld as [Hld _].
        destruct a as [|a0 a].
        -- apply covers_plan_metrics_head. cbn [first_date].
           rewrite last_day_midnight.
           pose proof (last_day_bounds sd end_date). unfold L in HL.
           cbn. lia.
        -- apply covers_plan_metrics_tail; [|lia].
           apply in_or_app. right. now left.
      * pose proof (plan_metrics_dates_start _ _ _ _ _ Hs') as Hd0.
        apply in_plan_metrics in Hs' as (-> & _ & Hm).
        apply subseq_incl in Hb. apply Hb in Hm.
        destruct a as [|a0 a].
        -- now apply covers_plan_metrics_tail.
        -- apply covers_plan_metrics_tail; [|assumption].
           apply in_or_app. right. now right.
    + destruct (IH r None before2 s after H2 Hsub' in_run_None)
        as (Hne & Hs & Hcov).
      split; [assumption|]. split; [|assumption].
      eapply subseq_trans; [eassumption|].
      eapply list_remove_subseq; eassumption.
Qed.

(** What is left of a run after one of its checkpoints, as far as the
    days of the start date's loops go, is covered by the run that
    restarts from it. *)
Lemma plan_campaigns_resume cs :
  forall ms ld before s after,
    plan_campaigns metrics_selected sd end_date cs cs ms ld
    = before ++ s :: after ->
    subseq ms metrics_selected ->
    in_run sd end_date ld ->
    step_metrics s <> []
    /\ subseq (step_metrics s) metrics_selected
    /\ (exists rest, step_campaigns s = step_campaign s :: rest)
    /\ incl (step_campaigns s) cs
    /\ forall s',
         In s' after -> step_date s' <= L ->
         covers (plan_campaigns metrics_selected sd end_date
                   (step_campaigns s) (step_campaigns s) (step_metrics s)
                   (Some (Pendulum.at_midnight (step_date s + 1))))
                (step_campaign s') (step_metric s') (step_date s').
Proof.
  induction cs as [|cid cs IH]; intros ms ld before s after H Hsub Hld.
  - destruct before; discriminate.
  - cbn [plan_campaigns] in H.
    unfold removed in H. rewrite list_remove_head in H.
    apply app_eq_middle in H as [(after1 & H1 & ->)|(before2 & -> & H2)].
    + assert (Hin : In s (plan_metrics sd end_date cid (cid :: cs) ms
                            metrics_selected ld))
        by (rewrite H1; apply in_elt).
      destruct (in_plan_metrics _ _ _ _ _ _ _ _ Hin) as (Hcid & Hcamps & _).
      destruct (plan_metrics_resume _ _ _ _ _ _ _ _ H1 Hsub Hld)
        as (Hne & Hs & Hcov).
      split; [assumption|]. split; [assumption|].
      split; [exists cs; now rewrite Hcid, Hcamps|].
      split; [rewrite Hcamps; apply incl_refl|].
      rewrite Hcamps. cbn [plan_campaigns].
      unfold removed. rewrite list_remove_head.
      intros s' Hs' HL. apply in_app_iff in Hs' as [Hs'|Hs'].
      * apply covers_app_l. now apply Hcov.
      * apply covers_app_r.
        assert (Hms : last_date_after ms ld = None).
        { destruct ms; [destruct Hin|reflexivity]. }
        assert (Hsm : last_date_after (step_metrics s)
                        (Some (Pendulum.at_midnight (step_date s + 1)))
                      = None).
        { now destruct (step_metrics s). }
        rewrite Hsm. rewrite Hms in Hs'. now apply covers_in.
    + destruct (IH metrics_selected (last_date_after ms ld) before2 s after
                  H2 (subseq_refl _) (in_run_after _ _ Hld))
        as (Hne & Hs & Hhead & Hincl & Hcov).
      repeat split; auto. now apply incl_tl.
Qed.
End PlanFacts.

(** ** Restarting from a checkpoint *)

Lemma date_string_not_empty d : Pendulum.date_string d <> "".
Proof.
  unfold Pendulum.date_string.
  destruct (Pendulum.civil_from_days d) as [[y m] dd]. discriminate.
Qed.

Lemma answered_ok c x m ds :
  answered c x m ds -> outcome (sync_metric c x m ds) = inr tt.
Proof.
  intros (k & ids & Hk & Hempty & Hready).
  rewrite sync_metric_unfold.
  now rewrite (poll_ready c _ 10 0 k ids Hk Hempty Hready).
Qed.

(** The records of the steps of a plan that went through. *)
Lemma plan_events_records c st plan :
  Forall (step_ok c) plan ->
  records_of (flat_map (step_events c st) plan)
  = flat_map (expected_records c) (map step_cell plan).
Proof.
  induction 1 as [|s plan [Hs _] _ IH]; [reflexivity|].
  cbn [flat_map map]. rewrite records_of_app, IH. f_equal.
  unfold step_events. rewrite records_of_app. cbn [records_of].
  rewrite app_nil_r. now apply sync_metric_expected.
Qed.

Section Resumption.
Variable sch : schemas.
Variable c : ctx.
Variable st0 : state.
Variable campaigns : list campaign.
Variable sd ed : Pendulum.DateTime.

Let selected := metrics_selected_of sch c.
Let live := live_campaigns campaigns.

Hypothesis start_parsed :
  @Pendulum.parse event (now c) (config_date (start_date (cfg c))) = ret sd.
Hypothesis end_parsed :
  @Pendulum.parse event (now c) (config_date (end_date (cfg c))) = ret ed.

(** What a restart has ahead of it after the checkpoint of a step. *)
Lemma plan_ahead_checkpoint st s :
  Pendulum.in_range (step_date s + 1) = true ->
  plan_ahead sch c sd ed (step_checkpoint st s)
  = plan_campaigns selected sd ed (step_campaigns s) (step_campaigns s)
      (step_metrics s) (Some (Pendulum.at_midnight (step_date s + 1))).
Proof.
  intros Hr. unfold plan_ahead, step_checkpoint, checkpoint.
  cbn [Singer.get_bookmark metrics_bookmark campaigns_to_resume
       metrics_to_resume date_to_resume].
  now rewrite PendulumFacts.parse_iso_date_string.
Qed.

(** The checkpoint of a step of a plan, with what was emitted before the
    plan started. *)
Lemma checkpoint_covered st cs ms ld emitted before s after :
  last_metric_date (Singer.get_bookmark st) = None ->
  incl cs live -> subseq ms selected -> in_run sd ed ld ->
  plan_campaigns selected sd ed cs cs ms ld = before ++ s :: after ->
  Forall (step_ok c) (before ++ [s]) ->
  (forall x m d,
      In x live -> In m selected ->
      Pendulum.day sd <= d <= last_day sd ed ->
      In (x, m, Pendulum.date_string d) (cells_of emitted)
      \/ covers (plan_campaigns selected sd ed cs cs ms ld) x m d) ->
  (forall x, In x (cells_of emitted) ->
             exists s, x = step_cell s /\ In (step_campaign s) live
                       /\ In (step_metric s) selected
                       /\ Pendulum.day sd <= step_date s
                          <= Pendulum.day ed) ->
  records_of emitted = flat_map (expected_records c) (cells_of emitted) ->
  covered sch c campaigns sd ed
    (emitted ++ flat_map (step_events c st) before ++ trace (step_sync c s))
    (step_checkpoint st s).
Proof.
  intros Hlast Hcs Hsub Hld Hplan Hok Hcov Hin Hrec.
  destruct (plan_campaigns_resume _ _ _ _ _ _ _ _ _ Hplan Hsub Hld)
    as (Hmne & Hmsub & (rest & Hhead) & Hincl & Hafter).
  assert (Hs : In s (plan_campaigns selected sd ed cs cs ms ld))
    by (rewrite Hplan; apply in_elt).
  destruct (in_plan_campaigns _ _ _ _ _ _ _ _ Hld Hs) as (_ & _ & Hd).
  assert (Hsok : step_ok c s).
  { apply Forall_app in Hok as [_ Hok]. now inversion Hok. }
  assert (Hpre : cells_of (flat_map (step_events c st) before
                           ++ trace (step_sync c s))
                 = map step_cell (before ++ [s])).
  { rewrite cells_of_app, plan_events_cells, map_app. f_equal.
    apply sync_metric_cells. }
  split; [|split; [|split]].
  - exists (step_campaigns s), (step_metrics s), (step_date s + 1).
    split; [cbn; now rewrite Hlast|].
    split; [rewrite Hhead; discriminate|].
    split; [eapply incl_tran; eassumption|].
    split; [assumption|]. split; [assumption|].
    split; [lia|apply Hsok].
  - intros x m d Hx Hm Hdd.
    rewrite cells_of_app, Hpre.
    destruct (Hcov x m d Hx Hm Hdd) as [He|(s' & Hs' & <- & <- & <-)].
    { left. apply in_or_app. now left. }
    rewrite Hplan in Hs'. apply in_app_iff in Hs' as [Hs'|[<-|Hs']].
    + left. apply in_or_app. right. apply (in_map step_cell _ s').
      apply in_or_app. now left.
    + left. apply in_or_app. right. apply (in_map step_cell _ s).
      apply in_or_app. right. now left.
    + right. rewrite plan_ahead_checkpoint by apply Hsok.
      apply Hafter; [assumption|lia].
  - intros x Hx. rewrite cells_of_app, Hpre in Hx.
    apply in_app_iff in Hx as [Hx|Hx]; [now apply Hin|].
    apply in_map_iff in Hx as (s' & <- & Hs').
    assert (Hp : In s' (plan_campaigns selected sd ed cs cs ms ld)).
    { rewrite Hplan. apply in_app_iff in Hs' as [Hs'|[<-|[]]].
      - apply in_or_app. now left.
      - apply in_elt. }
    destruct (in_plan_campaigns _ _ _ _ _ _ _ _ Hld Hp) as (Hc & Hm & Hdd).
    exists s'. repeat split; auto; try lia.
    destruct Hm as [Hm|Hm]; [|assumption].
    now apply (subseq_incl _ _ Hsub).
  - rewrite records_of_app, cells_of_app, flat_map_app, Hrec. f_equal.
    rewrite Hpre, records_of_app, map_app, flat_map_app.
    apply Forall_app in Hok as [Hok _].
    rewrite (plan_events_records c st before Hok). f_equal.
    cbn [map flat_map]. rewrite app_nil_r.
    destruct (sync_metric_expected c _ _ _ (proj1 Hsok)) as (_ & _ & Hr).
    exact Hr.
Qed.

Lemma for_campaigns_str s end_date cs : forall st camps ms,
  trace (for_campaigns c selected (DateStr s) end_date cs st camps ms None)
  = [].
Proof.
  induction cs as [|cid cs IH]; intros st camps ms; [reflexivity|].
  cbn [for_campaigns]. destruct ms as [[|m ms]|]; try reflexivity.
  cbn [for_metrics]. rewrite bind_ret. cbn [fst snd].
  unfold remove. destruct (list_remove cid camps); [|reflexivity].
  rewrite bind_ret. apply IH.
Qed.

Lemma fresh_recorded_trace st campaigns' s :
  resumes st = false ->
  last_metric_date (Singer.get_bookmark st) = Some s ->
  trace (sync_metrics sch c st campaigns') = [].
Proof.
  intros Hfresh Hlast.
  rewrite (sync_metrics_unfold sch c st campaigns' sd ed _ _ _
             start_parsed end_parsed
             (starting_point_fresh sch c st campaigns' Hfresh)).
  unfold trace at 1. cbn [fst]. unfold start_value. rewrite Hlast.
  apply for_campaigns_str.
Qed.

(** The checkpoint of a run, by the plan of that run. *)
Lemma run_checkpoint st campaigns' cs ms ld pre ck post :
  starting_point c (Singer.get_bookmark st) selected campaigns'
  = ret (cs, ms, ld) ->
  trace (sync_metrics sch c st campaigns') = pre ++ WriteState ck :: post ->
  exists ms' before s after,
    ms = Some ms'
    /\ plan_campaigns selected sd ed cs cs ms' ld = before ++ s :: after
    /\ pre = flat_map (step_events c st) before ++ trace (step_sync c s)
    /\ ck = step_checkpoint st s
    /\ Forall (step_ok c) (before ++ [s]).
Proof.
  intros Hsp H.
  destruct (sync_metrics_checkpoint sch c st campaigns' pre ck post H)
    as (sd0 & ed0 & cs0 & ms0 & ld0 & before & s & after
        & H1 & H2 & H3 & _ & Hplan & Hpre & Hck & Hok).
  rewrite start_parsed in H1. injection H1 as <-.
  rewrite end_parsed in H2. injection H2 as <-.
  fold selected in H3. rewrite Hsp in H3. injection H3 as -> -> ->.
  now exists ms0, before, s, after.
Qed.

Lemma starting_point_covered emitted ck campaigns' :
  covered sch c campaigns sd ed emitted ck ->
  exists cs ms D,
    starting_point c (Singer.get_bookmark ck) selected campaigns'
    = ret (cs, Some ms, Some (Pendulum.at_midnight D))
    /\ last_metric_date (Singer.get_bookmark ck) = None
    /\ incl cs live /\ subseq ms selected
    /\ Pendulum.day sd <= D <= Pendulum.day ed + 1
    /\ plan_ahead sch c sd ed ck
       = plan_campaigns selected sd ed cs cs ms
           (Some (Pendulum.at_midnight D)).
Proof.
  intros ((cs & ms & D & Hb & Hne & Hcs & _ & Hms & HD & Hr) & _).
  exists cs, ms, D. destruct cs as [|x l]; [congruence|].
  split; [|rewrite Hb; repeat split; auto; try lia].
  - unfold selected.
    rewrite (starting_point_resume sch c ck campaigns' x l
               (Pendulum.date_string D) (Pendulum.at_midnight D)).
    + now rewrite Hb.
    + now rewrite Hb.
    + now rewrite Hb.
    + apply date_string_not_empty.
    + now apply PendulumFacts.parse_to_date_string.
  - unfold plan_ahead. rewrite Hb.
    cbn [campaigns_to_resume metrics_to_resume date_to_resume].
    now rewrite PendulumFacts.parse_iso_date_string.
Qed.

(** The invariant holds at every checkpoint a crash can leave. *)
Lemma interrupted_covered emitted ck :
  interrupted sch c st0 campaigns emitted ck ->
  last_metric_date (Singer.get_bookmark st0) = None
  /\ covered sch c campaigns sd ed emitted ck.
Proof.
  induction 1 as [pre ck post Hfresh H
                 |emitted st campaigns' pre ck post _ [Hlast IH] H].
  - destruct (last_metric_date (Singer.get_bookmark st0)) as [s|] eqn:Hlast.
    { rewrite (fresh_recorded_trace st0 campaigns s Hfresh Hlast) in H.
      destruct pre; discriminate. }
    split; [reflexivity|].
    destruct (run_checkpoint st0 campaigns _ _ _ pre ck post
                (starting_point_fresh sch c st0 campaigns Hfresh) H)
      as (ms' & before & s & after & [= <-] & Hplan & -> & -> & Hok).
    change (flat_map (step_events c st0) before ++ trace (step_sync c s))
      with ([] ++ flat_map (step_events c st0) before
               ++ trace (step_sync c s)).
    apply (checkpoint_covered st0 live selected None [] before s after);
      auto using incl_refl, subseq_refl, in_run_None.
    + intros x m d Hx Hm Hd. right. now apply covers_plan_campaigns.
    + intros x [].
  - split; [assumption|].
    destruct (starting_point_covered emitted st campaigns' IH)
      as (cs & ms & D & Hsp & Hl & Hcs & Hms & HD & Hahead).
    destruct IH as (_ & Hcov & Hin & Hrec). rewrite Hahead in Hcov.
    destruct (run_checkpoint st campaigns' _ _ _ pre ck post Hsp H)
      as (ms' & before & s & after & [= <-] & Hplan & -> & -> & Hok).
    apply (checkpoint_covered st cs ms (Some (Pendulum.at_midnight D))
             emitted before s after); auto.
    apply in_run_midnight. lia.
Qed.
End Resumption.

Section FlushThenCheckpoint.
Variable sch : schemas.
Variable c : ctx.

Let selected := metrics_selected_of sch c.

(** C7: flush, then checkpoint.  In any run, from any state, a
    persisted checkpoint comes right after the events of a cell the API
    answered: the job, the polls, and the sink write of the cell's
    records as the API reported them, with its counter.  That cell is
    the last one started, and the sink holds the records of every cell
    started before the checkpoint.  The checkpoint names the campaign of
    that cell as the first to resume, the day after that cell's as the
    date to resume at, and as metrics the selected ones less those the
    campaign has completed in this run; the rest of the state is as the
    run found it.  And along the runs of a tap that started fresh and was
    interrupted any number of times, no checkpoint claims more than was
    emitted: every cell of the run (a live campaign, a selected metric,
    and a day from the start day on which the start date, moved to that
    day, passes the guard of line 232) is either ahead of the
    checkpoint, so that a restart syncs it, or was emitted before the
    checkpoint, and the sink holds the records of all the cells
    emitted. *)
Theorem checkpoint_follows_flush :
  (forall st campaigns pre ck post,
      trace (sync_metrics sch c st campaigns)
      = pre ++ WriteState ck :: post ->
      exists pre0 campaign_id metric d rest ms j,
        let x := (campaign_id, metric, Pendulum.date_string d) in
        pre = pre0 ++ expected_events c x
        /\ expected_events c x <> []
        /\ cells_of pre = cells_of pre0 ++ [x]
        /\ records_of pre = flat_map (expected_records c) (cells_of pre)
        /\ ck = checkpoint st (campaign_id :: rest)
                  (removed_all (firstn j ms) selected) (d + 1)
        /\ nth_error ms j = Some metric
        /\ (ms = selected
            \/ metrics_to_resume (Singer.get_bookmark st) = Some ms))
  /\ (forall st0 campaigns sd ed emitted ck,
        @Pendulum.parse event (now c) (config_date (start_date (cfg c)))
        = ret sd ->
        @Pendulum.parse event (now c) (config_date (end_date (cfg c)))
        = ret ed ->
        interrupted sch c st0 campaigns emitted ck ->
        (forall x m d,
            In x (live_campaigns campaigns) -> In m selected ->
            Pendulum.day sd <= d ->
            Pendulum.le (Pendulum.mkDateTime d (Pendulum.time sd)) ed
            = true ->
            In (x, m, Pendulum.date_string d) (cells_of emitted)
            \/ covers (plan_ahead sch c sd ed ck) x m d)
        /\ records_of emitted
           = flat_map (expected_records c) (cells_of emitted)).
Proof.
  split.
  - intros st campaigns pre ck post H.
    destruct (sync_metrics_checkpoint sch c st campaigns pre ck post H)
      as (sd0 & ed & cs & ms & ld & before & s & after
          & _ & _ & Hsp & _ & Hplan & -> & -> & Hok).
    assert (Hin : In s (plan_campaigns selected sd0 ed cs cs ms ld))
      by (unfold selected; rewrite Hplan; apply in_elt).
    destruct (in_plan_campaigns_head sch c _ _ _ _ _ _ Hin)
      as (rest & Hr & _).
    destruct (in_plan_campaigns_progress sch c _ _ _ _ _ _ _ Hin)
      as (ms' & j & Hms & Hj & Hmets).
    pose proof Hok as Hok'.
    apply Forall_app in Hok' as [Hbefore Hs].
    inversion_clear Hs as [|? ? [Hs' _] _].
    destruct (sync_metric_expected c _ _ _ Hs') as (Ht & Hne & _).
    exists (flat_map (step_events c st) before), (step_campaign s),
      (step_metric s), (step_date s), rest, ms', j.
    cbn zeta. split; [|split; [|split; [|split; [|split; [|split]]]]].
    + unfold step_sync. now rewrite Ht.
    + exact Hne.
    + unfold step_sync. now rewrite cells_of_app, sync_metric_cells.
    + change (flat_map (step_events c st) before ++ trace (step_sync c s))
        with ([] ++ flat_map (step_events c st) before
                 ++ trace (step_sync c s)).
      rewrite app_nil_l, cells_of_app, records_of_app, flat_map_app,
        plan_events_cells, (plan_events_records c st before Hbefore).
      f_equal. unfold step_sync. rewrite sync_metric_cells.
      cbn [flat_map]. rewrite app_nil_r.
      now apply sync_metric_expected.
    + unfold step_checkpoint. now rewrite Hr, Hmets.
    + exact Hj.
    + destruct Hms as [-> | ->]; [|now left].
      now apply (starting_point_metrics sch c st campaigns cs ms ld).
  - intros st0 campaigns sd ed emitted ck Hs He Hint.
    destruct (interrupted_covered sch c st0 campaigns sd ed Hs He
                emitted ck Hint) as [_ (_ & Hcov & _ & Hrec)].
    split; [|assumption].
    intros x m d Hx Hm Hd Hg. apply last_day_guard in Hg. auto.
Qed.
End FlushThenCheckpoint.

Section Restart.
Variable sch : schemas.
Variable c : ctx.
Variable st0 : state.
Variable campaigns : list campaign.
Variable sd ed : Pendulum.DateTime.

Let selected := metrics_selected_of sch c.
Let live := live_campaigns campaigns.

Hypothesis start_parsed :
  @Pendulum.parse event (now c) (config_date (start_date (cfg c))) = ret sd.
Hypothesis end_parsed :
  @Pendulum.parse event (now c) (config_date (end_date (cfg c))) = ret ed.
Hypothesis start_in_range : Pendulum.in_range (Pendulum.day sd) = true.
Hypothesis end_in_range : Pendulum.in_range (Pendulum.day ed + 1) = true.
Hypothesis api_answers :
  forall x m d,
    In x live -> In m selected ->
    Pendulum.day sd <= d <= Pendulum.day ed ->
    answered c x m (Pendulum.date_string d).




End Restart.

(** ** The contact field resolver *)

Lemma mem_In x l : mem x l = true <-> In x l.
Proof.
  unfold mem. rewrite existsb_exists. split.
  - intros (y & Hy & Heq). apply String.eqb_eq in Heq. now subst.
  - intros H. exists x. split; [assumption|apply String.eqb_refl].
Qed.

Lemma keys_dict_set {V} k (v : V) d x :
  In x (keys (dict_set k v d)) <-> x = k \/ In x (keys d).
Proof.
  unfold keys. induction d as [|[k' v'] d IH]; cbn.
  - intuition.
  - destruct (String.eqb_spec k' k) as [->|Hk]; cbn; [intuition|].
    rewrite IH. intuition.
Qed.

Section Resolver.
Variable sch : schemas.
Variable c : ctx.

Lemma field_maps_keys raw_fields : forall acc x,
  In x (keys (fst (fold_left
    (fun maps raw =>
       let fid := raw_id raw in
       let fname := normalize_fieldname sch (raw_name raw) in
       let info := mkFieldInfo (application_type raw) fname fid in
       (dict_set fname info (fst maps), dict_set fid info (snd maps)))
    raw_fields acc)))
  <-> In x (keys (fst acc))
      \/ exists raw, In raw raw_fields
                     /\ normalize_fieldname sch (raw_name raw) = x.
Proof.
  induction raw_fields as [|raw l IH]; intros acc x; cbn [fold_left].
  - split; [now left|]. intros [H|(raw & [] & _)]. assumption.
  - rewrite IH. cbn [fst]. rewrite keys_dict_set. split.
    + intros [[->|H]|(raw' & Hin & Heq)].
      * right. exists raw. split; [now left|reflexivity].
      * now left.
      * right. exists raw'. split; [now right|assumption].
    + intros [H|(raw' & [<-|Hin] & Heq)].
      * left. now right.
      * left. left. now symmetry.
      * right. now exists raw'.
Qed.

Lemma available_iff prop :
  mem prop (keys (fst (field_maps sch (get_contacts_raw_fields sch c))))
  = true
  <-> has_descriptor sch c prop.
Proof.
  rewrite mem_In. unfold field_maps. rewrite field_maps_keys. cbn.
  unfold has_descriptor. intuition.
Qed.

Lemma dict_get_keys {V} k (d : list (string * V)) :
  In k (keys d) -> dict_get k d <> None.
Proof.
  unfold keys. induction d as [|[k' v'] d IH]; cbn; [intros []|].
  destruct (String.eqb_spec k' k); [discriminate|].
  intros [H|H]; [contradiction|now apply IH].
Qed.

(** The field selection ends in the error of the first selected property
    that is not available, if there is one, and in no error at all
    otherwise. *)
Lemma select_fields_spec name_map props : forall acc,
  (exists prop schema,
      In (prop, schema) props /\ is_selected schema = true
      /\ mem prop (keys name_map) = false
      /\ select_fields name_map (keys name_map) props acc
         = raise (Exception (missing_field_message prop)))
  \/ ((forall prop schema,
          In (prop, schema) props -> is_selected schema = true ->
          mem prop (keys name_map) = true)
      /\ exists fields,
           select_fields name_map (keys name_map) props acc = ret fields).
Proof.
  induction props as [|[prop schema] props IH]; intros acc.
  - right. split; [intros ? ? []|]. now exists acc.
  - cbn [select_fields].
    destruct (is_selected schema) eqn:Hsel.
    + destruct (mem prop (keys name_map)) eqn:Hmem; cbn [negb].
      * pose proof (dict_get_keys prop name_map
                      (proj1 (mem_In _ _) Hmem)) as Hget.
        destruct (dict_get prop name_map) as [info|]; [|congruence].
        destruct (IH (acc ++ [info]))
          as [(p & s & Hin & Hs & Hm & Hr)|(Hall & Hret)].
        -- left. exists p, s. repeat split; auto. now right.
        -- right. split; [|assumption].
           intros p s [[= <- <-]|Hin] Hs; eauto.
      * left. exists prop, schema. repeat split; auto. now left.
    + destruct (IH acc)
        as [(p & s & Hin & Hs & Hm & Hr)|(Hall & Hret)].
      * left. exists p, s. repeat split; auto. now right.
      * right. split; [|assumption].
        intros p s [[= <- <-]|Hin] Hs; [congruence|eauto].
Qed.

Lemma transform_items_raises fmap items : forall obj e,
  outcome (transform_items c fmap items obj) = inl e ->
  ~ names_missing_field e.
Proof.
  induction items as [|[fid value] items IH]; intros obj e;
    cbn [transform_items]; [discriminate|].
  destruct (mem fid ["id"; "uid"]); [apply IH|].
  destruct (dict_get fid fmap) as [info|];
    [|intros [= <-] [p Hp]; discriminate].
  destruct (String.eqb value ""); [rewrite bind_ret; apply IH|].
  destruct (String.eqb (field_type info) "date");
    [|rewrite bind_ret; apply IH].
  unfold Pendulum.parse.
  destruct (String.eqb value "now"); [rewrite !bind_ret; apply IH|].
  destruct (Pendulum.parse_iso value); [rewrite !bind_ret; apply IH|].
  intros [= <-] [p Hp]. discriminate.
Qed.

Lemma map_m_raises {A B} (f : A -> M event B) (P : exn -> Prop) l :
  (forall x e, outcome (f x) = inl e -> P e) ->
  forall e, outcome (map_m f l) = inl e -> P e.
Proof.
  intros Hf. induction l as [|x l IH]; intros e; cbn [map_m];
    [discriminate|].
  destruct (f x) as [t [e'|y]] eqn:Hx; unfold bind, outcome; cbn [fst snd].
  - intros [= <-]. apply (Hf x). now rewrite Hx.
  - destruct (map_m f l) as [t' [e'|ys]]; cbn [fst snd]; [|discriminate].
    intros [= <-]. now apply IH.
Qed.

Lemma paginate_contacts_raises fmap fields limit depth : forall offset e,
  outcome (paginate_contacts c depth fmap fields limit offset) = inl e ->
  ~ names_missing_field e.
Proof.
  induction depth as [|depth IH]; intros offset e; cbn [paginate_contacts].
  - intros [= <-] [p Hp]. discriminate.
  - rewrite bind_emit. unfold outcome at 1. cbn [snd].
    destruct (0 <? _)%nat.
    + intros [= <-] [p Hp]. discriminate.
    + rewrite bind_emit. cbn [snd].
      pose proof (map_m_raises (transform_contact c fmap)
                    (fun e => ~ names_missing_field e)
                    (post_contact_getdata (client c)
                       (result (get_contact_query (client c) limit offset))
                       (map field_id fields))
                    (fun x e => transform_items_raises fmap x [] e))
        as Hmap.
      destruct (map_m _ _) as [t [e'|contacts]]; unfold bind;
        cbn [fst snd].
      * intros [= <-]. apply Hmap. reflexivity.
      * destruct (_ =? limit)%nat; [apply IH|discriminate].
Qed.

(** C9: the field resolver.  [sync_contacts] ends in the exception of
    line 110 for some property exactly when a property of the contacts
    schema is selected and the provider's raw fields hold no descriptor
    of that normalized name; the exception then names such a property
    (the first one in schema order), and it is raised with nothing
    emitted: no contact page was requested and no record written. *)
Theorem sync_contacts_missing_field depth :
  ((exists e, outcome (sync_contacts sch c depth) = inl e
              /\ names_missing_field e)
   <-> exists prop schema,
         In (prop, schema) (contacts_properties c)
         /\ selected schema = Some true
         /\ ~ has_descriptor sch c prop)
  /\ (forall e,
        outcome (sync_contacts sch c depth) = inl e ->
        names_missing_field e ->
        trace (sync_contacts sch c depth) = []
        /\ exists prop schema,
             e = Exception (missing_field_message prop)
             /\ In (prop, schema) (contacts_properties c)
             /\ selected schema = Some true
             /\ ~ has_descriptor sch c prop).
Proof.
  assert (Hsel : forall s, is_selected s = true <-> selected s = Some true).
  { intros s. unfold is_selected.
    destruct (selected s) as [[|]|]; split; congruence. }
  assert (Hmiss : forall p,
    mem p (keys (fst (field_maps sch (get_contacts_raw_fields sch c))))
    = false <-> ~ has_descriptor sch c p).
  { intros p. rewrite <- available_iff.
    destruct (mem p _); split; congruence. }
  unfold sync_contacts.
  destruct (select_fields_spec
              (fst (field_maps sch (get_contacts_raw_fields sch c)))
              (contacts_properties c) [])
    as [(p & s & Hin & Hs & Hm & Hr)|(Hall & fields & Hret)].
  - rewrite Hr. unfold bind, outcome, trace, raise. cbn [fst snd].
    split.
    + split.
      * intros _. exists p, s. repeat split; auto.
        -- now apply Hsel.
        -- now apply Hmiss.
      * intros _. eexists. split; [reflexivity|]. now exists p.
    + intros e [= <-] _. split; [reflexivity|].
      exists p, s. repeat split; auto.
      * now apply Hsel.
      * now apply Hmiss.
  - rewrite Hret, bind_ret.
    assert (Hno : forall e,
      outcome (paginate_contacts c depth
                 (snd (field_maps sch (get_contacts_raw_fields sch c)))
                 fields 1000 0) = inl e ->
      ~ names_missing_field e) by apply paginate_contacts_raises.
    split.
    + split.
      * intros (e & He & Hn). now apply Hno in He.
      * intros (p & s & Hin & Hs & Hn). exfalso.
        apply Hmiss in Hn. apply Hsel in Hs.
        rewrite (Hall p s Hin Hs) in Hn. discriminate.
    + intros e He Hn. now apply Hno in He.
Qed.
End Resolver.

(** ** The paginated fetchers *)

Lemma paged_last limit (b : list record) :
  (List.length b < limit)%nat -> paged limit (List.length b) [b].
Proof.
  intros H. unfold paged. cbn [List.length List.concat].
  rewrite app_nil_r, Nat.div_small by assumption.
  repeat split. exists [], b. repeat split; auto.
Qed.

Lemma paged_cons limit n (b : list record) bs :
  (0 < limit)%nat -> List.length b = limit ->
  paged limit n bs -> paged limit (limit + n) (b :: bs).
Proof.
  intros Hl Hb (Hlen & Hcat & Hex). unfold paged. split; [|split].
  - cbn [List.length]. rewrite Hlen.
    replace (limit + n)%nat with (1 * limit + n)%nat by lia.
    rewrite Nat.div_add_l by lia. lia.
  - cbn [List.concat]. now rewrite length_app, Hcat, Hb.
  - destruct Hex as (full & last & -> & Hfull & Hlast).
    exists (b :: full), last. repeat split; auto.
Qed.

Lemma length_page {A} limit offset (l : list A) :
  List.length (firstn limit (skipn offset l))
  = Nat.min limit (List.length l - offset).
Proof. now rewrite length_firstn, length_skipn. Qed.

Lemma map_m_ok {A B} (f : A -> M event B) l :
  (forall x, In x l -> exists y, f x = ret y) ->
  exists ys, map_m f l = ret ys /\ List.length ys = List.length l.
Proof.
  induction l as [|x l IH]; intros H.
  - now exists [].
  - destruct (H x (or_introl eq_refl)) as [y Hy].
    destruct (IH (fun z Hz => H z (or_intror Hz))) as (ys & Hys & Hlen).
    exists (y :: ys). cbn [map_m]. rewrite Hy, bind_ret, Hys, bind_ret.
    split; [reflexivity|]. cbn. now rewrite Hlen.
Qed.

Section Pagination.
Variable c : ctx.
Variable limit : nat.
Hypothesis limit_positive : (0 < limit)%nat.

Lemma sync_contact_list_memberships_paged contact_list_id members depth :
  serves_memberships c contact_list_id members ->
  forall offset,
    ((List.length members - offset) / limit < depth)%nat ->
    outcome (sync_contact_list_memberships c depth contact_list_id
               limit offset) = inr tt
    /\ paged limit (List.length members - offset)
         (batches_of "contact_list_memberships"
            (trace (sync_contact_list_memberships c depth contact_list_id
                      limit offset))).
Proof.
  intros Hserves.
  induction depth as [|depth IH]; intros offset Hdepth; [lia|].
  cbn [sync_contact_list_memberships]. rewrite Hserves.
  set (page := firstn limit (skipn offset members)).
  assert (Hpage : List.length page
                  = Nat.min limit (List.length members - offset))
    by apply length_page.
  unfold write_records, metrics.
  rewrite bind_emit, bind_assoc, bind_emit, bind_emit.
  unfold outcome, trace. cbn [fst snd batches_of String.eqb Ascii.eqb
    Bool.eqb].
  destruct (Nat.eqb_spec (List.length page) limit) as [Hfull|Hshort].
  - assert (Hle : (limit <= List.length members - offset)%nat) by lia.
    assert (Hdiv : ((List.length members - offset) / limit
                    = 1 + (List.length members - (offset + limit)) / limit)
                   %nat).
    { replace (List.length members - offset)%nat
        with (1 * limit + (List.length members - (offset + limit)))%nat
        by lia.
      now rewrite Nat.div_add_l by lia. }
    destruct (IH (offset + limit)%nat ltac:(lia)) as [Hout Hpaged].
    split; [exact Hout|].
    replace (List.length members - offset)%nat
      with (limit + (List.length members - (offset + limit)))%nat by lia.
    apply paged_cons; auto. now rewrite length_map.
  - split; [reflexivity|].
    replace (List.length members - offset)%nat
      with (List.length (map (membership contact_list_id) page))
      by (rewrite length_map; lia).
    apply paged_last. rewrite length_map. lia.
Qed.

Lemma paginate_contacts_paged field_id_map fields ids depth :
  serves_contacts c field_id_map ids ->
  forall offset,
    ((List.length ids - offset) / limit < depth)%nat ->
    outcome (paginate_contacts c depth field_id_map fields limit offset)
    = inr tt
    /\ paged limit (List.length ids - offset)
         (batches_of "contacts"
            (trace (paginate_contacts c depth field_id_map fields
                      limit offset))).
Proof.
  intros (Hquery & Hdata & Htransform).
  induction depth as [|depth IH]; intros offset Hdepth; [lia|].
  cbn [paginate_contacts]. rewrite Hquery. cbn [errors result List.length].
  cbn [Nat.ltb Nat.leb].
  set (keys := firstn limit (skipn offset ids)).
  set (page := post_contact_getdata (client c) keys (map field_id fields)).
  assert (Hpage : List.length page
                  = Nat.min limit (List.length ids - offset)).
  { unfold page. rewrite Hdata. apply length_page. }
  destruct (map_m_ok (transform_contact c field_id_map) page
              (fun x Hx => Htransform keys (map field_id fields) x Hx))
    as (contacts & Hcontacts & Hlen).
  rewrite !bind_emit. cbn [fst snd]. rewrite Hcontacts, bind_ret.
  unfold write_records, metrics.
  rewrite bind_assoc, bind_emit, bind_emit.
  unfold outcome, trace. cbn [fst snd batches_of String.eqb Ascii.eqb
    Bool.eqb].
  destruct (Nat.eqb_spec (List.length page) limit) as [Hfull|Hshort].
  - assert (Hle : (limit <= List.length ids - offset)%nat) by lia.
    assert (Hdiv : ((List.length ids - offset) / limit
                    = 1 + (List.length ids - (offset + limit)) / limit)
                   %nat).
    { replace (List.length ids - offset)%nat
        with (1 * limit + (List.length ids - (offset + limit)))%nat
        by lia.
      now rewrite Nat.div_add_l by lia. }
    destruct (IH (offset + limit)%nat ltac:(lia)) as [Hout Hpaged].
    split; [exact Hout|].
    replace (List.length ids - offset)%nat
      with (limit + (List.length ids - (offset + limit)))%nat by lia.
    apply paged_cons; auto. lia.
  - split; [reflexivity|].
    replace (List.length ids - offset)%nat with (List.length contacts)
      by lia.
    apply paged_last. lia.
Qed.

(** C3, as the code has it: page batches.  With a page size above zero
    and enough call depth for the pages, walking a collection of [N]
    records ends without error, writes [N] records in all, and writes
    [N / limit + 1] batches (division rounding down): full batches of
    [limit] records, then one batch of fewer than [limit] records, which
    ends the walk.  When [N] is a multiple of [limit] that last batch is
    empty; otherwise the count is the rounded-up quotient. *)
Theorem pagination_batches depth :
  (forall contact_list_id members,
      serves_memberships c contact_list_id members ->
      (List.length members / limit < depth)%nat ->
      outcome (sync_contact_list_memberships c depth contact_list_id
                 limit 0) = inr tt
      /\ paged limit (List.length members)
           (batches_of "contact_list_memberships"
              (trace (sync_contact_list_memberships c depth
                        contact_list_id limit 0))))
  /\ (forall field_id_map fields ids,
        serves_contacts c field_id_map ids ->
        (List.length ids / limit < depth)%nat ->
        outcome (paginate_contacts c depth field_id_map fields limit 0)
        = inr tt
        /\ paged limit (List.length ids)
             (batches_of "contacts"
                (trace (paginate_contacts c depth field_id_map fields
                          limit 0))))
  /\ (forall n, (n mod limit <> 0)%nat ->
                (n / limit + 1 = (n + limit - 1) / limit)%nat).
Proof.
  split; [|split].
  - intros contact_list_id members Hserves Hdepth.
    pose proof (sync_contact_list_memberships_paged contact_list_id members
                  depth Hserves 0%nat) as H.
    rewrite Nat.sub_0_r in H. now apply H.
  - intros field_id_map fields ids Hserves Hdepth.
    pose proof (paginate_contacts_paged field_id_map fields ids depth
                  Hserves 0%nat) as H.
    rewrite Nat.sub_0_r in H. now apply H.
  - intros n Hn.
    pose proof (Nat.div_mod_eq n limit) as Hdm.
    pose proof (Nat.mod_upper_bound n limit ltac:(lia)) as Hub.
    replace (n + limit - 1)%nat
      with ((n / limit + 1) * limit + (n mod limit - 1))%nat by nia.
    rewrite Nat.div_add_l by lia.
    rewrite (Nat.div_small (n mod limit - 1)) by lia. lia.
Qed.
End Pagination.

(** ** Concrete runs *)

Module Runs.
Import Scenario.


Lemma first_run_interrupted :
interrupted the_schemas the_ctx empty_state campaigns
  emitted_before_crash crash_checkpoint.
Proof.
apply (interrupted_first the_schemas the_ctx empty_state campaigns
         emitted_before_crash crash_checkpoint lost_in_crash).
- reflexivity.
- vm_compute. reflexivity.
Defined.

(** With no campaign to work on the run goes straight to line 242. *)
Example sync_metrics_empty_universe :
sync_metrics the_schemas the_ctx empty_state []
= ([], inl (NameError "reset_stream")).
Proof. reflexivity. Qed.

Lemma sync_metric_polling_witness :
sync_metric the_ctx "5" "click" "2021-03-02"
= (PostEmailResponses "click" "2021-03-02" "5"
     :: polls "5/click/2021-03-02" 1
        ++ GetEmailResponses "5/click/2021-03-02"
        :: flush "2021-03-02" "click" ["c1"; "c2"],
   inr tt).
Proof.
destruct (sync_metric_polling the_ctx "5" "click" "2021-03-02")
  as (_ & H & _).
apply (H 1%nat ["c1"; "c2"]).
- lia.
- intros i Hi. destruct i; [reflexivity|lia].
- reflexivity.
Defined.

Lemma sync_metric_ready_result_witness :
sync_metric the_ctx "5" "click" "2021-03-02"
= (PostEmailResponses "click" "2021-03-02" "5"
     :: polls "5/click/2021-03-02" 1
        ++ GetEmailResponses "5/click/2021-03-02"
        :: [ SingerWriteRecords "metrics"
               [ [ ("date", Some "2021-03-02"); ("metric", Some "click");
                   ("contact_id", Some "c1") ];
                 [ ("date", Some "2021-03-02"); ("metric", Some "click");
                   ("contact_id", Some "c2") ] ];
             CounterIncrement "metrics" 2 ],
   inr tt).
Proof.
apply (sync_metric_ready_result the_ctx "5" "click" "2021-03-02" 1%nat
         ["c1"; "c2"]).
- lia.
- intros i Hi. destruct i; [reflexivity|lia].
- reflexivity.
Defined.

Lemma fresh_start_with_recorded_date_witness :
sync_metrics the_schemas the_ctx recorded_state campaigns
= ([], inl str_vs_datetime).
Proof.
apply (fresh_start_with_recorded_date the_schemas the_ctx recorded_state
         campaigns "2021-03-01" (Pendulum.at_midnight 18687)
         (Pendulum.at_midnight 18688) (mkCampaign "5" None)).
- reflexivity.
- reflexivity.
- reflexivity.
- reflexivity.
- left. reflexivity.
- reflexivity.
- discriminate.
Defined.

Lemma restart_scenario_witness :
(exists rest,
    trace (sync_metrics the_schemas the_ctx checkpoint_state campaigns)
    = PostEmailResponses "click" "2021-03-02" "5" :: rest)
/\ (forall x,
      In x (cells_of (trace (sync_metrics the_schemas the_ctx
                               checkpoint_state campaigns))) ->
      exists d, x = ("5", "click", Pendulum.date_string d)
                /\ Pendulum.days_from_civil 2021 3 2 <= d <= 18688).
Proof.
apply (restart_scenario the_schemas the_ctx checkpoint_state campaigns
         (Pendulum.at_midnight 18687) (Pendulum.at_midnight 18688)).
- reflexivity.
- reflexivity.
- reflexivity.
- reflexivity.
- reflexivity.
- discriminate.
Defined.

Lemma checkpoint_follows_flush_witness :
(exists pre0 campaign_id metric d rest ms j,
    let x := (campaign_id, metric, Pendulum.date_string d) in
    emitted_before_crash = pre0 ++ expected_events the_ctx x
    /\ expected_events the_ctx x <> []
    /\ cells_of emitted_before_crash = cells_of pre0 ++ [x]
    /\ records_of emitted_before_crash
       = flat_map (expected_records the_ctx)
           (cells_of emitted_before_crash)
    /\ crash_checkpoint
       = checkpoint empty_state (campaign_id :: rest)
           (removed_all (firstn j ms)
              (metrics_selected_of the_schemas the_ctx)) (d + 1)
    /\ nth_error ms j = Some metric
    /\ (ms = metrics_selected_of the_schemas the_ctx
        \/ metrics_to_resume (Singer.get_bookmark empty_state) = Some ms))
/\ ((forall x m d,
        In x (live_campaigns campaigns) ->
        In m (metrics_selected_of the_schemas the_ctx) ->
        18687 <= d ->
        Pendulum.le (Pendulum.mkDateTime d 0) (Pendulum.at_midnight 18688)
        = true ->
        In (x, m, Pendulum.date_string d) (cells_of emitted_before_crash)
        \/ covers (plan_ahead the_schemas the_ctx
                     (Pendulum.at_midnight 18687)
                     (Pendulum.at_midnight 18688) crash_checkpoint) x m d)
    /\ records_of emitted_before_crash
       = flat_map (expected_records the_ctx)
           (cells_of emitted_before_crash)).
Proof.
destruct (checkpoint_follows_flush the_schemas the_ctx) as [Hrun Hchain].
split.
- apply (Hrun empty_state campaigns emitted_before_crash crash_checkpoint
           lost_in_crash).
  vm_compute. reflexivity.
- apply (Hchain empty_state campaigns (Pendulum.at_midnight 18687)
           (Pendulum.at_midnight 18688) emitted_before_crash
           crash_checkpoint eq_refl eq_refl first_run_interrupted).
Defined.

Lemma resumed_campaign_checkpoints_witness :
exists j metric,
  nth_error ["click"; "bounce"] j = Some metric
  /\ (exists pre0 date,
        firstn 6 (trace second_run)
        = pre0 ++ trace (sync_metric the_ctx "5" metric date))
  /\ metrics_to_resume (Singer.get_bookmark crash_checkpoint)
     = Some (removed_all (firstn j ["click"; "bounce"])
               (metrics_selected_of the_schemas the_ctx))
  /\ (j = 0%nat ->
      metrics_to_resume (Singer.get_bookmark crash_checkpoint)
      = Some (metrics_selected_of the_schemas the_ctx))
  /\ (forall y,
        In y (metrics_selected_of the_schemas the_ctx) ->
        ~ In y ["click"; "bounce"] ->
        exists now_remaining,
          metrics_to_resume (Singer.get_bookmark crash_checkpoint)
          = Some now_remaining /\ In y now_remaining).
Proof.
apply (resumed_campaign_checkpoints the_schemas the_ctx midway_state []
         "5" [] ["click"; "bounce"] (firstn 6 (trace second_run))
         crash_checkpoint (skipn 7 (trace second_run))).
- reflexivity.
- reflexivity.
- vm_compute. reflexivity.
- reflexivity.
Defined.



Lemma pagination_batches_witness :
outcome (sync_contact_list_memberships the_ctx 5 "L1" 1 0) = inr tt
/\ paged 1 2
     (batches_of "contact_list_memberships"
        (trace (sync_contact_list_memberships the_ctx 5 "L1" 1 0))).
Proof.
destruct (pagination_batches the_ctx 1 ltac:(lia) 5) as (H & _ & _).
apply (H "L1" ["a"; "b"]).
- intros limit offset. reflexivity.
- cbn. lia.
Defined.

(** C3 as stated fails on a collection whose size is a multiple of the
  page size: two members fetched two at a time give two batches, the
  second one empty, where the rounded-up quotient is one. *)
Lemma pagination_ceiling_counterexample :
serves_memberships the_ctx "L1" ["a"; "b"]
/\ batches_of "contact_list_memberships"
     (trace (sync_contact_list_memberships the_ctx 5 "L1" 2 0))
   = [ [ membership "L1" "a"; membership "L1" "b" ]; [] ]
/\ List.length
     (batches_of "contact_list_memberships"
        (trace (sync_contact_list_memberships the_ctx 5 "L1" 2 0)))
   <> ((List.length ["a"; "b"] + 2 - 1) / 2)%nat.
Proof.
split; [|split].
- intros limit offset. reflexivity.
- reflexivity.
- vm_compute. discriminate.
Qed.

(** C10 as stated fails once the restarted run has completed a metric:
  restarting with ["click"; "bounce"] left of ["open"; "click";
  "bounce"], the checkpoints written during "bounce", still in the
  resumed campaign, record ["open"; "bounce"], not the full selection. *)
Lemma resumed_checkpoints_counterexample :
~ (forall pre ck post,
      trace second_run = pre ++ WriteState ck :: post ->
      campaigns_to_resume (Singer.get_bookmark ck)
      = campaigns_to_resume (Singer.get_bookmark midway_state) ->
      metrics_to_resume (Singer.get_bookmark ck)
      = Some (metrics_selected_of the_schemas the_ctx)).
Proof.
intros H.
specialize (H (firstn 13 (trace second_run))
              (mkState (Some (mkBookmark (Some ["5"])
                                (Some ["open"; "bounce"])
                                (Some "2021-03-02") None)) None)
              (skipn 14 (trace second_run))
              ltac:(vm_compute; reflexivity) eq_refl).
vm_compute in H. discriminate.
Qed.

End Runs.

(** ** More on the metric sync *)

Lemma list_remove_absent x l : ~ In x l -> list_remove x l = None.
Proof.
  induction l as [|y l IH]; intros H; [reflexivity|]. cbn.
  destruct (String.eqb_spec y x) as [->|_].
  - exfalso. apply H. now left.
  - rewrite IH; [reflexivity|]. intros Hin. apply H. now right.
Qed.

Lemma checkpoints_written_app t1 t2 :
  checkpoints_written (t1 ++ t2)
  = (checkpoints_written t1 + checkpoints_written t2)%nat.
Proof. unfold checkpoints_written. now rewrite filter_app, length_app. Qed.

Lemma no_checkpoint_written t :
  forallb (fun ev => negb (is_checkpoint ev)) t = true ->
  checkpoints_written t = 0%nat.
Proof.
  unfold checkpoints_written. induction t as [|ev t IH]; [reflexivity|].
  cbn. destruct (is_checkpoint ev); cbn; [discriminate|assumption].
Qed.

Section MoreMetricSync.
Variable sch : schemas.
Variable c : ctx.

Lemma plan_events_checkpoints st plan :
  checkpoints_written (flat_map (step_events c st) plan)
  = List.length plan.
Proof.
  induction plan as [|s plan IH]; [reflexivity|].
  cbn [flat_map List.length]. rewrite checkpoints_written_app, IH.
  unfold step_events. rewrite checkpoints_written_app.
  rewrite no_checkpoint_written by apply sync_metric_no_checkpoint.
  reflexivity.
Qed.

Lemma plan_metrics_cells sd ed cid camps ms : forall mets,
  map step_cell (plan_metrics sd ed cid camps ms mets None)
  = flat_map
      (fun m => map (fun d => (cid, m, Pendulum.date_string d))
                    (date_range sd ed)) ms.
Proof.
  induction ms as [|m ms IH]; intros mets; [reflexivity|].
  cbn [plan_metrics flat_map]. rewrite map_app, IH. f_equal.
  unfold plan_dates. now rewrite map_map.
Qed.

Lemma plan_campaigns_cells selected sd ed cs : forall camps,
  map step_cell (plan_campaigns selected sd ed cs camps selected None)
  = cross_product cs selected sd ed.
Proof.
  induction cs as [|cid cs IH]; intros camps; [reflexivity|].
  cbn [plan_campaigns]. unfold cross_product. cbn [flat_map].
  rewrite map_app, plan_metrics_cells, last_date_after_None, IH.
  reflexivity.
Qed.

Lemma plan_campaigns_empty_range selected sd ed cs : forall camps,
  Pendulum.le sd ed = false ->
  plan_campaigns selected sd ed cs camps selected None = [].
Proof.
  intros camps Hlt. revert camps.
  assert (Hdays : days_through sd ed = 0%nat).
  { destruct (days_through sd ed) eqn:Hn; [reflexivity|].
    assert (Hg : (0 < days_through sd ed)%nat) by lia.
    apply days_through_guard in Hg. congruence. }
  assert (Hm : forall cid camps ms mets,
             plan_metrics sd ed cid camps ms mets None = []).
  { intros cid camps ms. induction ms as [|m ms IH]; intros mets;
      [reflexivity|].
    cbn [plan_metrics]. rewrite IH. unfold plan_dates, date_range.
    cbn [first_date]. now rewrite Hdays. }
  induction cs as [|cid cs IH]; intros camps; [reflexivity|].
  cbn [plan_campaigns]. now rewrite Hm, last_date_after_None, IH.
Qed.

Lemma sync_metrics_trace st campaigns sd0 ed cs ms ld :
  @Pendulum.parse event (now c) (config_date (start_date (cfg c)))
  = ret sd0 ->
  @Pendulum.parse event (now c) (config_date (end_date (cfg c)))
  = ret ed ->
  starting_point c (Singer.get_bookmark st) (metrics_selected_of sch c)
    campaigns = ret (cs, ms, ld) ->
  trace (sync_metrics sch c st campaigns)
  = trace (for_campaigns c (metrics_selected_of sch c)
             (start_value st sd0) ed cs st cs ms ld).
Proof.
  intros H1 H2 H3.
  now rewrite (sync_metrics_unfold sch c st campaigns sd0 ed cs ms ld
                 H1 H2 H3).
Qed.

(** X1: lines 218-239, a first run: with nothing recorded in the state,
    the configured dates parsed and in the calendar range, and an API
    that answers every cell, [sync_metrics] starts exactly the cells of
    the live campaigns (those whose [deleted] is null), the selected
    metrics and the days the guard of line 232 lets through from the
    start date (those on which the start date, moved to that day, is not
    after the end date: up to the day of the end date, or the day before
    when the start date's time of day is later than the end date's), in
    that nesting order and each once; it persists one checkpoint per
    cell and stops at line 242. *)
Theorem fresh_run_cross_product st campaigns sd ed :
  resumes st = false ->
  last_metric_date (Singer.get_bookmark st) = None ->
  @Pendulum.parse event (now c) (config_date (start_date (cfg c)))
  = ret sd ->
  @Pendulum.parse event (now c) (config_date (end_date (cfg c)))
  = ret ed ->
  Pendulum.in_range (Pendulum.day sd) = true ->
  Pendulum.in_range (last_day sd ed + 1) = true ->
  (forall x m d,
      In x (live_campaigns campaigns) ->
      In m (metrics_selected_of sch c) ->
      Pendulum.day sd <= d <= last_day sd ed ->
      answered c x m (Pendulum.date_string d)) ->
  let run := sync_metrics sch c st campaigns in
  cells_of (trace run)
  = cross_product (live_campaigns campaigns) (metrics_selected_of sch c)
      sd ed
  /\ (forall d,
        In d (date_range sd ed)
        <-> Pendulum.day sd <= d
            /\ Pendulum.le (Pendulum.mkDateTime d (Pendulum.time sd)) ed
               = true)
  /\ checkpoints_written (trace run) = List.length (cells_of (trace run))
  /\ outcome run = inl (NameError "reset_stream").
Proof.
  intros Hfresh Hlast Hs He Hrs Hre Hapi run. subst run.
  rewrite (sync_metrics_unfold sch c st campaigns sd ed _ _ _ Hs He
             (starting_point_fresh sch c st campaigns Hfresh)).
  unfold start_value. rewrite Hlast.
  destruct (for_campaigns_complete c st (metrics_selected_of sch c) sd ed
              (live_campaigns campaigns) st (metrics_selected_of sch c)
              None (conj eq_refl eq_refl) (subseq_refl _)) as (st' & Hrun).
  { apply Forall_forall. intros s Hs'.
    pose proof (plan_campaigns_dates_start _ _ _ _ _ _ _ Hs') as Hd.
    apply in_plan_campaigns in Hs' as (Hc & Hm & _); [|apply in_run_None].
    split.
    - apply answered_ok, Hapi; auto. destruct Hm; auto.
    - unfold Pendulum.in_range in *.
      rewrite andb_true_iff, !Z.leb_le in *. lia. }
  rewrite Hrun. unfold trace, outcome. cbn [fst snd].
  rewrite plan_events_cells, plan_events_checkpoints, length_map.
  rewrite plan_campaigns_cells. auto using date_range_guard.
Qed.

(** X2: line 232, an empty date range: a first run whose end date lies
    before its start date, so that the guard of line 232 fails at once,
    starts no cell and persists nothing; with no [last_metric_date]
    recorded it goes on to line 242. *)
Theorem fresh_run_empty_range st campaigns sd ed :
  resumes st = false ->
  @Pendulum.parse event (now c) (config_date (start_date (cfg c)))
  = ret sd ->
  @Pendulum.parse event (now c) (config_date (end_date (cfg c)))
  = ret ed ->
  Pendulum.le sd ed = false ->
  trace (sync_metrics sch c st campaigns) = []
  /\ (last_metric_date (Singer.get_bookmark st) = None ->
      outcome (sync_metrics sch c st campaigns)
      = inl (NameError "reset_stream")).
Proof.
  intros Hfresh Hs He Hlt.
  rewrite (sync_metrics_unfold sch c st campaigns sd ed _ _ _ Hs He
             (starting_point_fresh sch c st campaigns Hfresh)).
  unfold trace at 1, outcome at 1. cbn [fst snd].
  pose proof (plan_campaigns_empty_range (metrics_selected_of sch c) sd ed
                (live_campaigns campaigns) (live_campaigns campaigns) Hlt)
    as Hplan.
  split.
  - assert (Hsd : forall d, start_value st sd = Date d -> d = sd).
    { unfold start_value. intros d.
      destruct (last_metric_date (Singer.get_bookmark st));
        [discriminate|now intros [= ->]]. }
    pose proof (for_campaigns_executes c st (metrics_selected_of sch c)
                  (start_value st sd) ed sd Hsd
                  (live_campaigns campaigns) st (live_campaigns campaigns)
                  (metrics_selected_of sch c) None (conj eq_refl eq_refl))
      as Hex.
    rewrite Hplan in Hex.
    destruct Hex as [(a & -> & _)
                    |(done & rest & tail & e & -> & Hp & _ & Ht)];
      [reflexivity|].
    symmetry in Hp. apply app_eq_nil in Hp as [-> ->].
    destruct Ht as [->|(s & rest' & Hr & _)]; [reflexivity|discriminate].
  - intros Hlast. unfold start_value. rewrite Hlast.
    destruct (for_campaigns_complete c st (metrics_selected_of sch c) sd ed
                (live_campaigns campaigns) st (metrics_selected_of sch c)
                None (conj eq_refl eq_refl) (subseq_refl _)
                ltac:(rewrite Hplan; constructor)) as (st' & Hrun).
    now rewrite Hrun.
Qed.

(** X3: lines 233-236, in any run from any state: every cell that was
    started is followed by its checkpoint before the next cell starts,
    so at any end of the run at most one started cell has no checkpoint
    yet. *)
Theorem checkpoints_track_cells st campaigns :
  let t := trace (sync_metrics sch c st campaigns) in
  (checkpoints_written t <= List.length (cells_of t)
   <= checkpoints_written t + 1)%nat.
Proof.
  intros t. subst t.
  destruct (sync_metrics_cases sch c st campaigns)
    as [[Ht _]|(sd0 & ed & cs & ms & ld & H1 & H2 & H3)].
  { rewrite Ht. cbn. lia. }
  rewrite (sync_metrics_trace st campaigns sd0 ed cs ms ld H1 H2 H3).
  destruct ms as [ms|].
  2:{ rewrite for_campaigns_nothing_to_iterate. cbn. lia. }
  assert (Hsd : forall d, start_value st sd0 = Date d -> d = sd0).
  { unfold start_value. intros d.
    destruct (last_metric_date (Singer.get_bookmark st));
      [discriminate|now intros [= ->]]. }
  destruct (for_campaigns_executes c st (metrics_selected_of sch c)
              (start_value st sd0) ed sd0 Hsd cs st cs ms ld
              (conj eq_refl eq_refl))
    as [(a & -> & _)|(done & rest & tail & e & -> & _ & _ & Ht)];
    unfold trace; cbn [fst].
  - rewrite plan_events_cells, plan_events_checkpoints, length_map. lia.
  - rewrite cells_of_app, checkpoints_written_app, length_app,
      plan_events_cells, plan_events_checkpoints, length_map.
    destruct Ht as [->|(s & rest' & _ & ->)].
    + cbn. lia.
    + unfold step_sync.
      rewrite sync_metric_cells,
        (no_checkpoint_written _ (sync_metric_no_checkpoint c _ _ _)).
      cbn. lia.
Qed.

(** X4: line 238, a checkpoint whose first metric is no longer selected (the
    catalog changed between the runs): the restarted run syncs that
    metric from the checkpoint's date to the end date and then raises
    [ValueError], because the metric cannot be removed from the copy of
    the selected metrics; no other metric and no other campaign is
    reached. *)
Theorem resume_with_unselected_metric st campaigns x l m rest ds D ed sd0 :
  campaigns_to_resume (Singer.get_bookmark st) = Some (x :: l) ->
  metrics_to_resume (Singer.get_bookmark st) = Some (m :: rest) ->
  date_to_resume (Singer.get_bookmark st) = Some ds ->
  ds <> "" ->
  @Pendulum.parse event (now c) ds = ret D ->
  @Pendulum.parse event (now c) (config_date (start_date (cfg c)))
  = ret sd0 ->
  @Pendulum.parse event (now c) (config_date (end_date (cfg c)))
  = ret ed ->
  ~ In m (metrics_selected_of sch c) ->
  (forall d, Pendulum.day D <= d <= last_day D ed ->
             answered c x m (Pendulum.date_string d)
             /\ Pendulum.in_range (d + 1) = true) ->
  outcome (sync_metrics sch c st campaigns)
  = inl (ValueError "list.remove(x): x not in list")
  /\ cells_of (trace (sync_metrics sch c st campaigns))
     = map (fun d => (x, m, Pendulum.date_string d)) (date_range D ed).
Proof.
  intros Hc Hm Hd Hne Hp Hs He Hsel Hok.
  pose proof (starting_point_resume sch c st campaigns x l ds D Hc Hd Hne Hp)
    as Hsp.
  rewrite Hm in Hsp.
  rewrite (sync_metrics_unfold sch c st campaigns sd0 ed _ _ _ Hs He Hsp).
  unfold trace at 1, outcome at 1. cbn [fst snd].
  cbn [for_campaigns for_metrics].
  destruct (while_dates_complete c st (x :: l) (metrics_selected_of sch c)
              x m (days_through D ed) st D (conj eq_refl eq_refl))
    as (st' & _ & Hrun).
  { apply Forall_forall. intros s Hs'.
    apply in_map_iff in Hs' as (d & <- & Hd').
    apply in_date_range in Hd'. destruct (Hok d Hd') as [Ha Hr].
    split; [|exact Hr]. unfold step_sync. cbn [step_campaign step_metric
      step_date]. now apply (answered_ok c). }
  rewrite (bind_ok _ _ _ _ Hrun). unfold remove.
  rewrite (list_remove_absent _ _ Hsel).
  unfold bind, raise, trace, outcome. cbn [fst snd].
  split; [reflexivity|].
  rewrite !app_nil_r, plan_events_cells, map_map. reflexivity.
Qed.
End MoreMetricSync.

(** ** More on the fetchers *)

Section MoreFetchers.
Variable c : ctx.

Lemma skipn_page {A} limit offset (l : list A) :
  firstn limit (skipn offset l) ++ skipn (offset + limit) l
  = skipn offset l.
Proof.
  rewrite Nat.add_comm, <- skipn_skipn. apply firstn_skipn.
Qed.

(** X5: lines 126-142: every member of the list is written exactly once and
    in the order the API serves them; the pages are requested at the
    offsets 0, limit, 2 limit, ... *)
Theorem memberships_written_in_order contact_list_id members limit depth :
  (0 < limit)%nat ->
  serves_memberships c contact_list_id members ->
  (List.length members / limit < depth)%nat ->
  let t := trace (sync_contact_list_memberships c depth contact_list_id
                    limit 0) in
  records_of t = map (membership contact_list_id) members
  /\ filter (fun ev => match ev with
                       | GetContactlist _ _ _ => true
                       | _ => false
                       end) t
     = map (fun i => GetContactlist contact_list_id limit (i * limit))
           (seq 0 (List.length members / limit + 1)).
Proof.
  intros Hl Hserves Hdepth t. subst t.
  assert (H : forall depth offset,
    ((List.length members - offset) / limit < depth)%nat ->
    let t := trace (sync_contact_list_memberships c depth contact_list_id
                      limit offset) in
    records_of t = map (membership contact_list_id) (skipn offset members)
    /\ filter (fun ev => match ev with
                         | GetContactlist _ _ _ => true
                         | _ => false
                         end) t
       = map (fun i => GetContactlist contact_list_id limit
                         (offset + i * limit))
             (seq 0 ((List.length members - offset) / limit + 1))).
  { clear depth Hdepth.
    induction depth as [|depth IH]; intros offset Hdepth; [lia|].
    cbn [sync_contact_list_memberships]. rewrite Hserves.
    set (page := firstn limit (skipn offset members)).
    assert (Hpage : List.length page
                    = Nat.min limit (List.length members - offset))
      by apply length_page.
    unfold write_records, metrics.
    rewrite bind_emit, bind_assoc, bind_emit, bind_emit.
    unfold trace. cbn [fst snd records_of filter].
    destruct (Nat.eqb_spec (List.length page) limit) as [Hfull|Hshort].
    - assert (Hdiv : ((List.length members - offset) / limit
                      = 1 + (List.length members - (offset + limit))
                            / limit)%nat).
      { replace (List.length members - offset)%nat
          with (1 * limit + (List.length members - (offset + limit)))%nat
          by lia.
        now rewrite Nat.div_add_l by lia. }
      destruct (IH (offset + limit)%nat ltac:(lia)) as [Hrec Hreq].
      unfold trace in Hrec, Hreq. split.
      + rewrite Hrec, <- map_app. f_equal. apply skipn_page.
      + rewrite Hreq, Hdiv.
        replace (1 + (List.length members - (offset + limit)) / limit + 1)
          %nat
          with (S ((List.length members - (offset + limit)) / limit + 1))
          by lia.
        cbn [seq map]. f_equal; [f_equal; lia|].
        rewrite <- seq_shift, map_map. apply map_ext. intros i.
        f_equal. lia.
    - assert (Hall : page = skipn offset members).
      { unfold page. apply firstn_all2. rewrite length_skipn. lia. }
      rewrite Nat.div_small by lia. cbn. rewrite app_nil_r, Hall.
      split; [reflexivity|]. f_equal. f_equal. lia. }
  destruct (H depth 0%nat) as [Hrec Hreq].
  { now rewrite Nat.sub_0_r. }
  cbn [skipn] in Hrec. rewrite Nat.sub_0_r in Hreq. split; [exact Hrec|].
  rewrite Hreq. apply map_ext. intros i. reflexivity.
Qed.

Lemma dict_set_values {V} (P : string -> V -> Prop) k v
    (d : list (string * V)) :
  P k v -> (forall k' v', In (k', v') d -> P k' v') ->
  forall k' v', In (k', v') (dict_set k v d) -> P k' v'.
Proof.
  intros Hk. induction d as [|[k0 v0] d IH]; intros Hd k' v'; cbn.
  - intros [[= <- <-]|[]]. assumption.
  - destruct (String.eqb k0 k); cbn.
    + intros [[= <- <-]|Hin]; [assumption|]. apply Hd. now right.
    + intros [[= <- <-]|Hin]; [apply Hd; now left|].
      apply IH; [|assumption]. intros k1 v1 H1. apply Hd. now right.
Qed.

Lemma isoformat_not_empty d : Pendulum.isoformat d <> "".
Proof.
  unfold Pendulum.isoformat, Pendulum.to_date_string, Pendulum.date_string.
  destruct (Pendulum.civil_from_days (Pendulum.day d)) as [[y m] dd].
  discriminate.
Qed.

(** X6: lines 52-64: [transform_contact] emits nothing, and a contact it
    returns holds no empty string except, possibly, under [id] and
    [uid], which are copied as they are: every other empty value has
    become null. *)
Theorem transform_contact_no_empty_value field_id_map contact t r :
  transform_contact c field_id_map contact = (t, inr r) ->
  t = []
  /\ forall k v, In (k, v) r -> v = Some "" -> k = "id" \/ k = "uid".
Proof.
  unfold transform_contact.
  set (P := fun (k : string) (v : option string) =>
              v = Some "" -> k = "id" \/ k = "uid").
  assert (H : forall items obj t r,
    (forall k v, In (k, v) obj -> P k v) ->
    transform_items c field_id_map items obj = (t, inr r) ->
    t = [] /\ forall k v, In (k, v) r -> P k v).
  { induction items as [|[fid value] items IH]; intros obj t' r' Hobj;
      cbn [transform_items].
    - intros [= <- <-]. auto.
    - destruct (mem fid ["id"; "uid"]) eqn:Hmem.
      + apply IH. apply dict_set_values; [|assumption].
        intros _. apply mem_In in Hmem.
        destruct Hmem as [<-|[<-|[]]]; auto.
      + destruct (dict_get fid field_id_map) as [info|]; [|discriminate].
        destruct (String.eqb_spec value "") as [->|Hv].
        * rewrite bind_ret. apply IH. apply dict_set_values; [|assumption].
          discriminate.
        * destruct (String.eqb (field_type info) "date").
          -- unfold Pendulum.parse.
             destruct (String.eqb value "now");
               [|destruct (Pendulum.parse_iso value); [|discriminate]];
               rewrite !bind_ret; apply IH;
               (apply dict_set_values; [|assumption]);
               intros [= Hiso]; now apply isoformat_not_empty in Hiso.
          -- rewrite bind_ret. apply IH.
             apply dict_set_values; [|assumption].
             intros [= Heq]. congruence. }
  intros Hrun. apply (H contact [] t r); [intros k v []|assumption].
Qed.
End MoreFetchers.

Lemma dict_get_set_same {V} k (v : V) d : dict_get k (dict_set k v d) = Some v.
Proof.
  induction d as [|[k' v'] d IH]; cbn.
  - now rewrite String.eqb_refl.
  - destruct (String.eqb_spec k' k) as [->|Hk]; cbn.
    + now rewrite String.eqb_refl.
    + destruct (String.eqb_spec k' k); [contradiction|assumption].
Qed.

Lemma dict_get_set_other {V} k k' (v : V) d :
  k' <> k -> dict_get k (dict_set k' v d) = dict_get k d.
Proof.
  intros Hk. induction d as [|[k0 v0] d IH]; cbn.
  - destruct (String.eqb_spec k' k); [contradiction|reflexivity].
  - destruct (String.eqb_spec k0 k') as [->|H0]; cbn.
    + destruct (String.eqb_spec k' k); [contradiction|reflexivity].
    + destruct (String.eqb_spec k0 k); [reflexivity|assumption].
Qed.

Lemma find_last {A} (f : A -> bool) l x :
  find f (l ++ [x])
  = match find f l with
    | Some y => Some y
    | None => if f x then Some x else None
    end.
Proof.
  induction l as [|y l IH]; cbn; [reflexivity|].
  destruct (f y); [reflexivity|assumption].
Qed.

Section RequestedFields.
Variable sch : schemas.
Variable c : ctx.

Lemma field_name_map_get prop raw_fields : forall acc,
  dict_get prop (fst (fold_left
    (fun maps raw =>
       let fid := raw_id raw in
       let fname := normalize_fieldname sch (raw_name raw) in
       let info := mkFieldInfo (application_type raw) fname fid in
       (dict_set fname info (fst maps), dict_set fid info (snd maps)))
    raw_fields acc))
  = match last_descriptor sch raw_fields prop with
    | Some raw => Some (info_of sch raw)
    | None => dict_get prop (fst acc)
    end.
Proof.
  unfold last_descriptor.
  induction raw_fields as [|raw l IH]; intros acc; [reflexivity|].
  cbn [fold_left rev]. rewrite IH, find_last. cbn [fst].
  destruct (find _ (rev l)); [reflexivity|].
  destruct (String.eqb_spec (normalize_fieldname sch (raw_name raw)) prop)
    as [<-|Hne].
  - apply dict_get_set_same.
  - now apply dict_get_set_other.
Qed.

Lemma select_fields_all_available name_map props : forall acc fields,
  select_fields name_map (keys name_map) props acc = ret fields ->
  fields
  = acc ++ flat_map
             (fun p : string * property_schema =>
                if is_selected (snd p) then
                  match dict_get (fst p) name_map with
                  | Some info => [info]
                  | None => []
                  end
                else [])
             props.
Proof.
  induction props as [|[prop schema] props IH]; intros acc fields;
    cbn [select_fields flat_map fst snd].
  - intros [= <-]. now rewrite app_nil_r.
  - destruct (is_selected schema).
    + destruct (mem prop (keys name_map)); cbn [negb]; [|discriminate].
      destruct (dict_get prop name_map) as [info|]; [|discriminate].
      intros H. apply IH in H. now rewrite <- app_assoc in H.
    + apply IH.
Qed.

(** X7: lines 92-114: when [sync_contacts] gets as far as its first page,
    the fields it asks for are those of the selected properties, in
    schema order, each by the id of the last raw field of that
    normalized name (a later raw field replaces an earlier one of the
    same name in both maps). *)
Theorem sync_contacts_requested_fields depth t o :
  sync_contacts sch c (S depth) = (t, o) ->
  (forall e, o = inl e -> ~ names_missing_field e) ->
  errors (get_contact_query (client c) 1000 0) = [] ->
  exists rest,
    t = GetContactQuery 1000 0
        :: PostContactGetdata
             (result (get_contact_query (client c) 1000 0))
             (requested_fields sch c)
        :: rest.
Proof.
  unfold sync_contacts. intros Hrun Hno Herr.
  destruct (select_fields_spec
              (fst (field_maps sch (get_contacts_raw_fields sch c)))
              (contacts_properties c) [])
    as [(p & s & Hin & Hs & Hm & Hr)|(Hall & fields & Hret)].
  - exfalso. rewrite Hr in Hrun. injection Hrun as <- <-.
    apply (Hno _ eq_refl). now exists p.
  - rewrite Hret, bind_ret in Hrun.
    apply select_fields_all_available in Hret. cbn [app] in Hret.
    assert (Hids : map field_id fields = requested_fields sch c).
    { rewrite Hret. unfold requested_fields.
      rewrite flat_map_concat_map, concat_map, map_map,
        <- flat_map_concat_map.
      apply flat_map_ext. intros [prop schema]. cbn [fst snd].
      destruct (is_selected schema); [|reflexivity].
      unfold field_maps. rewrite field_name_map_get. cbn [fst dict_get].
      now destruct (last_descriptor _ _ prop). }
    cbn [paginate_contacts] in Hrun. rewrite Herr in Hrun.
    cbn [List.length Nat.ltb Nat.leb] in Hrun.
    rewrite !bind_emit, Hids in Hrun. cbn [fst snd] in Hrun.
    injection Hrun as <- _. now eexists.
Qed.
(** X15: lines 72-73: when the first query page reports errors and no
    selected field is unavailable, [sync_contacts] stops there: it has
    made the one query request, asked for no contact data and written
    nothing, and the exception carries the errors joined by commas. *)
Theorem sync_contacts_query_errors depth :
  (forall e, outcome (sync_contacts sch c (S depth)) = inl e ->
             ~ names_missing_field e) ->
  errors (get_contact_query (client c) 1000 0) <> [] ->
  sync_contacts sch c (S depth)
  = ([GetContactQuery 1000 0],
     inl (Exception
            ("contacts - "
             ++ join "," (errors (get_contact_query (client c) 1000 0))))).
Proof.
  unfold sync_contacts. intros Hno Herr.
  destruct (select_fields_spec
              (fst (field_maps sch (get_contacts_raw_fields sch c)))
              (contacts_properties c) [])
    as [(p & s & Hin & Hs & Hm & Hr)|(Hall & fields & Hret)].
  - exfalso. rewrite Hr in Hno. apply (Hno _ eq_refl). now exists p.
  - rewrite Hret, bind_ret. cbn [paginate_contacts].
    destruct (errors (get_contact_query (client c) 1000 0)) as [|x l];
      [contradiction|].
    reflexivity.
Qed.
End RequestedFields.

(** ** The list streams *)

Lemma keys_dict_set_new {V} k (v : V) d :
  ~ In k (keys d) -> keys (dict_set k v d) = keys d ++ [k].
Proof.
  unfold keys. induction d as [|[k' v'] d IH]; cbn; intros H; [reflexivity|].
  destruct (String.eqb_spec k' k) as [->|Hk]; [tauto|].
  cbn. f_equal. apply IH. tauto.
Qed.

Section ListStreamsFacts.
Variable iso : string -> exn + string.

Lemma base_transform_items_spec {E} date_fields items : forall obj t r,
  @base_transform_items iso E date_fields items obj = (t, inr r) ->
  (forall k v, In (k, v) obj -> v = Some "" -> In k date_fields) ->
  t = []
  /\ (forall k v, In (k, v) r -> v = Some "" -> In k date_fields)
  /\ (NoDup (keys obj ++ keys items) -> keys r = keys obj ++ keys items).
Proof.
  induction items as [|[field value] items IH]; intros obj t r;
    cbn [base_transform_items].
  - intros [= <- <-] Hobj. repeat split; auto.
    intros _. unfold keys. cbn. now rewrite app_nil_r.
  - intros Hrun Hobj.
    assert (Hnext : forall value',
      base_transform_items iso date_fields items
        (dict_set field value' obj) = (t, inr r) ->
      (value' = Some "" -> In field date_fields) ->
      t = []
      /\ (forall k v, In (k, v) r -> v = Some "" -> In k date_fields)
      /\ (NoDup (keys obj ++ keys (((field, value) :: items)))
          -> keys r = keys obj ++ keys ((field, value) :: items))).
    { intros value' Hrun' Hv.
      destruct (IH _ _ _ Hrun') as (Ht & Hvals & Hkeys).
      - apply (dict_set_values
                 (fun k v => v = Some "" -> In k date_fields));
          assumption.
      - repeat split; auto. intros Hnd.
        change (keys ((field, value) :: items)) with (field :: keys items)
          in *.
        assert (Hfresh : ~ In field (keys obj)).
        { intros Hin. apply NoDup_remove_2 in Hnd. apply Hnd.
          apply in_or_app. now left. }
        rewrite keys_dict_set_new, <- app_assoc in Hkeys by assumption.
        now apply Hkeys. }
    destruct value as [v|].
    + destruct (String.eqb_spec v "") as [->|Hv].
      * rewrite bind_ret in Hrun. apply (Hnext None Hrun). discriminate.
      * destruct (mem field date_fields) eqn:Hmem.
        -- destruct (iso v) as [e|s]; [discriminate|].
           rewrite bind_ret in Hrun. apply (Hnext (Some s) Hrun).
           intros _. now apply mem_In.
        -- rewrite bind_ret in Hrun. apply (Hnext (Some v) Hrun).
           intros [= Heq]. contradiction.
    + rewrite bind_ret in Hrun. apply (Hnext None Hrun). discriminate.
Qed.

(** X8: lines 30-38: [base_transform] emits nothing; what it returns has
    the fields of the object in the same order (for an object whose
    fields are distinct), and no empty string is left in it outside the
    date fields: an empty value has become null. *)
Theorem base_transform_result {E} obj date_fields t r :
  @base_transform iso E obj date_fields = (t, inr r) ->
  t = []
  /\ (forall k v, In (k, v) r -> v = Some "" -> In k date_fields)
  /\ (NoDup (keys obj) -> keys r = keys obj).
Proof.
  intros Hrun.
  destruct (base_transform_items_spec date_fields obj [] t r Hrun)
    as (Ht & Hv & Hk); [intros k v []|].
  repeat split; auto.
Qed.

Lemma map_m_length {E A B} (f : A -> M E B) l t ys :
  map_m f l = (t, inr ys) ->
  (forall x t' y, f x = (t', inr y) -> t' = []) ->
  t = [] /\ List.length ys = List.length l.
Proof.
  intros Hrun Hf. revert t ys Hrun.
  induction l as [|x l IH]; intros t ys; cbn [map_m].
  - intros [= <- <-]. auto.
  - destruct (f x) as [t1 [e|y]] eqn:Hx; unfold bind; cbn [fst snd];
      [discriminate|].
    destruct (map_m f l) as [t2 [e|ys']] eqn:Hl; cbn [fst snd];
      [discriminate|].
    intros [= <- <-]. destruct (IH _ _ eq_refl) as [-> Hlen].
    rewrite (Hf _ _ _ Hx). cbn. now rewrite Hlen.
Qed.

(** X9: lines 40-50: fetching the campaigns for the metrics only.  When
    [sync_campaigns] returns with [sync] set, it has made one request
    and written one batch, the campaigns it returns, one per campaign
    of the API; without [sync] it makes the same request, writes
    nothing, and returns the same campaigns. *)
Theorem sync_campaigns_read_only api' t data :
  sync_campaigns iso api' true = (t, inr data) ->
  t = [ GetEmail; Stream (SingerWriteRecords "campaigns" data);
        Stream (CounterIncrement "campaigns" (List.length data)) ]
  /\ List.length data = List.length (get_email api')
  /\ sync_campaigns iso api' false = ([GetEmail], inr data).
Proof.
  unfold sync_campaigns. rewrite !bind_emit.
  destruct (map_m (fun campaign =>
                     base_transform iso campaign ["created"; "deleted"])
                  (get_email api')) as [t1 [e|ds]] eqn:Hmap;
    unfold bind; cbn [fst snd]; [discriminate|].
  intros [= <- <-].
  destruct (map_m_length _ _ _ _ Hmap) as [-> Hlen].
  { intros x t' y Hx. now apply base_transform_result in Hx. }
  repeat split; auto.
Qed.
Lemma base_transform_items_raises {E} date_fields items : forall obj t e,
  @base_transform_items iso E date_fields items obj = (t, inl e) ->
  t = []
  /\ exists field v,
       In (field, Some v) items /\ In field date_fields
       /\ v <> "" /\ iso v = inl e.
Proof.
  induction items as [|[field value] items IH]; intros obj t e;
    cbn [base_transform_items]; [discriminate|].
  assert (Hnext : forall value',
    base_transform_items iso date_fields items
      (dict_set field value' obj) = (t, inl e) ->
    t = []
    /\ exists field' v,
         In (field', Some v) ((field, value) :: items)
         /\ In field' date_fields /\ v <> "" /\ iso v = inl e).
  { intros value' Hrun.
    destruct (IH _ _ _ Hrun) as (Ht & f & v & Hin & Hrest).
    split; [assumption|]. exists f, v. split; [now right|assumption]. }
  destruct value as [v|].
  - destruct (String.eqb_spec v "") as [->|Hv].
    + rewrite bind_ret. apply Hnext.
    + destruct (mem field date_fields) eqn:Hmem.
      * destruct (iso v) as [e'|s] eqn:Hiso.
        -- intros [= <- <-]. split; [reflexivity|]. exists field, v.
           repeat split; auto; [now left|now apply mem_In].
        -- rewrite bind_ret. apply Hnext.
      * rewrite bind_ret. apply Hnext.
  - rewrite bind_ret. apply Hnext.
Qed.

Lemma base_transform_silent {E} obj date_fields :
  trace (@base_transform iso E obj date_fields) = [].
Proof.
  unfold base_transform.
  destruct (base_transform_items iso date_fields obj [])
    as [t [e|r]] eqn:Hrun; cbn [trace fst].
  - now apply base_transform_items_raises in Hrun.
  - apply base_transform_items_spec in Hrun; [tauto|intros k v []].
Qed.

Lemma map_m_failure {E A B} (f : A -> M E B) l t e :
  map_m f l = (t, inl e) ->
  (forall x, trace (f x) = []) ->
  t = [] /\ exists x, In x l /\ outcome (f x) = inl e.
Proof.
  intros Hrun Hf. revert t Hrun.
  induction l as [|x l IH]; intros t; cbn [map_m]; [discriminate|].
  pose proof (Hf x) as Hx. unfold trace in Hx.
  destruct (f x) as [t1 [e1|y]] eqn:Hfx; unfold bind; cbn [fst snd] in *.
  - intros [= <- <-]. subst t1. split; [reflexivity|]. exists x.
    split; [now left|]. now rewrite Hfx.
  - destruct (map_m f l) as [t2 [e2|ys]] eqn:Hl; cbn [fst snd];
      [|discriminate].
    intros [= <- <-]. destruct (IH _ eq_refl) as (-> & x' & Hin & Hout).
    subst t1. split; [reflexivity|]. exists x'. split; [now right|assumption].
Qed.

(** X10: lines 116-124: the contact lists are written all together or not at
    all.  [sync_contact_lists] can only fail on a non-empty [created]
    value that does not parse, and it then has made its request and
    written nothing, not even the lists that came before the bad one. *)
Theorem sync_contact_lists_all_or_nothing api' sync t e :
  sync_contact_lists iso api' sync = (t, inl e) ->
  t = [GetContactlists]
  /\ exists contact_list v,
       In contact_list (get_contactlist_all api')
       /\ In ("created", Some v) contact_list
       /\ v <> "" /\ iso v = inl e.
Proof.
  unfold sync_contact_lists. rewrite bind_emit.
  destruct (map_m (fun contact_list =>
                     base_transform iso contact_list ["created"])
                  (get_contactlist_all api')) as [t1 [e1|ds]] eqn:Hmap;
    unfold bind; cbn [fst snd].
  - intros [= <- <-].
    destruct (map_m_failure _ _ _ _ Hmap) as (-> & obj & Hin & Hout).
    { intros x. apply base_transform_silent. }
    split; [reflexivity|]. exists obj.
    unfold base_transform, outcome in Hout.
    destruct (base_transform_items iso ["created"] obj [])
      as [t2 [e2|r]] eqn:Hrun; cbn [snd] in Hout; [|discriminate].
    injection Hout as ->.
    apply base_transform_items_raises in Hrun
      as (_ & field & v & Hfv & [<-|[]] & Hv & Hiso).
    exists v. auto.
  - destruct sync; cbn; discriminate.
Qed.
End ListStreamsFacts.

(** ** The orchestrator *)

Lemma outcome_bind {E A B} (r : M E A) (k : A -> M E B) :
  outcome (bind r k)
  = match outcome r with
    | inl e => inl e
    | inr a => outcome (k a)
    end.
Proof. destruct r as [t [e|a]]; reflexivity. Qed.

Lemma bound_and_bind {E A B} (Q1 : A -> Prop) (Q2 : B -> Prop)
    (r : M E A) (k : A -> M E B) :
  bound_and Q1 r -> (forall a, Q1 a -> bound_and Q2 (k a)) ->
  bound_and Q2 (bind r k).
Proof.
  intros [He Ha] Hk. unfold bound_and. rewrite outcome_bind.
  destruct (outcome r) as [e|a].
  - split; [|discriminate]. intros e' [= <-]. now apply He.
  - now apply Hk, Ha.
Qed.

Lemma bound_and_ret {E A} (Q : A -> Prop) (a : A) :
  Q a -> bound_and Q (@ret E A a).
Proof. intros H. split; [discriminate|]. now intros a' [= <-]. Qed.

Lemma bound_and_weaken {E A} (Q Q' : A -> Prop) (r : M E A) :
  (forall a, Q a -> Q' a) -> bound_and Q r -> bound_and Q' r.
Proof. intros HQ [He Ha]. split; auto. Qed.

Lemma ends_cleared_bind {E A} (inj : event -> E) (r : M E A)
    (k : A -> M E state) :
  (forall a, ends_cleared inj (k a)) -> ends_cleared inj (bind r k).
Proof.
  intros Hk t st. destruct r as [t1 [e|a]]; unfold bind; cbn [fst snd];
    [discriminate|].
  destruct (k a) as [t2 o] eqn:Hka. cbn [fst snd]. intros [= <- ->].
  destruct (Hk a t2 st Hka) as [Hlast [t0 ->]].
  split; [assumption|]. exists (t1 ++ t0). now rewrite app_assoc.
Qed.

Lemma fails_bind_l {E A B} (r : M E A) (k : A -> M E B) :
  fails r -> fails (bind r k).
Proof. intros [e He]. exists e. now rewrite outcome_bind, He. Qed.

Lemma fails_bind_r {E A B} (r : M E A) (k : A -> M E B) :
  (forall a, fails (k a)) -> fails (bind r k).
Proof.
  intros Hk. unfold fails. rewrite outcome_bind.
  destruct (outcome r) as [e|a]; [now exists e|apply Hk].
Qed.

Lemma post_bind {E A B} (Q1 : A -> Prop) (Q2 : B -> Prop)
    (r : M E A) (k : A -> M E B) :
  (forall a, outcome r = inr a -> Q1 a) ->
  (forall a, Q1 a -> forall b, outcome (k a) = inr b -> Q2 b) ->
  forall b, outcome (bind r k) = inr b -> Q2 b.
Proof.
  intros Hr Hk b. rewrite outcome_bind.
  destruct (outcome r) as [e|a]; [discriminate|]. now apply Hk, Hr.
Qed.

Section OrchestratorFacts.
Context {E Lists Campaigns : Type}.
Variable inj : event -> E.
Variable selected_stream_ids : list string.
Variable do_sync_contacts : M E unit.
Variable do_sync_contact_lists : bool -> M E Lists.
Variable do_sync_contact_lists_memberships : Lists -> M E unit.
Variable do_sync_campaigns : bool -> M E Campaigns.
Variable do_sync_metrics : state -> Campaigns -> M E state.

Let run :=
  sync_selected_streams inj selected_stream_ids do_sync_contacts
    do_sync_contact_lists do_sync_contact_lists_memberships
    do_sync_campaigns do_sync_metrics.

Lemma mark_bound st v :
  bound_and (fun _ : state => True) (mark inj st v).
Proof. split; [discriminate|auto]. Qed.

(** X11: lines 255-265 and 269-278: [contact_lists] and [campaigns] are
    bound whenever they are read.  Each is assigned in a branch only,
    but the branch that reads it is taken under a condition that makes
    the assigning branch run first: unless one of the five stream
    functions raises it itself, the run never ends in the error of an
    unbound local. *)
Theorem locals_are_bound st :
  (forall e, outcome do_sync_contacts = inl e -> ~ unbound_local e) ->
  (forall b e, outcome (do_sync_contact_lists b) = inl e ->
               ~ unbound_local e) ->
  (forall l e, outcome (do_sync_contact_lists_memberships l) = inl e ->
               ~ unbound_local e) ->
  (forall b e, outcome (do_sync_campaigns b) = inl e ->
               ~ unbound_local e) ->
  (forall s cs e, outcome (do_sync_metrics s cs) = inl e ->
                  ~ unbound_local e) ->
  forall e, outcome (run st) = inl e -> ~ unbound_local e.
Proof.
  intros H1 H2 H3 H4 H5.
  assert (Hany : forall A (r : M E A),
             (forall e, outcome r = inl e -> ~ unbound_local e) ->
             bound_and (fun _ => True) r).
  { intros A r Hr. split; auto. }
  enough (Hb : bound_and (fun _ => True) (run st)) by apply Hb.
  unfold run, sync_selected_streams. cbn zeta.
  set (b3 := mem IDS.CONTACT_LIST_MEMBERSHIPS selected_stream_ids
             && differs (last_synced_stream st)
                  IDS.CONTACT_LIST_MEMBERSHIPS).
  set (b5 := mem IDS.METRICS selected_stream_ids
             && differs (last_synced_stream st) IDS.METRICS).
  eapply bound_and_bind with (Q1 := fun _ => True).
  { destruct (mem IDS.CONTACTS selected_stream_ids
              && differs (last_synced_stream st) IDS.CONTACTS).
    - apply bound_and_bind with (Q1 := fun _ => True);
        [apply Hany, H1|]. intros. apply mark_bound.
    - now apply bound_and_ret. }
  intros st1 _.
  eapply bound_and_bind
    with (Q1 := fun r : state * option Lists =>
                  b3 = true -> snd r <> None).
  { destruct (_ || b3) eqn:Hc.
    - eapply bound_and_bind; [apply Hany, H2|]. intros l _.
      eapply bound_and_bind; [apply mark_bound|]. intros s _.
      apply bound_and_ret. discriminate.
    - apply bound_and_ret. intros Hb3. rewrite Hb3, orb_true_r in Hc.
      discriminate. }
  intros r2 Hr2.
  eapply bound_and_bind with (Q1 := fun _ => True).
  { destruct b3.
    - destruct (snd r2) as [l|]; [|now specialize (Hr2 eq_refl)].
      cbn [local]. rewrite bind_ret.
      eapply bound_and_bind; [apply Hany, H3|]. intros. apply mark_bound.
    - now apply bound_and_ret. }
  intros st3 _.
  eapply bound_and_bind
    with (Q1 := fun r : state * option Campaigns =>
                  b5 = true -> snd r <> None).
  { destruct (_ || b5) eqn:Hc.
    - eapply bound_and_bind; [apply Hany, H4|]. intros l _.
      eapply bound_and_bind; [apply mark_bound|]. intros s _.
      apply bound_and_ret. discriminate.
    - apply bound_and_ret. intros Hb5. rewrite Hb5, orb_true_r in Hc.
      discriminate. }
  intros r4 Hr4.
  eapply bound_and_bind with (Q1 := fun _ => True).
  { destruct b5.
    - destruct (snd r4) as [l|]; [|now specialize (Hr4 eq_refl)].
      cbn [local]. rewrite bind_ret.
      eapply bound_and_bind; [apply Hany, H5|]. intros. apply mark_bound.
    - now apply bound_and_ret. }
  intros st5 _. apply mark_bound.
Qed.

Lemma mark_bookmark st v a :
  outcome (mark inj st v) = inr a ->
  metrics_bookmark a = metrics_bookmark st.
Proof. now intros [= <-]. Qed.

(** X12: lines 246-283: a run that returns has cleared the marker: the last
    thing it does is persist the state it returns, whose
    [last_synced_stream] is null.  The orchestrator itself writes
    nothing but the marker: unless the metrics stream is selected, the
    bookmarks of the state it returns are those it started from. *)
Theorem run_ends_cleared st t st' :
  run st = (t, inr st') ->
  last_synced_stream st' = None
  /\ (exists t0, t = t0 ++ [inj (WriteState st')])
  /\ (mem IDS.METRICS selected_stream_ids = false ->
      metrics_bookmark st' = metrics_bookmark st).
Proof.
  intros Hrun.
  assert (Hc : ends_cleared inj (run st)).
  { unfold run, sync_selected_streams. cbn zeta.
    do 5 (apply ends_cleared_bind; intros ?).
    intros t1 st1 [= <- <-]. split; [reflexivity|]. now exists []. }
  destruct (Hc t st' Hrun) as [Hlast Hends].
  split; [assumption|]. split; [assumption|]. intros Hm.
  assert (Hout : outcome (run st) = inr st') by now rewrite Hrun.
  clear Hrun Hc Hlast Hends. revert st' Hout.
  unfold run, sync_selected_streams. cbn zeta.
  rewrite Hm. cbn [andb]. rewrite orb_false_r.
  set (keeps := fun s : state => metrics_bookmark s = metrics_bookmark st).
  apply post_bind with (Q1 := keeps) (Q2 := keeps).
  { destruct (mem IDS.CONTACTS selected_stream_ids
              && differs (last_synced_stream st) IDS.CONTACTS).
    - apply post_bind with (Q1 := fun _ => True); [trivial|].
      intros _ _ a Ha. now apply mark_bookmark in Ha.
    - now intros a [= <-]. }
  intros st1 H1.
  apply post_bind with (Q1 := fun r : state * option Lists => keeps (fst r))
                       (Q2 := keeps).
  { destruct (_ || _).
    - apply post_bind with (Q1 := fun _ => True); [trivial|].
      intros l _.
      apply post_bind with (Q1 := keeps).
      + intros a Ha. apply mark_bookmark in Ha. unfold keeps in *.
        congruence.
      + intros s Hs r [= <-]. exact Hs.
    - now intros r [= <-]. }
  intros r2 H2.
  apply post_bind with (Q1 := keeps) (Q2 := keeps).
  { destruct (_ && _).
    - apply post_bind with (Q1 := fun _ => True); [trivial|].
      intros l _.
      apply post_bind with (Q1 := fun _ => True); [trivial|].
      intros _ _ a Ha. apply mark_bookmark in Ha. unfold keeps in *.
      congruence.
    - now intros a [= <-]. }
  intros st3 H3.
  apply post_bind with (Q1 := fun r : state * option Campaigns =>
                                keeps (fst r)) (Q2 := keeps).
  { destruct (_ && _).
    - apply post_bind with (Q1 := fun _ => True); [trivial|].
      intros l _.
      apply post_bind with (Q1 := keeps).
      + intros a Ha. apply mark_bookmark in Ha. unfold keeps in *.
        congruence.
      + intros s Hs r [= <-]. exact Hs.
    - now intros r [= <-]. }
  intros r4 H4. rewrite bind_ret.
  intros a Ha. apply mark_bookmark in Ha. unfold keeps in *. congruence.
Qed.

(** X13: lines 255-261: with the marker at [contact_lists], the contact
    lists are not skipped as long as the memberships are due: they are
    fetched again, and written again when selected. *)
Theorem contact_lists_synced_again st :
  last_synced_stream st = Some IDS.CONTACT_LISTS ->
  mem IDS.CONTACTS selected_stream_ids = false ->
  mem IDS.CONTACT_LISTS selected_stream_ids = true ->
  mem IDS.CONTACT_LIST_MEMBERSHIPS selected_stream_ids = true ->
  exists rest, trace (run st) = trace (do_sync_contact_lists true) ++ rest.
Proof.
  intros Hlast Hc Hl Hm. unfold run, sync_selected_streams. cbn zeta.
  rewrite Hlast, Hc, Hl, Hm. cbn [andb orb differs]. rewrite bind_ret.
  change (String.eqb IDS.CONTACT_LISTS IDS.CONTACT_LISTS) with true.
  change (String.eqb IDS.CONTACT_LISTS IDS.CONTACT_LIST_MEMBERSHIPS)
    with false.
  cbn [negb orb].
  destruct (trace_bind
              (contact_lists <- do_sync_contact_lists true ;;
               st0 <- mark inj st (Some IDS.CONTACT_LISTS) ;;
               ret (st0, Some contact_lists))
              (fun r =>
                 st0 <- (contact_lists <- local "contact_lists" (snd r) ;;
                         do_sync_contact_lists_memberships contact_lists ;;
                         mark inj (fst r)
                           (Some IDS.CONTACT_LIST_MEMBERSHIPS)) ;;
                 r0 <- (if mem IDS.CAMPAIGNS selected_stream_ids
                           && negb (String.eqb IDS.CONTACT_LISTS
                                      IDS.CAMPAIGNS)
                           || mem IDS.METRICS selected_stream_ids
                              && negb (String.eqb IDS.CONTACT_LISTS
                                         IDS.METRICS)
                        then
                          campaigns <-
                            do_sync_campaigns
                              (mem IDS.CAMPAIGNS selected_stream_ids) ;;
                          st1 <- mark inj st0 (Some IDS.CAMPAIGNS) ;;
                          ret (st1, Some campaigns)
                        else ret (st0, None)) ;;
                 st1 <- (if mem IDS.METRICS selected_stream_ids
                            && negb (String.eqb IDS.CONTACT_LISTS
                                       IDS.METRICS)
                         then
                           campaigns <- local "campaigns" (snd r0) ;;
                           st1 <- do_sync_metrics (fst r0) campaigns ;;
                           mark inj st1 (Some IDS.METRICS)
                         else ret (fst r0)) ;;
                 mark inj st1 None)) as [t1 Ht1].
  destruct (trace_bind (do_sync_contact_lists true)
              (fun contact_lists =>
                 st0 <- mark inj st (Some IDS.CONTACT_LISTS) ;;
                 ret (st0, Some contact_lists))) as [t2 Ht2].
  exists (t2 ++ t1). rewrite app_assoc, <- Ht2. exact Ht1.
Qed.
End OrchestratorFacts.

Section OrchestratorAndMetrics.
Variable sch : schemas.
Variable c : ctx.

Lemma sync_metrics_fails st campaigns :
  fails (sync_metrics sch c st campaigns).
Proof.
  unfold fails.
  destruct (sync_metrics_cases sch c st campaigns)
    as [[_ He]|(sd0 & ed & cs & ms & ld & H1 & H2 & H3)]; [assumption|].
  rewrite (sync_metrics_unfold sch c st campaigns sd0 ed cs ms ld H1 H2 H3).
  unfold outcome at 1. cbn [snd].
  destruct (outcome (for_campaigns _ _ _ _ _ _ _ _ _)); now eexists.
Qed.

(** X14: lines 277-283 with line 242: when the metrics stream is selected
    and is not the stream the marker names, the whole run ends in an
    exception, whatever the other streams do and whatever campaigns
    they hand over: [sync_metrics] never returns, so the marker is
    neither set to [metrics] nor cleared. *)
Theorem run_with_metrics_fails {Lists Campaigns : Type}
    selected_stream_ids
    (do_sync_contacts : M run_event unit)
    (do_sync_contact_lists : bool -> M run_event Lists)
    (do_sync_contact_lists_memberships : Lists -> M run_event unit)
    (do_sync_campaigns : bool -> M run_event Campaigns)
    (campaigns_of : Campaigns -> list campaign) st :
  mem IDS.METRICS selected_stream_ids = true ->
  last_synced_stream st <> Some IDS.METRICS ->
  fails (sync_selected_streams Stream selected_stream_ids
           do_sync_contacts do_sync_contact_lists
           do_sync_contact_lists_memberships do_sync_campaigns
           (fun st campaigns =>
              lift (sync_metrics sch c st (campaigns_of campaigns)))
           st).
Proof.
  intros Hsel Hlast. unfold sync_selected_streams. cbn zeta.
  assert (Hd : differs (last_synced_stream st) IDS.METRICS = true).
  { unfold differs. destruct (last_synced_stream st) as [s|]; [|reflexivity].
    destruct (String.eqb_spec s IDS.METRICS); [congruence|reflexivity]. }
  rewrite Hsel, Hd. cbn [andb].
  do 4 (apply fails_bind_r; intros ?).
  apply fails_bind_l. apply fails_bind_r. intros campaigns.
  apply fails_bind_l.
  destruct (sync_metrics_fails (fst a2) (campaigns_of campaigns))
    as [e He].
  exists e. unfold lift, outcome in *. cbn [snd]. exact He.
Qed.
End OrchestratorAndMetrics.

(** ** More concrete runs *)

Module MoreRuns.
Import Scenario MoreScenario.

Lemma every_cell_answered {cfg md props clock} x m d :
answered (mkCtx the_api cfg md props clock) x m d.
Proof.
exists 1%nat, ["c1"; "c2"]. split; [lia|]. split; [|reflexivity].
intros i Hi. destruct i; [reflexivity|lia].
Defined.

Lemma fresh_run_cross_product_witness :
cells_of (trace clock_run)
= [ ("5", "open", "2021-03-14"); ("5", "open", "2021-03-15");
    ("5", "click", "2021-03-14"); ("5", "click", "2021-03-15");
    ("5", "bounce", "2021-03-14"); ("5", "bounce", "2021-03-15") ]
/\ checkpoints_written (trace clock_run) = 6%nat
/\ outcome clock_run = inl (NameError "reset_stream").
Proof.
destruct (fresh_run_cross_product the_schemas clock_ctx empty_state
            campaigns (Pendulum.mkDateTime 18700 50400000000)
            (Pendulum.at_midnight 18702)
            eq_refl eq_refl eq_refl eq_refl eq_refl eq_refl
            (fun x m d _ _ _ =>
               every_cell_answered x m (Pendulum.date_string d)))
  as (Hcells & _ & Hck & Hout).
unfold clock_run. split; [|split].
- rewrite Hcells. reflexivity.
- rewrite Hck, Hcells. reflexivity.
- exact Hout.
Defined.

Lemma fresh_run_empty_range_witness :
trace (sync_metrics the_schemas reversed_ctx empty_state campaigns) = []
/\ outcome (sync_metrics the_schemas reversed_ctx empty_state campaigns)
   = inl (NameError "reset_stream").
Proof.
destruct (fresh_run_empty_range the_schemas reversed_ctx empty_state
            campaigns (Pendulum.at_midnight 18688)
            (Pendulum.at_midnight 18687) eq_refl eq_refl eq_refl eq_refl)
  as [Ht Hout].
split; [exact Ht|]. apply Hout. reflexivity.
Defined.

Lemma resume_with_unselected_metric_witness :
outcome (sync_metrics the_schemas the_ctx stale_state [])
= inl (ValueError "list.remove(x): x not in list")
/\ cells_of (trace (sync_metrics the_schemas the_ctx stale_state []))
   = [ ("5", "unsub", "2021-03-02") ].
Proof.
destruct (resume_with_unselected_metric the_schemas the_ctx stale_state []
            "5" [] "unsub" ["click"] "2021-03-02"
            (Pendulum.at_midnight 18688) (Pendulum.at_midnight 18688)
            (Pendulum.at_midnight 18687))
  as [Hout Hcells].
- reflexivity.
- reflexivity.
- reflexivity.
- discriminate.
- reflexivity.
- reflexivity.
- reflexivity.
- vm_compute. intros [H|[H|[H|[]]]]; discriminate.
- intros d Hd. split; [apply every_cell_answered|].
  assert (d = 18688) as -> by (cbn in Hd; lia). reflexivity.
- split; [exact Hout|]. rewrite Hcells. reflexivity.
Defined.

Lemma memberships_written_in_order_witness :
records_of (trace (sync_contact_list_memberships the_ctx 5 "L1" 1 0))
= [ membership "L1" "a"; membership "L1" "b" ]
/\ filter (fun ev => match ev with
                     | GetContactlist _ _ _ => true
                     | _ => false
                     end)
     (trace (sync_contact_list_memberships the_ctx 5 "L1" 1 0))
   = [ GetContactlist "L1" 1 0; GetContactlist "L1" 1 1;
       GetContactlist "L1" 1 2 ].
Proof.
apply (memberships_written_in_order the_ctx "L1" ["a"; "b"] 1 5).
- lia.
- intros limit offset. reflexivity.
- cbn. lia.
Defined.

Lemma transform_contact_no_empty_value_witness :
trace (transform_contact the_ctx field_map [ ("id", ""); ("7", "") ]) = []
/\ forall k v,
     In (k, v) [ ("id", Some ""); ("email", None) ] ->
     v = Some "" -> k = "id" \/ k = "uid".
Proof.
apply (transform_contact_no_empty_value the_ctx field_map
         [ ("id", ""); ("7", "") ]
         (trace (transform_contact the_ctx field_map
                   [ ("id", ""); ("7", "") ]))).
reflexivity.
Defined.

Lemma sync_contacts_requested_fields_witness :
exists rest,
  trace (sync_contacts the_schemas the_ctx 5)
  = GetContactQuery 1000 0
    :: PostContactGetdata ["1"; "2"; "3"] ["7"] :: rest.
Proof.
apply (sync_contacts_requested_fields the_schemas the_ctx 4
         (trace (sync_contacts the_schemas the_ctx 5))
         (outcome (sync_contacts the_schemas the_ctx 5))).
- reflexivity.
- intros e He. vm_compute in He. discriminate.
- reflexivity.
Defined.

Lemma sync_contacts_query_errors_witness :
sync_contacts the_schemas refused_ctx 5
= ([GetContactQuery 1000 0],
   inl (Exception "contacts - quota,retry later")).
Proof.
apply (sync_contacts_query_errors the_schemas refused_ctx 4).
- intros e He [prop Hp]. vm_compute in He. subst e. discriminate.
- discriminate.
Defined.

Lemma base_transform_result_witness :
trace (@base_transform the_iso run_event
         [ ("id", Some "6"); ("name", Some "");
           ("created", Some "2019-12-01"); ("deleted", Some "2020-01-01") ]
         ["created"; "deleted"]) = []
/\ (forall k v,
      In (k, v) [ ("id", Some "6"); ("name", None);
                  ("created", Some "2019-12-01T00:00:00+00:00");
                  ("deleted", Some "2020-01-01T00:00:00+00:00") ] ->
      v = Some "" -> In k ["created"; "deleted"])
/\ keys [ ("id", Some "6"); ("name", @None string);
          ("created", Some "2019-12-01T00:00:00+00:00");
          ("deleted", Some "2020-01-01T00:00:00+00:00") ]
   = ["id"; "name"; "created"; "deleted"].
Proof.
destruct (@base_transform_result the_iso run_event
            [ ("id", Some "6"); ("name", Some "");
              ("created", Some "2019-12-01");
              ("deleted", Some "2020-01-01") ]
            ["created"; "deleted"]
            (trace (@base_transform the_iso run_event
                      [ ("id", Some "6"); ("name", Some "");
                        ("created", Some "2019-12-01");
                        ("deleted", Some "2020-01-01") ]
                      ["created"; "deleted"]))
            [ ("id", Some "6"); ("name", None);
              ("created", Some "2019-12-01T00:00:00+00:00");
              ("deleted", Some "2020-01-01T00:00:00+00:00") ]
            eq_refl) as (Ht & Hv & Hk).
split; [exact Ht|]. split; [exact Hv|]. apply Hk.
repeat constructor; cbn; intuition discriminate.
Defined.

Lemma sync_campaigns_read_only_witness :
outcome (sync_campaigns the_iso the_lists false)
= outcome (sync_campaigns the_iso the_lists true)
/\ trace (sync_campaigns the_iso the_lists false) = [GetEmail].
Proof.
destruct (sync_campaigns_read_only the_iso the_lists
            (trace (sync_campaigns the_iso the_lists true))
            [ [ ("id", Some "5"); ("name", Some "spring");
                ("created", Some "2021-02-01T00:00:00+00:00");
                ("deleted", None) ];
              [ ("id", Some "6"); ("name", None);
                ("created", Some "2019-12-01T00:00:00+00:00");
                ("deleted", Some "2020-01-01T00:00:00+00:00") ] ])
  as (_ & _ & Hro).
- reflexivity.
- rewrite Hro. split; reflexivity.
Defined.

Lemma sync_contact_lists_all_or_nothing_witness :
trace (sync_contact_lists the_iso bad_lists true) = [GetContactlists]
/\ outcome (sync_contact_lists the_iso bad_lists true)
   = inl (ParserError "yesterday").
Proof.
destruct (sync_contact_lists_all_or_nothing the_iso bad_lists true
            (trace (sync_contact_lists the_iso bad_lists true))
            (ParserError "yesterday") eq_refl) as [Ht _].
split; [exact Ht|reflexivity].
Defined.

Lemma locals_are_bound_witness :
outcome (sync_selected_streams Stream
           [IDS.CONTACTS; IDS.CONTACT_LIST_MEMBERSHIPS; IDS.METRICS]
           (lift (sync_contacts the_schemas the_ctx 5))
           (sync_contact_lists the_iso bad_lists)
           memberships_of_L1
           (sync_campaigns the_iso the_lists)
           (fun st (_ : list record) => ret st)
           after_contact_lists)
= inl (ParserError "yesterday")
/\ (unbound_local (ParserError "yesterday") -> False).
Proof.
split; [reflexivity|].
apply (locals_are_bound Stream
         [IDS.CONTACTS; IDS.CONTACT_LIST_MEMBERSHIPS; IDS.METRICS]
         (lift (sync_contacts the_schemas the_ctx 5))
         (sync_contact_lists the_iso bad_lists)
         memberships_of_L1
         (sync_campaigns the_iso the_lists)
         (fun st (_ : list record) => ret st)
         after_contact_lists).
- intros e He. vm_compute in He. discriminate.
- intros b e He [Hu|Hu]; subst e; destruct b; vm_compute in He;
    discriminate.
- intros l e He. vm_compute in He. discriminate.
- intros b e He. destruct b; vm_compute in He; discriminate.
- intros s cs e He. discriminate.
- reflexivity.
Defined.

Lemma run_ends_cleared_witness :
last_synced_stream (mkState None None) = None
/\ (exists t0,
      trace (run_without_metrics [IDS.CONTACT_LISTS; IDS.CAMPAIGNS]
               empty_state)
      = t0 ++ [Stream (WriteState (mkState None None))])
/\ metrics_bookmark (mkState None None) = metrics_bookmark empty_state.
Proof.
destruct (run_ends_cleared Stream [IDS.CONTACT_LISTS; IDS.CAMPAIGNS]
            (lift (sync_contacts the_schemas the_ctx 5))
            (sync_contact_lists the_iso the_lists)
            memberships_of_L1
            (sync_campaigns the_iso the_lists)
            (fun st (_ : list record) => ret st)
            empty_state
            (trace (run_without_metrics [IDS.CONTACT_LISTS; IDS.CAMPAIGNS]
                      empty_state))
            (mkState None None) eq_refl) as (Hlast & Hends & Hkeeps).
split; [exact Hlast|]. split; [exact Hends|]. apply Hkeeps. reflexivity.
Defined.

Lemma contact_lists_synced_again_witness :
exists rest,
  trace (run_without_metrics
           [IDS.CONTACT_LISTS; IDS.CONTACT_LIST_MEMBERSHIPS]
           after_contact_lists)
  = trace (sync_contact_lists the_iso the_lists true) ++ rest.
Proof.
apply (contact_lists_synced_again Stream
         [IDS.CONTACT_LISTS; IDS.CONTACT_LIST_MEMBERSHIPS]
         (lift (sync_contacts the_schemas the_ctx 5))
         (sync_contact_lists the_iso the_lists)
         memberships_of_L1
         (sync_campaigns the_iso the_lists)
         (fun st (_ : list record) => ret st)
         after_contact_lists); reflexivity.
Defined.

Lemma run_with_metrics_fails_witness :
fails (sync_selected_streams Stream [IDS.CAMPAIGNS; IDS.METRICS]
         (lift (sync_contacts the_schemas the_ctx 5))
         (sync_contact_lists the_iso the_lists)
         memberships_of_L1
         (sync_campaigns the_iso the_lists)
         (fun st cs =>
            lift (sync_metrics the_schemas the_ctx st (map as_campaign cs)))
         empty_state).
Proof.
apply (run_with_metrics_fails the_schemas the_ctx
         [IDS.CAMPAIGNS; IDS.METRICS]
         (lift (sync_contacts the_schemas the_ctx 5))
         (sync_contact_lists the_iso the_lists)
         memberships_of_L1
         (sync_campaigns the_iso the_lists)
         (map as_campaign) empty_state).
- reflexivity.
- discriminate.
Defined.

End MoreRuns.
